(** * Menu options for hazard indicators: a shallow embedding of
      [src/app/hazard_options.py] and the properties of its option lists.

    The Python module turns hazard-indicator documents into four lists of
    option records (hazard types, indicators, climate models, scenarios) and
    folds them, document after document, into four accumulator lists.

    Conventions of the embedding:
    - a Python [str] is a [string]; every character is one [ascii];
    - a JSON value stored in a record is a [json];
    - an option record (a Python [dict] with string keys) is a
      [gmap string json]: dictionary equality is equality of the maps;
    - a Python exception is an [error], and a function that may raise
      returns a [result];
    - the records and arrays handed to [update_options] are taken to be
      distinct objects, as they are in [create_menu_options], so that the
      in-place updates of the source are updates of one list entry. *)

From stdpp Require Import gmap strings list fin_maps.
From Stdlib Require Import Ascii ZArith.
From Stdlib Require String.

Open Scope stdpp_scope.

(** ** Exceptions and results *)

Inductive error : Type :=
  | KeyError (key : string)      (* a missing dictionary key *)
  | IndexError                   (* a positional field of [str.format] *)
  | ValueError                   (* a malformed format string *)
  | TypeError                    (* [+=] or [in] on a value that is no list *)
  | UnboundLocalError            (* a local read before its assignment *)
  | Unmodelled.                  (* format fields outside the embedded fragment *)

Inductive result (A : Type) : Type :=
  | Ok (a : A)
  | Err (e : error).
Arguments Ok {A} a.
Arguments Err {A} e.

#[global] Instance error_eq_dec : EqDecision error.
Proof. solve_decision. Defined.

#[global] Instance result_eq_dec {A} `{EqDecision A} : EqDecision (result A).
Proof. solve_decision. Defined.

#[global] Instance result_ret : MRet result := @Ok.
#[global] Instance result_bind : MBind result :=
  λ A B f m, match m with Ok a => f a | Err e => Err e end.
#[global] Instance result_fmap : FMap result :=
  λ A B f m, match m with Ok a => Ok (f a) | Err e => Err e end.

Definition is_Ok {A} (m : result A) : Prop := ∃ a, m = Ok a.

(** ** JSON values held by a record *)

#[local] Unset Elimination Schemes.
Inductive json : Type :=
  | JStr (s : string)
  | JNum (n : Z)
  | JList (l : list json).
#[local] Set Elimination Schemes.

Definition json_eq_dec : ∀ a b : json, {a = b} + {a ≠ b}.
Proof.
  fix IH 1. intros [s1|n1|l1] [s2|n2|l2]; try (right; discriminate).
  - destruct (String.string_dec s1 s2) as [->|Hn]; [by left|right; congruence].
  - destruct (Z.eq_dec n1 n2) as [->|Hn]; [by left|right; congruence].
  - destruct (@list_eq_dec _ IH l1 l2) as [->|Hn]; [by left|right; congruence].
Defined.

#[global] Instance json_eq_decision : EqDecision json := json_eq_dec.

(** [d[key]]: the lookup of a key that a record may lack. *)
Definition getitem (d : gmap string json) (key : string) : result json :=
  match d !! key with
  | Some v => Ok v
  | None => Err (KeyError key)
  end.

(** ** Python string operations *)

(** [s[n:]] *)
Fixpoint str_drop (n : nat) (s : string) : string :=
  match n, s with
  | 0, _ => s
  | S _, "" => ""
  | S k, String _ s' => str_drop k s'
  end.

(** [s.replace(a, b)] for one-character [a] and [b]. *)
Fixpoint replace_char (a b : ascii) (s : string) : string :=
  match s with
  | "" => ""
  | String c s' => String (if decide (c = a) then b else c) (replace_char a b s')
  end.

(** [sub in s] for strings. *)
Fixpoint str_contains (sub s : string) : bool :=
  String.prefix sub s ||
  match s with
  | "" => false
  | String _ s' => str_contains sub s'
  end.

(** [s.replace(old, new)]: the occurrences of [old] are replaced from left
    to right without overlap. [skip] counts the characters of a replaced
    occurrence that are still to be passed over. *)
Fixpoint replace_go (old new : string) (skip : nat) (s : string) : string :=
  match s with
  | "" => ""
  | String c s' =>
      match skip with
      | S k => replace_go old new k s'
      | 0 =>
          if String.prefix old s
          then new +:+ replace_go old new (String.length old - 1) s'
          else String c (replace_go old new 0 s')
      end
  end.

Fixpoint interleave (new s : string) : string :=
  match s with
  | "" => ""
  | String c s' => String c (new +:+ interleave new s')
  end.

Definition str_replace (old new s : string) : string :=
  match old with
  | "" => new +:+ interleave new s
  | _ => replace_go old new 0 s
  end.

(** ** Label formatting *)

Definition is_upper (c : ascii) : bool :=
  Nat.leb 65 (nat_of_ascii c) && Nat.leb (nat_of_ascii c) 90.

(** [re.sub(r"(?<!^)(?=[A-Z])", " ", s)], after the first character. *)
Fixpoint split_camel_tail (s : string) : string :=
  match s with
  | "" => ""
  | String c s' =>
      if is_upper c then String " " (String c (split_camel_tail s'))
      else String c (split_camel_tail s')
  end.

Definition hazard_type_label (hazard_type : string) : string :=
  match hazard_type with
  | "" => ""
  | String c s' => String c (split_camel_tail s')
  end.

(** The label computed in the loop of [get_scenario_options]. Under the
    guard [len(id) == 6] the indices 3 and 4 are in range. *)
Definition scenario_label (id : string) : string :=
  if String.prefix "ssp" id && Nat.eqb (String.length id) 6 then
    "SSP" +:+ String.substring 3 1 id +:+ "-" +:+ String.substring 4 1 id
          +:+ "." +:+ str_drop 5 id
  else if String.prefix "rcp" id then
    "RCP-" +:+ replace_char "p"%char "."%char (str_drop 3 id)
  else id.

(** ** [str.format] and [str.format_map]

    The embedded fragment of the format mini-language: literal text, the
    escapes [{{] and [}}], and replacement fields [{name}] whose name holds
    none of [: ! [ .] (no conversion, no format specification, no attribute
    or index access). A field outside the fragment yields [Unmodelled]. The
    substituted values are strings, rendered as they are. *)

Definition is_digit (c : ascii) : bool :=
  match Ascii.is_nat c with
  | Some _ => true
  | None => false
  end.

Fixpoint all_digits (s : string) : bool :=
  match s with
  | "" => true
  | String c s' => is_digit c && all_digits s'
  end.

(** The object a field name stands for. An empty name (automatic numbering)
    and a name made of decimal digits are positional: [positional] is the
    exception raised for them. Indices of more than nine digits may exceed
    the platform's index type and are left out of the fragment. *)
Definition field_value (get : string → result string) (positional : error)
    (name : string) : result string :=
  if all_digits name then
    if Nat.ltb 9 (String.length name) then Err Unmodelled else Err positional
  else get name.

Definition is_field_special (c : ascii) : bool :=
  bool_decide (c ∈ [":"; "!"; "["; "."]%char).

(** The scanner of the format string. [fld] is [None] in literal text and
    [Some name] inside a replacement field whose name read so far is
    [name]. *)
Fixpoint format_go (field : string → result string) (fld : option string)
    (s : string) : result string :=
  match s with
  | "" =>
      match fld with
      | None => Ok ""
      | Some _ => Err ValueError      (* expected '}' before end of string *)
      end
  | String c s' =>
      match fld with
      | None =>
          if decide (c = "{"%char) then
            match s' with
            | "" => Err ValueError    (* single '{' *)
            | String c' s'' =>
                if decide (c' = "{"%char)
                then String "{"%char <$> format_go field None s''
                else format_go field (Some "") s'
            end
          else if decide (c = "}"%char) then
            match s' with
            | "" => Err ValueError    (* single '}' *)
            | String c' s'' =>
                if decide (c' = "}"%char)
                then String "}"%char <$> format_go field None s''
                else Err ValueError
            end
          else String c <$> format_go field None s'
      | Some name =>
          if decide (c = "}"%char) then
            v ← field name;
            rest ← format_go field None s';
            mret (v +:+ rest)
          else if decide (c = "{"%char) then Err ValueError
          else if is_field_special c then Err Unmodelled
          else format_go field (Some (name +:+ String c "")) s'
      end
  end.

(** [dict(zip(keys, values))] with distinct keys, and its lookup. *)
Fixpoint dict_get (param_dict : list (string * string)) (key : string)
    : option string :=
  match param_dict with
  | [] => None
  | (k, v) :: rest => if decide (k = key) then Some v else dict_get rest key
  end.

(** [template.format] with the keyword arguments [param_dict]: a missing
    key raises [KeyError]. *)
Definition format (param_dict : list (string * string)) (template : string)
    : result string :=
  format_go
    (field_value
       (λ key, match dict_get param_dict key with
               | Some v => Ok v
               | None => Err (KeyError key)
               end)
       IndexError)
    None template.

(** [template.format_map] with a [CustomDict] built from [param_dict]:
    [__missing__] returns the key between braces; without positional
    arguments a positional field is a [ValueError]. *)
Definition format_map (param_dict : list (string * string)) (template : string)
    : result string :=
  format_go
    (field_value
       (λ key, match dict_get param_dict key with
               | Some v => Ok v
               | None => Ok ("{" +:+ key +:+ "}")
               end)
       ValueError)
    None template.

(** ** Documents and option records *)

Record scenario : Type := {
  scenario_id : string;
  years : json }.

(** The [properties] of a document, with the prefix [osc-hazard:] of the
    keys left out. [params] is a dictionary in insertion order: its keys
    are pairwise distinct. Parameter values and scenario ids are strings;
    [years] is kept as the JSON value it is. Every key is present:
    an empty [indicator_model_id] is the empty string. *)
Record document : Type := {
  hazard_type : string;
  params : list (string * list string);
  scenarios : list scenario;
  display_name : string;
  indicator_id : string;
  path : string;
  indicator_model_id : string;
  indicator_model_gcm : string }.

Abbreviation record := (gmap string json).

(** ** [dedupe_dict] *)

Section dedupe.
Context {A : Type} `{EqDecision A}.

Definition dedupe_step (unique : list A) (item : A) : list A :=
  if decide (item ∈ unique) then unique else unique ++ [item].

Definition dedupe_dict (dict_list : list A) : list A :=
  foldl dedupe_step [] dict_list.
End dedupe.

(** ** The option lists of one document *)

Definition get_hazard_types (data : document) : list record :=
  dedupe_dict
    [ {[ "label" := JStr (hazard_type_label (hazard_type data));
         "value" := JStr (hazard_type data) ]} ].

Fixpoint params_get (params : list (string * list string)) (key : string)
    : option (list string) :=
  match params with
  | [] => None
  | (k, v) :: rest => if decide (k = key) then Some v else params_get rest key
  end.

Definition get_climate_model_options (params : list (string * list string))
    : list record :=
  match params_get params "gcm" with
  | Some gcms =>
      (λ gcm, {[ "value" := JStr gcm; "label" := JStr ("CMIP6: " +:+ gcm) ]})
        <$> gcms
  | None => []
  end.

Definition get_scenario_options (scenarios : list scenario) : list record :=
  dedupe_dict
    ((λ scene, {[ "label" := JStr (scenario_label (scenario_id scene));
                  "value" := JStr (scenario_id scene);
                  "year_options" := years scene ]}) <$> scenarios).

(** [itertools.product] of the lists: the leftmost list is the outermost
    loop. *)
Fixpoint product {A} (lists : list (list A)) : list (list A) :=
  match lists with
  | [] => [[]]
  | l :: rest => x ← l; (x ::.) <$> product rest
  end.

(** A left fold whose step may raise. *)
Fixpoint foldM {A B} (f : B → A → result B) (b : B) (l : list A) : result B :=
  match l with
  | [] => Ok b
  | x :: l' => b' ← f b x; foldM f b' l'
  end.

(** One round of [for key in param_dict.keys()]: the locals
    [display_name] and [path] are assigned anew. *)
Definition assign_names (props : document) (param_dict : list (string * string))
    (locals : option (string * string)) (key : string)
    : result (option (string * string)) :=
  display_name' ←
    (if negb (str_contains key (indicator_id props))
     then format param_dict
            (str_replace ("{" +:+ key +:+ "}") "" (display_name props))
     else format param_dict (display_name props));
  path' ← format_map param_dict (path props);
  mret (Some (display_name', path')).

(** The body of [for values in param_values]. *)
Definition indicator_option (data : document) (values : list string)
    : result record :=
  let param_dict := zip (params data).*1 values in
  let locals0 :=
    match param_dict with
    | [] => Some (display_name data, path data)
    | _ => None
    end in
  locals ← foldM (assign_names data param_dict) locals0 param_dict.*1;
  indicator_id0 ←
    format param_dict (replace_char "/"%char "_"%char (indicator_id data));
  let indicator_id1 :=
    if decide (indicator_model_id data = "") then indicator_id0
    else indicator_id0 +:+ "_"
           +:+ replace_char "/"%char "_"%char (indicator_model_id data) in
  let indicator_id2 :=
    if decide (indicator_model_gcm data ≠ "unknown"
               ∧ indicator_model_gcm data ≠ "{gcm}")
    then indicator_id1 +:+ "_" +:+ indicator_model_gcm data
    else indicator_id1 in
  match locals with
  | None => Err UnboundLocalError
  | Some (display_name', path') =>
      Ok ({[ "label" := JStr display_name';
             "value" := JStr indicator_id2;
             "path" := JStr path' ]} : record)
  end.

Definition get_indicator_options (data : document) : result (list record) :=
  indicator_options ← mapM (indicator_option data) (product (params data).*2);
  mret (dedupe_dict indicator_options).

(** The tuple [(indicator_options, climate_model_options, scenario_options,
    hazard_types)]. *)
Definition get_menu_items_from_file (data : document)
    : result (list record * list record * list record * list record) :=
  let climate_model_options := get_climate_model_options (params data) in
  let scenario_options := get_scenario_options (scenarios data) in
  indicator_options ← get_indicator_options data;
  let hazard_types := get_hazard_types data in
  mret (indicator_options, climate_model_options, scenario_options, hazard_types).

(** ** [update_options] *)

(** An entry of [options_dicts]: [opt_name] is its ["name"], [opt_list] its
    ["list"]. *)
Record option_dict : Type := {
  opt_name : string;
  opt_list : list record }.

#[global] Instance option_dict_eq_dec : EqDecision option_dict.
Proof. solve_decision. Defined.

(** The values of the records of [options_list] that are not in [arr]: the
    comprehension on the right of [+=]. *)
Fixpoint new_values (arr : list json) (options_list : list record)
    : result (list json) :=
  match options_list with
  | [] => Ok []
  | option :: rest =>
      v ← getitem option "value";
      vs ← new_values arr rest;
      mret (if decide (v ∈ arr) then vs else v :: vs)
  end.

(** The same comprehension when the field is a string: [in] wants a string
    on its left. *)
Fixpoint str_membership (options_list : list record) : result unit :=
  match options_list with
  | [] => Ok ()
  | option :: rest =>
      v ← getitem option "value";
      match v with
      | JStr _ => str_membership rest
      | _ => Err TypeError
      end
  end.

(** [main_item[options_name] += [...]] *)
Definition extend_field (main_item : record) (options_name : string)
    (options_list : list record) : result record :=
  cur ← getitem main_item options_name;
  match cur with
  | JList arr =>
      vs ← new_values arr options_list;
      mret (<[options_name := JList (arr ++ vs)]> main_item)
  | JStr _ => _ ← str_membership options_list; Err TypeError
  | JNum _ =>
      match options_list with
      | [] => Err TypeError
      | option :: _ => _ ← getitem option "value"; Err TypeError
      end
  end.

(** The loop over [options_dicts] when a label matches. *)
Definition extend_links (main_item : record) (options_dicts : list option_dict)
    : result record :=
  foldM (λ item option,
           if decide (opt_list option ≠ [])
           then extend_field item (opt_name option) (opt_list option)
           else Ok item)
        main_item options_dicts.

(** [[option["value"] for option in options_list]] *)
Definition all_values (options_list : list record) : result (list json) :=
  mapM (λ option, getitem option "value") options_list.

(** The loop over [options_dicts] of the [else] branch. *)
Definition init_links (single_item : record) (options_dicts : list option_dict)
    : result record :=
  foldM (λ item option,
           if decide (opt_list option ≠ [])
           then vs ← all_values (opt_list option);
                mret (<[opt_name option := JList vs]> item)
           else Ok item)
        single_item options_dicts.

(** [for main_item in main_list]: [Some] is the list after the [break],
    [None] says that the loop ran to its end. *)
Fixpoint merge_into (single_item : record) (main_list : list record)
    (options_dicts : list option_dict) : result (option (list record)) :=
  match main_list with
  | [] => Ok None
  | main_item :: rest =>
      label_main ← getitem main_item "label";
      label_single ← getitem single_item "label";
      if decide (label_main = label_single) then
        main_item' ← extend_links main_item options_dicts;
        mret (Some (main_item' :: rest))
      else
        rest' ← merge_into single_item rest options_dicts;
        mret ((main_item ::.) <$> rest')
  end.

(** The body of [for single_item in single_list]. *)
Definition update_one (options_dicts : list option_dict)
    (main_list : list record) (single_item : record) : result (list record) :=
  found ← merge_into single_item main_list options_dicts;
  match found with
  | Some main_list' => Ok main_list'
  | None =>
      single_item' ←
        (if decide (options_dicts ≠ [])
         then init_links single_item options_dicts
         else Ok single_item);
      mret (main_list ++ [single_item'])
  end.

Definition update_options (single_list main_list : list record)
    (options_dicts : list option_dict) : result (list record) :=
  foldM (update_one options_dicts) main_list single_list.

(** ** [create_menu_options]

    The documents are those fetched for the item links of the catalog, in
    the order of the links. *)

Record menu_options : Type := {
  climateModelOptions : list record;
  scenarioOptions : list record;
  indicatorOptions : list record;
  hazardTypes : list record }.

Definition no_options : menu_options :=
  {| climateModelOptions := []; scenarioOptions := [];
     indicatorOptions := []; hazardTypes := [] |}.

(** The body of [for item in item_links], after the download. *)
Definition merge_document (acc : menu_options) (data : document)
    : result menu_options :=
  '(indicator_options_single, climate_model_options_single,
    scenario_options_single, hazard_types_single) ←
    get_menu_items_from_file data;
  hazard_types ←
    update_options hazard_types_single (hazardTypes acc)
      [ {| opt_name := "indicator_options";
           opt_list := indicator_options_single |} ];
  indicator_options ←
    update_options indicator_options_single (indicatorOptions acc)
      [ {| opt_name := "climate_model_options";
           opt_list := climate_model_options_single |};
        {| opt_name := "scenario_options";
           opt_list := scenario_options_single |} ];
  climate_model_options ←
    update_options climate_model_options_single (climateModelOptions acc)
      [ {| opt_name := "scenario_options";
           opt_list := scenario_options_single |} ];
  scenario_options ←
    update_options scenario_options_single (scenarioOptions acc) [];
  mret {| climateModelOptions := climate_model_options;
          scenarioOptions := scenario_options;
          indicatorOptions := indicator_options;
          hazardTypes := hazard_types |}.

Definition create_menu_options (documents : list document)
    : result menu_options :=
  foldM merge_document no_options documents.

(** ** Example documents *)

Definition ssp126_2030 : scenario :=
  {| scenario_id := "ssp126"; years := JList [JNum 2030] |}.

(** A document whose [gcm] parameter lists the same model twice. *)
Definition doc_repeated_gcm : document :=
  {| hazard_type := "ChronicHeat";
     params := [("gcm", ["A"; "A"])];
     scenarios := [ssp126_2030];
     display_name := "Heat {gcm}";
     indicator_id := "heat_{gcm}";
     path := "heat/{gcm}";
     indicator_model_id := "";
     indicator_model_gcm := "unknown" |}.

(** A document without parameters, and a later one with a [gcm] parameter
    whose indicator has the same label. *)
Definition doc_no_gcm : document :=
  {| hazard_type := "ChronicHeat";
     params := [];
     scenarios := [ssp126_2030];
     display_name := "Heat";
     indicator_id := "heat";
     path := "heat";
     indicator_model_id := "";
     indicator_model_gcm := "unknown" |}.

Definition doc_with_gcm : document :=
  {| hazard_type := "ChronicHeat";
     params := [("gcm", ["A"])];
     scenarios := [ {| scenario_id := "ssp126"; years := JList [JNum 2050] |} ];
     display_name := "Heat";
     indicator_id := "heat_{gcm}";
     path := "heat/{gcm}";
     indicator_model_id := "";
     indicator_model_gcm := "unknown" |}.

(** Two parameters of two values each, told apart by every template. *)
Definition doc_gcm_rcp : document :=
  {| hazard_type := "ChronicHeat";
     params := [("gcm", ["A"; "B"]); ("rcp", ["45"; "85"])];
     scenarios := [ssp126_2030];
     display_name := "Heat {gcm} {rcp}";
     indicator_id := "heat_{gcm}_{rcp}";
     path := "heat/{gcm}/{rcp}";
     indicator_model_id := "";
     indicator_model_gcm := "unknown" |}.

(** Two values of [gcm] that no template tells apart. *)
Definition doc_same_records : document :=
  {| hazard_type := "ChronicHeat";
     params := [("gcm", ["A"; "B"])];
     scenarios := [ssp126_2030];
     display_name := "Heat";
     indicator_id := "heat";
     path := "heat";
     indicator_model_id := "";
     indicator_model_gcm := "unknown" |}.

(** A value of [gcm] that holds a path separator. *)
Definition doc_slash : document :=
  {| hazard_type := "ChronicHeat";
     params := [("gcm", ["a/b"])];
     scenarios := [ssp126_2030];
     display_name := "Heat {gcm}";
     indicator_id := "x/{gcm}";
     path := "heat/{gcm}";
     indicator_model_id := "";
     indicator_model_gcm := "unknown" |}.

(** A placeholder [{x}] that no parameter resolves, in the display name
    and in the path. *)
Definition doc_unresolved : document :=
  {| hazard_type := "ChronicHeat";
     params := [("gcm", ["A"])];
     scenarios := [ssp126_2030];
     display_name := "Heat {x}";
     indicator_id := "heat_{gcm}";
     path := "heat/{gcm}/{x}";
     indicator_model_id := "";
     indicator_model_gcm := "unknown" |}.

Definition doc_unresolved_path : document :=
  {| hazard_type := "ChronicHeat";
     params := [("gcm", ["A"])];
     scenarios := [ssp126_2030];
     display_name := "Heat {gcm}";
     indicator_id := "heat_{gcm}";
     path := "heat/{gcm}/{x}";
     indicator_model_id := "";
     indicator_model_gcm := "unknown" |}.

(** An indicator with a model id and a model [gcm]. *)
Definition doc_model : document :=
  {| hazard_type := "ChronicHeat";
     params := [("gcm", ["CanESM5"])];
     scenarios := [ssp126_2030];
     display_name := "Heat {gcm}";
     indicator_id := "heat_{gcm}";
     path := "heat/{gcm}";
     indicator_model_id := "modelX";
     indicator_model_gcm := "CanESM5" |}.

(** A document with two scenario descriptors of one id. *)
Definition doc_two_years : document :=
  {| hazard_type := "ChronicHeat";
     params := [("gcm", ["A"])];
     scenarios :=
       [ ssp126_2030;
         {| scenario_id := "ssp126"; years := JList [JNum 2050] |} ];
     display_name := "Heat {gcm}";
     indicator_id := "heat_{gcm}";
     path := "heat/{gcm}";
     indicator_model_id := "";
     indicator_model_gcm := "unknown" |}.

(** ** The merge as the specification words it *)

(** The values of the records of a source list. *)
Definition value_list (sourceList : list record) : list json :=
  omap (λ r, r !! "value") sourceList.

(** The array held under [fieldName], empty when there is none. *)
Definition array_of (r : record) (fieldName : string) : list json :=
  match r !! fieldName with
  | Some (JList arr) => arr
  | _ => []
  end.

(** "append to the matching record's [fieldName] array every value from
    [sourceList] not already present in that array" *)
Definition spec_append (r : record) (linkSpec : option_dict) : record :=
  let arr := array_of r (opt_name linkSpec) in
  <[opt_name linkSpec :=
      JList (arr ++ filter (λ v, v ∉ arr) (value_list (opt_list linkSpec)))]> r.

(** "a new [fieldName] array containing all values from [sourceList]" *)
Definition spec_init (r : record) (linkSpec : option_dict) : record :=
  <[opt_name linkSpec := JList (value_list (opt_list linkSpec))]> r.

Definition same_label (incoming r : record) : Prop :=
  r !! "label" = incoming !! "label".

#[global] Instance same_label_dec incoming r : Decision (same_label incoming r).
Proof. unfold same_label. apply _. Defined.

(** One incoming record: the first record of [mainList] with its label is
    extended, or the record is appended with its arrays. *)
Definition spec_merge_one (linkSpecs : list option_dict)
    (mainList : list record) (incoming : record) : list record :=
  match list_find (same_label incoming) mainList with
  | Some (i, r) => <[i := foldl spec_append r linkSpecs]> mainList
  | None => mainList ++ [foldl spec_init incoming linkSpecs]
  end.

Definition spec_merge (singleList mainList : list record)
    (linkSpecs : list option_dict) : list record :=
  foldl (spec_merge_one linkSpecs) mainList singleList.

(** The link specifications whose source list is not empty. *)
Definition with_source (linkSpecs : list option_dict) : list option_dict :=
  filter (λ o, opt_list o ≠ []) linkSpecs.

(** Well-formed input of a merge: every record has a label, every source
    record a value, and every record of the accumulator holds an array
    under every link name that has a source. *)
Definition has_label (r : record) : Prop := is_Some (r !! "label").
Definition has_value (r : record) : Prop := is_Some (r !! "value").
Definition has_arrays (linkSpecs : list option_dict) (r : record) : Prop :=
  Forall (λ o, opt_list o ≠ [] → ∃ arr, r !! opt_name o = Some (JList arr))
         linkSpecs.

Definition sources_ok (linkSpecs : list option_dict) : Prop :=
  Forall (λ o, Forall has_value (opt_list o)) linkSpecs.

(** Example records: an indicator without link arrays, the same with its
    two arrays, a second record with its label, and a climate model. *)
Definition rec_heat : record :=
  {[ "label" := JStr "Heat"; "value" := JStr "heat"; "path" := JStr "heat" ]}.

Definition rec_heat_linked : record :=
  <["climate_model_options" := JList [JStr "A"]]>
    (<["scenario_options" := JList [JStr "ssp126"]]> rec_heat).

Definition rec_heat_other : record :=
  {[ "label" := JStr "Heat"; "value" := JStr "heat_B";
     "path" := JStr "heat/B" ]}.

Definition rec_model (gcm : string) : record :=
  {[ "value" := JStr gcm; "label" := JStr ("CMIP6: " +:+ gcm) ]}.

(** Merging by label alone, as if there were no link arrays: a record
    whose label is already there is dropped, any other is appended. *)
Definition merge_by_label (mainList singleList : list record) : list record :=
  foldl (λ acc s,
           if decide (s !! "label" ∈ (λ r : record, r !! "label") <$> acc)
           then acc else acc ++ [s])
        mainList singleList.

(** [r'] and [r] agree on every field that is no link array. *)
Definition same_outside (linkSpecs : list option_dict) (r' r : record) : Prop :=
  ∀ k, k ∉ opt_name <$> linkSpecs → r' !! k = r !! k.

(** ** Growth of the link arrays *)

(** Every array of [r] is a prefix of the array of [r'] under the same
    key. *)
Definition grows (r r' : record) : Prop :=
  ∀ k arr, r !! k = Some (JList arr) →
    ∃ ext, r' !! k = Some (JList (arr ++ ext)).

(** The records of [m] are still in [m'], at their places, and have
    grown. *)
Definition list_grows (m m' : list record) : Prop :=
  ∀ i r, m !! i = Some r → ∃ r', m' !! i = Some r' ∧ grows r r'.

Definition menu_grows (acc acc' : menu_options) : Prop :=
  list_grows (climateModelOptions acc) (climateModelOptions acc') ∧
  list_grows (scenarioOptions acc) (scenarioOptions acc') ∧
  list_grows (indicatorOptions acc) (indicatorOptions acc') ∧
  list_grows (hazardTypes acc) (hazardTypes acc').

Definition link_names : list string :=
  ["indicator_options"; "climate_model_options"; "scenario_options"].

(** No link array of [r] holds a value twice. *)
Definition links_NoDup (r : record) : Prop :=
  ∀ k arr, k ∈ link_names → r !! k = Some (JList arr) → NoDup arr.

(** The records of each source list have pairwise distinct values. *)
Definition distinct_sources (linkSpecs : list option_dict) : Prop :=
  Forall (λ o, NoDup (value_list (opt_list o))) linkSpecs.

Definition menu_links_NoDup (acc : menu_options) : Prop :=
  Forall links_NoDup (climateModelOptions acc) ∧
  Forall links_NoDup (scenarioOptions acc) ∧
  Forall links_NoDup (indicatorOptions acc) ∧
  Forall links_NoDup (hazardTypes acc).

(** The records of each source list of the document have pairwise distinct
    values. *)
Definition distinct_values (data : document) : Prop :=
  match get_menu_items_from_file data with
  | Ok (indicator_options, climate_model_options, scenario_options, _) =>
      NoDup (value_list indicator_options) ∧
      NoDup (value_list climate_model_options) ∧
      NoDup (value_list scenario_options)
  | Err _ => True
  end.

(** ** The parts of an indicator identifier *)

(** What [indicator_model_id] adds to the identifier. *)
Definition model_suffix (data : document) : string :=
  if decide (indicator_model_id data = "") then ""
  else "_" +:+ replace_char "/"%char "_"%char (indicator_model_id data).

(** What [indicator_model_gcm] adds to the identifier. *)
Definition gcm_suffix (data : document) : string :=
  if decide (indicator_model_gcm data = "unknown"
             ∨ indicator_model_gcm data = "{gcm}")
  then "" else "_" +:+ indicator_model_gcm data.

(** The identifier as the specification words it: the template is
    formatted first and the separators are replaced afterwards. *)
Definition spec_indicator_value (data : document)
    (param_dict : list (string * string)) : result string :=
  formatted ← format param_dict (indicator_id data);
  mret ((replace_char "/"%char "_"%char formatted +:+ model_suffix data)
          +:+ gcm_suffix data).

(** The record has none of the link arrays. *)
Definition no_links (r : record) : Prop :=
  ∀ k, k ∈ link_names → r !! k = None.

(** ** Placeholders *)

(** A character that may stand in the name of a plain replacement field. *)
Definition is_plain_char (c : ascii) : bool :=
  negb (bool_decide (c ∈ ["{"; "}"; ":"; "!"; "["; "."]%char)).

Fixpoint all_plain (name : string) : bool :=
  match name with
  | "" => true
  | String c name' => is_plain_char c && all_plain name'
  end.

(** The name of a keyword placeholder: plain characters, not all of them
    digits (so not empty). *)
Definition plain_name (name : string) : Prop :=
  all_plain name = true ∧ all_digits name = false.

(** ** Well-formed option lists *)

(** The labels of the records of a list, in order. *)
Definition labels (m : list record) : list (option json) :=
  (λ r : record, r !! "label") <$> m.

(** The record has a string label, a string value and no link array: the
    shape of a record that comes out of a document. *)
Definition fresh_record (r : record) : Prop :=
  (∃ l, r !! "label" = Some (JStr l)) ∧
  (∃ v, r !! "value" = Some (JStr v)) ∧
  no_links r.

(** Every record has a label and a value, and no label occurs twice. *)
Definition list_wf (m : list record) : Prop :=
  NoDup (labels m) ∧ Forall has_label m ∧ Forall has_value m.

Definition menu_wf (acc : menu_options) : Prop :=
  list_wf (climateModelOptions acc) ∧ list_wf (scenarioOptions acc) ∧
  list_wf (indicatorOptions acc) ∧ list_wf (hazardTypes acc).

(** The record holds an array under [name]. *)
Definition has_array (name : string) (r : record) : Prop :=
  ∃ arr, r !! name = Some (JList arr).

(** Every record of the accumulators holds the arrays that the merge of a
    later document extends. *)
Definition menu_linked (acc : menu_options) : Prop :=
  Forall (has_array "indicator_options") (hazardTypes acc) ∧
  Forall (λ r, has_array "climate_model_options" r
               ∧ has_array "scenario_options" r) (indicatorOptions acc) ∧
  Forall (has_array "scenario_options") (climateModelOptions acc).

(** The document expands without error and has at least one indicator, one
    climate model and one scenario. *)
Definition full_document (data : document) : Prop :=
  ∃ indicator_options climate_model_options scenario_options hazard_types,
    get_menu_items_from_file data =
      Ok (indicator_options, climate_model_options, scenario_options,
          hazard_types) ∧
    indicator_options ≠ [] ∧ climate_model_options ≠ [] ∧
    scenario_options ≠ [].

(** The same condition as a check that can be run on a document. *)
Definition is_full_document (data : document) : bool :=
  match get_menu_items_from_file data with
  | Ok (_ :: _, _ :: _, _ :: _, _) => true
  | _ => false
  end.

(** Documents with at least one indicator, climate model and scenario. *)
Definition doc_ssp245 : document :=
  {| hazard_type := "ChronicHeat";
     params := [("gcm", ["A"; "B"])];
     scenarios := [ {| scenario_id := "ssp245"; years := JList [JNum 2050] |};
                    ssp126_2030 ];
     display_name := "Heat {gcm}";
     indicator_id := "heat_{gcm}";
     path := "heat/{gcm}";
     indicator_model_id := "";
     indicator_model_gcm := "unknown" |}.

(** ** Links that are complete *)

(** Under the name of every link specification that has a source, the
    record holds an array with every value of that source. *)
Definition links_complete (linkSpecs : list option_dict) (r : record) : Prop :=
  Forall (λ o, opt_list o = [] ∨
               ∃ arr, r !! opt_name o = Some (JList arr) ∧
                      ∀ v, v ∈ value_list (opt_list o) → v ∈ arr)
         linkSpecs.

(** The first record of [m] with the label of [s] is reached over records
    that all have a label, and its links are complete. *)
Definition absorbed (linkSpecs : list option_dict) (m : list record)
    (s : record) : Prop :=
  ∃ i r, list_find (same_label s) m = Some (i, r) ∧
         Forall has_label (take i m) ∧ links_complete linkSpecs r.

(** ** Templates and labels *)

(** The template holds no brace. *)
Fixpoint no_braces (s : string) : bool :=
  match s with
  | "" => true
  | String c s' =>
      negb (bool_decide (c = "{"%char)) && negb (bool_decide (c = "}"%char))
      && no_braces s'
  end.

(** The string without its occurrences of the character [a]. *)
Fixpoint remove_char (a : ascii) (s : string) : string :=
  match s with
  | "" => ""
  | String c s' =>
      if decide (c = a) then remove_char a s' else String c (remove_char a s')
  end.

(** A document without parameters whose identifier still has a
    placeholder. *)
Definition doc_id_placeholder : document :=
  {| hazard_type := "ChronicHeat";
     params := [];
     scenarios := [ssp126_2030];
     display_name := "Heat {gcm}";
     indicator_id := "heat/{gcm}";
     path := "heat/{gcm}";
     indicator_model_id := "";
     indicator_model_gcm := "{gcm}" |}.

(** A parameter without values. *)
Definition doc_no_values : document :=
  {| hazard_type := "ChronicHeat";
     params := [("gcm", ["A"]); ("rcp", [])];
     scenarios := [ssp126_2030];
     display_name := "Heat {";
     indicator_id := "heat_{gcm}_{rcp}";
     path := "heat/{gcm}";
     indicator_model_id := "";
     indicator_model_gcm := "unknown" |}.

(** ** Unresolved placeholders *)

(** The locals [display_name] and [path] after the loop over the keys of
    one combination (lines 158 to 173). *)
Definition display_and_path (data : document) (values : list string)
    : result (option (string * string)) :=
  let param_dict := zip (params data).*1 values in
  foldM (assign_names data param_dict)
        (match param_dict with
         | [] => Some (display_name data, path data)
         | _ => None
         end)
        param_dict.*1.

(** No parameters, and a placeholder in the display name and in the
    path. *)
Definition doc_display_unformatted : document :=
  {| hazard_type := "ChronicHeat";
     params := [];
     scenarios := [ssp126_2030];
     display_name := "Heat {x}";
     indicator_id := "heat";
     path := "heat/{x}";
     indicator_model_id := "";
     indicator_model_gcm := "unknown" |}.

(** A placeholder [{x/y}] of the identifier that no parameter resolves. *)
Definition doc_unresolved_id : document :=
  {| hazard_type := "ChronicHeat";
     params := [("gcm", ["A"])];
     scenarios := [ssp126_2030];
     display_name := "Heat {gcm}";
     indicator_id := "heat/{gcm}/{x/y}";
     path := "heat/{gcm}";
     indicator_model_id := "";
     indicator_model_gcm := "unknown" |}.

(** Two combinations, a model id with a [/] and a model [gcm]. *)
Definition doc_models : document :=
  {| hazard_type := "ChronicHeat";
     params := [("gcm", ["A"; "B"])];
     scenarios := [ssp126_2030];
     display_name := "Heat {gcm}";
     indicator_id := "heat/{gcm}";
     path := "heat/{gcm}";
     indicator_model_id := "m/x";
     indicator_model_gcm := "CanESM5" |}.

Definition indicators_models : list record :=
  [ {[ "label" := JStr "Heat A"; "value" := JStr "heat_A_m_x_CanESM5";
       "path" := JStr "heat/A" ]};
    {[ "label" := JStr "Heat B"; "value" := JStr "heat_B_m_x_CanESM5";
       "path" := JStr "heat/B" ]} ].

(** ** Two documents merged in turn *)

(** The link specifications of an indicator: two climate models and no
    scenario. *)
Definition links_heat : list option_dict :=
  [ {| opt_name := "climate_model_options";
       opt_list := [rec_model "A"; rec_model "B"] |};
    {| opt_name := "scenario_options"; opt_list := [] |} ].

(** The accumulators after [doc_with_gcm], and after [doc_ssp245] has been
    merged into them. *)
Definition menu_with_gcm : menu_options :=
  {| climateModelOptions :=
       [ <["scenario_options" := JList [JStr "ssp126"]]> (rec_model "A") ];
     scenarioOptions :=
       [ {[ "label" := JStr "SSP1-2.6"; "value" := JStr "ssp126";
            "year_options" := JList [JNum 2050] ]} ];
     indicatorOptions :=
       [ <["climate_model_options" := JList [JStr "A"]]>
           (<["scenario_options" := JList [JStr "ssp126"]]>
              {[ "label" := JStr "Heat"; "value" := JStr "heat_A";
                 "path" := JStr "heat/A" ]}) ];
     hazardTypes :=
       [ {[ "label" := JStr "Chronic Heat"; "value" := JStr "ChronicHeat";
            "indicator_options" := JList [JStr "heat_A"] ]} ] |}.

Definition menu_with_gcm_ssp245 : menu_options :=
  {| climateModelOptions :=
       [ <["scenario_options" := JList [JStr "ssp126"; JStr "ssp245"]]>
           (rec_model "A");
         <["scenario_options" := JList [JStr "ssp245"; JStr "ssp126"]]>
           (rec_model "B") ];
     scenarioOptions :=
       [ {[ "label" := JStr "SSP1-2.6"; "value" := JStr "ssp126";
            "year_options" := JList [JNum 2050] ]};
         {[ "label" := JStr "SSP2-4.5"; "value" := JStr "ssp245";
            "year_options" := JList [JNum 2050] ]} ];
     indicatorOptions :=
       [ <["climate_model_options" := JList [JStr "A"]]>
           (<["scenario_options" := JList [JStr "ssp126"]]>
              {[ "label" := JStr "Heat"; "value" := JStr "heat_A";
                 "path" := JStr "heat/A" ]});
         <["climate_model_options" := JList [JStr "A"; JStr "B"]]>
           (<["scenario_options" := JList [JStr "ssp245"; JStr "ssp126"]]>
              {[ "label" := JStr "Heat A"; "value" := JStr "heat_A";
                 "path" := JStr "heat/A" ]});
         <["climate_model_options" := JList [JStr "A"; JStr "B"]]>
           (<["scenario_options" := JList [JStr "ssp245"; JStr "ssp126"]]>
              {[ "label" := JStr "Heat B"; "value" := JStr "heat_B";
                 "path" := JStr "heat/B" ]}) ];
     hazardTypes :=
       [ {[ "label" := JStr "Chronic Heat"; "value" := JStr "ChronicHeat";
            "indicator_options" := JList [JStr "heat_A"; JStr "heat_B"] ]} ] |}.

(** * Properties *)

(** ** The result monad *)

Lemma bind_Ok {A B} (m : result A) (f : A → result B) (b : B) :
  m ≫= f = Ok b ↔ ∃ a, m = Ok a ∧ f a = Ok b.
Proof.
  destruct m as [a|e]; simpl; split.
  - intros H. by exists a.
  - by intros (a' & [= ->] & H).
  - discriminate.
  - by intros (a' & [=] & _).
Qed.

Lemma fmap_Ok {A B} (f : A → B) (m : result A) (b : B) :
  f <$> m = Ok b ↔ ∃ a, m = Ok a ∧ b = f a.
Proof.
  destruct m as [a|e]; simpl; split.
  - intros [= <-]. by exists a.
  - by intros (a' & [= ->] & ->).
  - discriminate.
  - by intros (a' & [=] & _).
Qed.

(** Splits a hypothesis [m ≫= f = Ok b] into its two steps. *)
Tactic Notation "inv_bind" hyp(H) "as" simple_intropattern(a)
    simple_intropattern(Ha) :=
  apply bind_Ok in H as (a & Ha & H).

(** ** Strings *)

Lemma app_String (c : ascii) (s t : string) :
  String c s +:+ t = String c (s +:+ t).
Proof. reflexivity. Qed.

Lemma prefix_app (p s : string) :
  String.prefix p s = true ↔ ∃ rest, s = p +:+ rest.
Proof.
  revert s. induction p as [|c p IH]; intros s.
  - split; [intros _; by exists s|by destruct s].
  - destruct s as [|c' s]; simpl.
    { split; [done|]. intros [rest Hr]. by rewrite app_String in Hr. }
    destruct (ascii_dec c c') as [->|Hne].
    + rewrite IH. split; intros [rest Hr]; exists rest.
      * by rewrite Hr.
      * rewrite app_String in Hr. by injection Hr.
    + split; [done|]. intros [rest Hr]. rewrite app_String in Hr.
      injection Hr as -> _. done.
Qed.

Lemma length_app_str (s t : string) :
  String.length (s +:+ t) = String.length s + String.length t.
Proof. induction s as [|c s IH]; simpl; [done|by rewrite <- IH]. Qed.

(** ** The operations at work *)

Example hazard_type_label_ChronicHeat :
  hazard_type_label "ChronicHeat" = "Chronic Heat".
Proof. reflexivity. Qed.

Example str_replace_placeholder :
  str_replace "{gcm}" "" "Heat {gcm} ({rcp})" = "Heat  ({rcp})" ∧
  str_replace "aa" "b" "aaaaa" = "bba" ∧
  str_contains "gcm" "heat_{gcm}" = true ∧
  str_contains "rcp" "heat_{gcm}" = false.
Proof. repeat split; reflexivity. Qed.

Example format_fields :
  format [("gcm", "A")] "heat_{gcm}" = Ok "heat_A" ∧
  format [("gcm", "A")] "{{gcm}}_{gcm}" = Ok "{gcm}_A" ∧
  format [("gcm", "A")] "{rcp}" = Err (KeyError "rcp") ∧
  format [("gcm", "A")] "{0}" = Err IndexError ∧
  format [("gcm", "A")] "heat_{gcm" = Err ValueError ∧
  format_map [("gcm", "A")] "heat/{gcm}/{rcp}" = Ok "heat/A/{rcp}".
Proof. repeat split; reflexivity. Qed.

(** ** Scenario labels *)

Lemma scenario_label_ssp (a b c : ascii) :
  scenario_label ("ssp" +:+ String a (String b (String c ""))) =
  "SSP" +:+ String a ("-" +:+ String b ("." +:+ String c "")).
Proof. reflexivity. Qed.

Lemma scenario_label_rcp (rest : string) :
  scenario_label ("rcp" +:+ rest) = "RCP-" +:+ replace_char "p" "." rest.
Proof.
  unfold scenario_label.
  assert (String.prefix "ssp" ("rcp" +:+ rest) = false) as -> by reflexivity.
  assert (String.prefix "rcp" ("rcp" +:+ rest) = true) as ->
    by (apply prefix_app; eauto).
  reflexivity.
Qed.

Lemma scenario_label_other (id : string) :
  (∀ rest, id ≠ "rcp" +:+ rest) →
  (∀ a b c, id ≠ "ssp" +:+ String a (String b (String c ""))) →
  scenario_label id = id.
Proof.
  intros Hrcp Hssp. unfold scenario_label.
  destruct (String.prefix "ssp" id) eqn:Hp; simpl.
  - apply prefix_app in Hp as [rest ->].
    destruct (Nat.eqb _ _) eqn:Hlen.
    + apply Nat.eqb_eq in Hlen. exfalso.
      destruct rest as [|a [|b [|c [|d rest]]]]; try discriminate.
      by apply (Hssp a b c).
    + assert (String.prefix "rcp" ("ssp" +:+ rest) = false) as -> by reflexivity.
      reflexivity.
  - destruct (String.prefix "rcp" id) eqn:Hr; [|done].
    apply prefix_app in Hr as [rest ->]. by destruct (Hrcp rest).
Qed.

Lemma replace_char_spec (a b : ascii) (s : string) :
  String.length (replace_char a b s) = String.length s ∧
  ∀ n, String.get n (replace_char a b s) =
       (λ c, if decide (c = a) then b else c) <$> String.get n s.
Proof.
  induction s as [|c s [IHl IHg]]; simpl.
  - split; [done|]. by intros [].
  - split; [by rewrite IHl|]. intros [|n]; [done|apply IHg].
Qed.

(** C8. The scenario label: an id [ssp] followed by exactly three
    characters [a], [b], [c] becomes [SSP], [a], [-], [b], [.], [c]; an id
    [rcp] followed by any suffix becomes [RCP-] and the suffix in which
    every [p] is a [.] (same length, every other character kept); any other
    id is its own label. So [ssp126] gives [SSP1-2.6], [rcp4p5] gives
    [RCP-4.5], [rcp45] gives [RCP-45] and [historical] stays. *)
Theorem scenario_label_correct :
  (∀ a b c : ascii,
     scenario_label ("ssp" +:+ String a (String b (String c ""))) =
     "SSP" +:+ String a ("-" +:+ String b ("." +:+ String c ""))) ∧
  (∀ rest : string,
     ∃ suffix, scenario_label ("rcp" +:+ rest) = "RCP-" +:+ suffix ∧
       String.length suffix = String.length rest ∧
       ∀ n, String.get n suffix =
            (λ c, if decide (c = "p"%char) then "."%char else c)
              <$> String.get n rest) ∧
  (∀ id : string,
     (∀ rest, id ≠ "rcp" +:+ rest) →
     (∀ a b c, id ≠ "ssp" +:+ String a (String b (String c ""))) →
     scenario_label id = id) ∧
  scenario_label "ssp126" = "SSP1-2.6" ∧
  scenario_label "rcp4p5" = "RCP-4.5" ∧
  scenario_label "rcp45" = "RCP-45" ∧
  scenario_label "historical" = "historical".
Proof.
  split; [exact scenario_label_ssp|].
  split.
  { intros rest. exists (replace_char "p" "." rest).
    split; [apply scenario_label_rcp|apply replace_char_spec]. }
  split; [exact scenario_label_other|].
  repeat split; reflexivity.
Qed.

Lemma scenario_label_correct_witness :
  scenario_label "ssp1" = "ssp1".
Proof.
  apply (proj1 (proj2 (proj2 scenario_label_correct))).
  - intros rest H. discriminate H.
  - intros a b c H. discriminate H.
Defined.

(** The label of [rcp45] is not the [RCP-4.5] of the specification's
    example: the suffix [45] holds no [p]. *)
Lemma scenario_label_rcp45 :
  scenario_label "rcp45" = "RCP-45" ∧ scenario_label "rcp45" ≠ "RCP-4.5".
Proof. split; [reflexivity|discriminate]. Qed.

(** ** [dedupe_dict] *)

Section dedupe_facts.
Context {A : Type} `{EqDecision A}.
Implicit Types (l u : list A) (x : A).

Lemma dedupe_dict_snoc l x :
  dedupe_dict (l ++ [x]) = dedupe_step (dedupe_dict l) x.
Proof. unfold dedupe_dict. by rewrite foldl_app. Qed.

Lemma elem_of_dedupe_dict l x : x ∈ dedupe_dict l ↔ x ∈ l.
Proof.
  induction l as [|y l IH] using rev_ind; [done|].
  rewrite dedupe_dict_snoc. unfold dedupe_step.
  case_decide as Hy; rewrite ?elem_of_app, ?list_elem_of_singleton, IH.
  - split; [tauto|]. intros [?| ->]; [tauto|by apply IH].
  - done.
Qed.

Lemma NoDup_dedupe_dict l : NoDup (dedupe_dict l).
Proof.
  induction l as [|y l IH] using rev_ind; [constructor|].
  rewrite dedupe_dict_snoc. unfold dedupe_step.
  case_decide as Hy; [done|].
  apply NoDup_app. split_and!; [done| |apply NoDup_singleton].
  intros x Hx ->%list_elem_of_singleton. done.
Qed.

Lemma dedupe_dict_sublist l : dedupe_dict l `sublist_of` l.
Proof.
  induction l as [|y l IH] using rev_ind; [done|].
  rewrite dedupe_dict_snoc. unfold dedupe_step. case_decide.
  - by apply sublist_inserts_r.
  - by apply sublist_app.
Qed.

Lemma dedupe_dict_NoDup_id u : NoDup u → dedupe_dict u = u.
Proof.
  induction u as [|y u IH] using rev_ind; [done|].
  intros [Hu [Hy _]]%NoDup_app.
  rewrite dedupe_dict_snoc, IH by done. unfold dedupe_step.
  case_decide as Hin; [|done].
  destruct (Hy y Hin). by apply list_elem_of_singleton.
Qed.

Lemma dedupe_dict_last l x :
  dedupe_dict (l ++ [x]) =
  if decide (x ∈ l) then dedupe_dict l else dedupe_dict l ++ [x].
Proof.
  rewrite dedupe_dict_snoc. unfold dedupe_step.
  destruct (decide (x ∈ l)) as [Hin|Hin]; case_decide as Hd; try done.
  - destruct Hd. by apply elem_of_dedupe_dict.
  - destruct Hin. by apply elem_of_dedupe_dict.
Qed.

Lemma dedupe_dict_cons l x :
  dedupe_dict (x :: l) = x :: filter (λ y, y ≠ x) (dedupe_dict l).
Proof.
  induction l as [|y l IH] using rev_ind; [done|].
  change (x :: l ++ [y]) with ((x :: l) ++ [y]).
  rewrite !dedupe_dict_last, IH.
  destruct (decide (y = x)) as [->|Hne].
  - rewrite decide_True by left.
    case_decide.
    + done.
    + rewrite filter_app, filter_cons_False, filter_nil, app_nil_r; [done|].
      by intros ?.
  - destruct (decide (y ∈ l)) as [Hin|Hin].
    + by rewrite decide_True by (by right).
    + rewrite decide_False by (intros [?|?]%elem_of_cons; done).
      by rewrite filter_app, filter_cons_True.
Qed.
End dedupe_facts.

(** C9. [dedupe_dict] keeps the records in first-seen order and drops
    exactly those equal to an earlier one: the last record of a list is
    dropped if and only if it occurs before, the first one is always kept
    and its later copies go; the result is a sublist of the input with the
    same elements and no two equal ones, and deduplicating twice changes
    nothing. Equality of records is equality of all their fields. *)
Theorem dedupe_dict_correct (L : list record) :
  (∀ x, dedupe_dict (L ++ [x]) =
        if decide (x ∈ L) then dedupe_dict L else dedupe_dict L ++ [x]) ∧
  (∀ x, dedupe_dict (x :: L) = x :: filter (λ y, y ≠ x) (dedupe_dict L)) ∧
  dedupe_dict L `sublist_of` L ∧
  (∀ x, x ∈ dedupe_dict L ↔ x ∈ L) ∧
  NoDup (dedupe_dict L) ∧
  dedupe_dict (dedupe_dict L) = dedupe_dict L.
Proof.
  split_and!.
  - apply dedupe_dict_last.
  - apply dedupe_dict_cons.
  - apply dedupe_dict_sublist.
  - intros x. apply elem_of_dedupe_dict.
  - apply NoDup_dedupe_dict.
  - apply dedupe_dict_NoDup_id, NoDup_dedupe_dict.
Qed.

(** ** [update_options] and the worded merge *)

Lemma foldM_app {A B} (f : B → A → result B) (b : B) (l1 l2 : list A) :
  foldM f b (l1 ++ l2) = foldM f b l1 ≫= λ b', foldM f b' l2.
Proof.
  revert b. induction l1 as [|x l1 IH]; intros b; simpl; [done|].
  destruct (f b x); simpl; [apply IH|done].
Qed.

Lemma getitem_Ok (d : record) (key : string) (v : json) :
  getitem d key = Ok v ↔ d !! key = Some v.
Proof. unfold getitem. destruct (d !! key); naive_solver. Qed.

Lemma new_values_Ok arr options_list vs :
  new_values arr options_list = Ok vs →
  Forall has_value options_list ∧
  vs = filter (λ v, v ∉ arr) (value_list options_list).
Proof.
  revert vs. induction options_list as [|o rest IH]; intros vs H; simpl in H.
  - injection H as <-. by split.
  - inv_bind H as v Hv. inv_bind H as vs' Hvs. injection H as <-.
    apply getitem_Ok in Hv. destruct (IH _ Hvs) as [Hf ->].
    split; [constructor; [by eexists|done]|].
    unfold value_list; simpl. rewrite Hv; simpl.
    case_decide.
    + by rewrite filter_cons_False by (by intros ?).
    + by rewrite filter_cons_True.
Qed.

Lemma new_values_total arr options_list :
  Forall has_value options_list → is_Ok (new_values arr options_list).
Proof.
  induction 1 as [|o rest [v Hv] _ [vs IH]]; simpl; [by eexists|].
  unfold getitem. rewrite Hv; simpl. rewrite IH; simpl. by eexists.
Qed.

Lemma mapM_cons {A B} (f : A → result B) (x : A) (l : list A) :
  mapM f (x :: l) = y ← f x; k ← mapM f l; mret (y :: k).
Proof. reflexivity. Qed.

Lemma all_values_Ok options_list vs :
  all_values options_list = Ok vs →
  Forall has_value options_list ∧ vs = value_list options_list.
Proof.
  revert vs. unfold all_values.
  induction options_list as [|o rest IH]; intros vs H; simpl in H.
  - injection H as <-. by split.
  - inv_bind H as v Hv. inv_bind H as vs' Hvs. injection H as <-.
    apply getitem_Ok in Hv. destruct (IH _ Hvs) as [Hf ->].
    split; [constructor; [by eexists|done]|].
    unfold value_list; simpl. by rewrite Hv.
Qed.

Lemma all_values_total options_list :
  Forall has_value options_list → is_Ok (all_values options_list).
Proof.
  unfold all_values.
  induction 1 as [|o rest [v Hv] _ [vs IH]]; [by eexists|].
  rewrite mapM_cons, IH. unfold getitem. rewrite Hv. by eexists.
Qed.

Lemma extend_field_Ok r options_name options_list r' :
  extend_field r options_name options_list = Ok r' →
  Forall has_value options_list ∧
  (∃ arr, r !! options_name = Some (JList arr)) ∧
  r' = spec_append r {| opt_name := options_name; opt_list := options_list |}.
Proof.
  unfold extend_field. intros H. inv_bind H as cur Hcur.
  apply getitem_Ok in Hcur. destruct cur as [s|n|arr].
  - inv_bind H as u Hu. discriminate.
  - destruct options_list; [discriminate|]. inv_bind H as u Hu. discriminate.
  - inv_bind H as vs Hvs. injection H as <-.
    apply new_values_Ok in Hvs as [Hf ->].
    split_and!; [done|by eexists|].
    unfold spec_append, array_of; simpl. by rewrite Hcur.
Qed.

Lemma extend_field_total r options_name options_list arr :
  Forall has_value options_list →
  r !! options_name = Some (JList arr) →
  is_Ok (extend_field r options_name options_list).
Proof.
  intros Hf Hr. unfold extend_field, getitem. rewrite Hr; simpl.
  destruct (new_values_total arr _ Hf) as [vs ->]. by eexists.
Qed.

Lemma with_source_cons o os :
  with_source (o :: os) =
  if decide (opt_list o ≠ []) then o :: with_source os else with_source os.
Proof. unfold with_source. rewrite filter_cons. by repeat case_decide. Qed.

Lemma extend_links_Ok r options_dicts r' :
  extend_links r options_dicts = Ok r' →
  r' = foldl spec_append r (with_source options_dicts).
Proof.
  unfold extend_links. revert r.
  induction options_dicts as [|o os IH]; intros r H; simpl in H.
  - by injection H as <-.
  - inv_bind H as r1 Hr1. rewrite with_source_cons. case_decide as Hne.
    + apply extend_field_Ok in Hr1 as (_ & _ & ->). simpl.
      destruct o. by apply IH.
    + injection Hr1 as <-. by apply IH.
Qed.

Lemma init_links_Ok s options_dicts s' :
  init_links s options_dicts = Ok s' →
  s' = foldl spec_init s (with_source options_dicts).
Proof.
  unfold init_links. revert s.
  induction options_dicts as [|o os IH]; intros s H; simpl in H.
  - by injection H as <-.
  - inv_bind H as s1 Hs1. rewrite with_source_cons. case_decide as Hne.
    + inv_bind Hs1 as vs Hvs. injection Hs1 as <-.
      apply all_values_Ok in Hvs as [_ ->]. simpl. by apply IH.
    + injection Hs1 as <-. by apply IH.
Qed.

Lemma list_find_cons_same {A} (P : A → Prop) `{∀ x, Decision (P x)} x l :
  list_find P (x :: l) =
  if decide (P x) then Some (0, x) else prod_map S id <$> list_find P l.
Proof. reflexivity. Qed.

Lemma merge_into_Ok s main_list options_dicts found :
  merge_into s main_list options_dicts = Ok found →
  match found with
  | Some main_list' =>
      ∃ i r, list_find (same_label s) main_list = Some (i, r) ∧
        main_list' =
        <[i := foldl spec_append r (with_source options_dicts)]> main_list
  | None => list_find (same_label s) main_list = None
  end.
Proof.
  revert found. induction main_list as [|r rest IH]; intros found H; simpl in H.
  - by injection H as <-.
  - inv_bind H as lm Hlm. inv_bind H as ls Hls.
    apply getitem_Ok in Hlm, Hls.
    rewrite list_find_cons_same.
    assert (same_label s r ↔ lm = ls) as Hsame.
    { unfold same_label. rewrite Hlm, Hls. naive_solver. }
    case_decide as Heq.
    + inv_bind H as r1 Hr1. injection H as <-.
      rewrite decide_True by (by apply Hsame).
      exists 0, r. split; [done|]. simpl. f_equal.
      by apply extend_links_Ok.
    + inv_bind H as found' Hf. injection H as <-.
      rewrite decide_False by (by rewrite Hsame).
      specialize (IH _ Hf). destruct found' as [rest'|]; simpl.
      * destruct IH as (i & r0 & -> & ->). by exists (S i), r0.
      * by rewrite IH.
Qed.

Lemma update_one_Ok options_dicts main_list s main_list' :
  update_one options_dicts main_list s = Ok main_list' →
  main_list' = spec_merge_one (with_source options_dicts) main_list s.
Proof.
  unfold update_one, spec_merge_one. intros H. inv_bind H as found Hf.
  apply merge_into_Ok in Hf. destruct found as [m'|].
  - destruct Hf as (i & r & -> & ->). by injection H as <-.
  - rewrite Hf. inv_bind H as s' Hs'. injection H as <-. f_equal. f_equal.
    case_decide as Hne.
    + by apply init_links_Ok.
    + injection Hs' as <-. by subst.
Qed.

Lemma update_options_Ok single_list main_list options_dicts main_list' :
  update_options single_list main_list options_dicts = Ok main_list' →
  main_list' = spec_merge single_list main_list (with_source options_dicts).
Proof.
  unfold update_options, spec_merge. revert main_list.
  induction single_list as [|s rest IH]; intros main_list H; simpl in H.
  - by injection H as <-.
  - inv_bind H as m1 Hm1. apply update_one_Ok in Hm1 as ->. by apply IH.
Qed.

(** *** Well-formed input makes the merge return *)

Lemma has_label_insert r k v : has_label r → has_label (<[k := v]> r).
Proof.
  unfold has_label. rewrite lookup_insert_is_Some.
  destruct (decide (k = "label")); auto.
Qed.

Lemma has_label_foldl_append r l :
  has_label r → has_label (foldl spec_append r l).
Proof.
  revert r. induction l as [|o l IH]; intros r Hr; simpl; [done|].
  by apply IH, has_label_insert.
Qed.

Lemma has_label_foldl_init r l :
  has_label r → has_label (foldl spec_init r l).
Proof.
  revert r. induction l as [|o l IH]; intros r Hr; simpl; [done|].
  by apply IH, has_label_insert.
Qed.

Lemma has_arrays_insert os r k arr :
  has_arrays os r → has_arrays os (<[k := JList arr]> r).
Proof.
  unfold has_arrays. intros H. eapply Forall_impl; [exact H|].
  simpl. intros o Ho Hne.
  destruct (decide (k = opt_name o)) as [->|Hk].
  - rewrite lookup_insert_eq. by eexists.
  - rewrite lookup_insert_ne by done. by apply Ho.
Qed.

Lemma has_arrays_foldl_append os r l :
  has_arrays os r → has_arrays os (foldl spec_append r l).
Proof.
  revert r. induction l as [|o l IH]; intros r Hr; simpl; [done|].
  by apply IH, has_arrays_insert.
Qed.

Lemma array_foldl_init r l k arr :
  r !! k = Some (JList arr) →
  ∃ arr', foldl spec_init r l !! k = Some (JList arr').
Proof.
  revert r arr. induction l as [|o l IH]; intros r arr Hr; simpl; [by eexists|].
  unfold spec_init at 2.
  destruct (decide (opt_name o = k)) as [<-|Hk].
  - eapply IH. apply lookup_insert_eq.
  - eapply IH. by rewrite lookup_insert_ne.
Qed.

Lemma has_arrays_foldl_init os r :
  has_arrays os (foldl spec_init r (with_source os)).
Proof.
  unfold has_arrays. apply Forall_forall. intros o Ho Hne.
  assert (o ∈ with_source os) as Hin by (by apply list_elem_of_filter).
  clear Ho Hne. revert r.
  induction (with_source os) as [|o' l IH]; intros r; [by inversion Hin|].
  apply elem_of_cons in Hin as [->|Hin]; simpl.
  - eapply array_foldl_init. apply lookup_insert_eq.
  - by apply IH.
Qed.

Lemma extend_links_total r options_dicts :
  sources_ok options_dicts → has_arrays options_dicts r →
  is_Ok (extend_links r options_dicts).
Proof.
  unfold extend_links. intros Hsrc. revert r.
  induction Hsrc as [|o os Ho Hos IH]; intros r Hr; [by eexists|].
  apply Forall_cons in Hr as [Hr Hrs]. simpl. case_decide as Hne.
  - destruct (Hr Hne) as [arr Harr].
    destruct (extend_field_total r _ _ arr Ho Harr) as [r1 Hr1].
    rewrite Hr1. simpl. apply IH.
    apply extend_field_Ok in Hr1 as (_ & _ & ->).
    by apply has_arrays_insert.
  - simpl. by apply IH.
Qed.

Lemma init_links_total s options_dicts :
  sources_ok options_dicts → is_Ok (init_links s options_dicts).
Proof.
  unfold init_links. intros Hsrc. revert s.
  induction Hsrc as [|o os Ho Hos IH]; intros s; [by eexists|].
  simpl. case_decide as Hne; [|apply IH].
  destruct (all_values_total _ Ho) as [vs ->]. simpl. apply IH.
Qed.

Lemma merge_into_total s main_list options_dicts :
  has_label s → Forall has_label main_list →
  Forall (has_arrays options_dicts) main_list → sources_ok options_dicts →
  is_Ok (merge_into s main_list options_dicts).
Proof.
  intros [ls Hls] Hlab Harr Hsrc.
  induction main_list as [|r rest IH]; [by eexists|].
  apply Forall_cons in Hlab as [[lr Hlr] Hlab].
  apply Forall_cons in Harr as [Hr Harr].
  simpl. unfold getitem. rewrite Hlr, Hls. simpl. case_decide.
  - destruct (extend_links_total r _ Hsrc Hr) as [r' ->]. by eexists.
  - destruct (IH Hlab Harr) as [found ->]. by eexists.
Qed.

Lemma update_one_total options_dicts main_list s :
  has_label s → Forall has_label main_list →
  Forall (has_arrays options_dicts) main_list → sources_ok options_dicts →
  is_Ok (update_one options_dicts main_list s).
Proof.
  intros Hs Hlab Harr Hsrc. unfold update_one.
  destruct (merge_into_total s _ _ Hs Hlab Harr Hsrc) as [[m'|] ->]; simpl.
  - by eexists.
  - case_decide; simpl; [|by eexists].
    destruct (init_links_total s _ Hsrc) as [s' ->]. by eexists.
Qed.

Lemma spec_merge_one_wf options_dicts main_list s :
  has_label s → Forall has_label main_list →
  Forall (has_arrays options_dicts) main_list →
  Forall has_label (spec_merge_one (with_source options_dicts) main_list s) ∧
  Forall (has_arrays options_dicts)
         (spec_merge_one (with_source options_dicts) main_list s).
Proof.
  intros Hs Hlab Harr. unfold spec_merge_one.
  destruct (list_find _ _) as [[i r]|] eqn:Hfind.
  - apply list_find_Some in Hfind as (Hi & _ & _).
    apply list_elem_of_lookup_2 in Hi.
    split; apply Forall_insert; try done.
    + apply has_label_foldl_append. by eapply (proj1 (Forall_forall _ _)).
    + apply has_arrays_foldl_append.
      by eapply (proj1 (Forall_forall _ _) Harr).
  - split; apply Forall_app; (split; [done|]); apply Forall_singleton.
    + by apply has_label_foldl_init.
    + apply has_arrays_foldl_init.
Qed.

Lemma update_options_total single_list main_list options_dicts :
  Forall has_label single_list → Forall has_label main_list →
  Forall (has_arrays options_dicts) main_list → sources_ok options_dicts →
  update_options single_list main_list options_dicts =
  Ok (spec_merge single_list main_list (with_source options_dicts)).
Proof.
  intros Hsingle. revert main_list.
  induction Hsingle as [|s rest Hs Hrest IH]; intros main_list Hlab Harr Hsrc;
    [done|].
  unfold update_options, spec_merge. simpl.
  destruct (update_one_total _ _ _ Hs Hlab Harr Hsrc) as [m1 Hm1].
  rewrite Hm1. simpl. apply update_one_Ok in Hm1 as ->.
  destruct (spec_merge_one_wf options_dicts main_list s) as [? ?]; try done.
  by apply IH.
Qed.

(** C1. Whenever [update_options] returns, its result is the merge of the
    specification run with the link specifications whose source list is
    not empty: a record whose label is in the accumulator extends the
    arrays of the first record with that label, by the source values they
    lack, in source order and at the end, and touches no other field; any
    other record is appended with one array of all source values per link
    specification. A link specification with an empty source list does
    nothing: no array is created for it. The call does return this merge
    when every record has a label, every source record a value and every
    accumulator record an array under each link name with a source. *)
Theorem update_options_merges
    (single_list main_list : list record) (options_dicts : list option_dict) :
  (∀ main_list',
     update_options single_list main_list options_dicts = Ok main_list' →
     main_list' = spec_merge single_list main_list (with_source options_dicts)) ∧
  (Forall has_label single_list → Forall has_label main_list →
   sources_ok options_dicts → Forall (has_arrays options_dicts) main_list →
   update_options single_list main_list options_dicts =
   Ok (spec_merge single_list main_list (with_source options_dicts))).
Proof.
  split.
  - intros main_list'. apply update_options_Ok.
  - intros Hs Hm Hsrc Harr. by apply update_options_total.
Qed.

Lemma update_options_merges_witness :
  update_options [rec_heat_other] [rec_heat_linked]
    [ {| opt_name := "climate_model_options";
         opt_list := [rec_model "A"; rec_model "B"] |};
      {| opt_name := "scenario_options"; opt_list := [] |} ] =
  Ok [ <["climate_model_options" := JList [JStr "A"; JStr "B"]]>
         rec_heat_linked ].
Proof.
  set (os := [ {| opt_name := "climate_model_options";
         opt_list := [rec_model "A"; rec_model "B"] |};
      {| opt_name := "scenario_options"; opt_list := [] |} ]).
  transitivity (Ok (spec_merge [rec_heat_other] [rec_heat_linked] (with_source os))).
  - apply (proj2 (update_options_merges [rec_heat_other] [rec_heat_linked] os)).
    + repeat constructor. by eexists.
    + repeat constructor. by eexists.
    + repeat constructor; by eexists.
    + repeat constructor; intros _; by eexists.
  - vm_compute. reflexivity.
Defined.

(** With an empty source list the code creates no array on a new record,
    where the merge of the specification creates an empty one. *)
Lemma update_options_empty_source :
  update_options [rec_heat] []
    [ {| opt_name := "climate_model_options"; opt_list := [] |} ] =
  Ok [rec_heat] ∧
  spec_merge [rec_heat] []
    [ {| opt_name := "climate_model_options"; opt_list := [] |} ] =
  [ <["climate_model_options" := JList []]> rec_heat ] ∧
  update_options [rec_heat] []
    [ {| opt_name := "climate_model_options"; opt_list := [] |} ] ≠
  Ok (spec_merge [rec_heat] []
        [ {| opt_name := "climate_model_options"; opt_list := [] |} ]).
Proof.
  split_and!.
  - vm_compute. reflexivity.
  - vm_compute. reflexivity.
  - vm_compute. discriminate.
Qed.

(** C10. A record appended while the source list of a link name is empty
    holds no array under that name; a later call that matches it by label
    with a source list for that name fails with the missing key. Two
    documents show it: an indicator first seen without a [gcm] parameter and
    seen again, under the same label, in a document that has one. *)
Theorem update_options_missing_array :
  (∀ (single_item later_item : record) (options_name : string)
     (options_list : list record) (label : json),
     single_item !! "label" = Some label →
     later_item !! "label" = Some label →
     single_item !! options_name = None →
     options_list ≠ [] →
     update_options [single_item] []
       [ {| opt_name := options_name; opt_list := [] |} ] = Ok [single_item] ∧
     update_options [later_item] [single_item]
       [ {| opt_name := options_name; opt_list := options_list |} ] =
     Err (KeyError options_name)) ∧
  is_Ok (create_menu_options [doc_no_gcm]) ∧
  create_menu_options [doc_no_gcm; doc_with_gcm] =
  Err (KeyError "climate_model_options").
Proof.
  split_and!.
  - intros s b name src l Hs Hb Hname Hsrc. split.
    + reflexivity.
    + unfold update_options, update_one; simpl.
      unfold getitem at 1 2. rewrite Hs, Hb; simpl.
      rewrite decide_True by done. unfold extend_links; simpl.
      rewrite decide_True by done.
      unfold extend_field, getitem. by rewrite Hname.
  - eexists. vm_compute. reflexivity.
  - vm_compute. reflexivity.
Qed.

Lemma update_options_missing_array_witness :
  update_options [rec_heat_other] [rec_heat]
    [ {| opt_name := "climate_model_options"; opt_list := [rec_model "A"] |} ] =
  Err (KeyError "climate_model_options").
Proof.
  apply (proj1 update_options_missing_array rec_heat rec_heat_other
           "climate_model_options" [rec_model "A"] (JStr "Heat")).
  - reflexivity.
  - reflexivity.
  - reflexivity.
  - discriminate.
Defined.

(** ** Identity by label *)

Lemma same_outside_refl os r : same_outside os r r.
Proof. by intros k _. Qed.

Lemma same_outside_trans os r1 r2 r3 :
  same_outside os r1 r2 → same_outside os r2 r3 → same_outside os r1 r3.
Proof. intros H12 H23 k Hk. by rewrite H12, H23. Qed.

Lemma with_source_names os o :
  o ∈ with_source os → opt_name o ∈ opt_name <$> os.
Proof.
  intros [_ Ho]%list_elem_of_filter. apply list_elem_of_fmap. by exists o.
Qed.

Lemma same_outside_foldl_append os l r :
  (∀ o, o ∈ l → opt_name o ∈ opt_name <$> os) →
  same_outside os (foldl spec_append r l) r.
Proof.
  revert r. induction l as [|o l IH]; intros r Hl; simpl.
  - apply same_outside_refl.
  - eapply same_outside_trans; [apply IH; intros; apply Hl; by right|].
    intros k Hk. unfold spec_append. apply lookup_insert_ne.
    intros <-. apply Hk, Hl. by left.
Qed.

Lemma same_outside_foldl_init os l r :
  (∀ o, o ∈ l → opt_name o ∈ opt_name <$> os) →
  same_outside os (foldl spec_init r l) r.
Proof.
  revert r. induction l as [|o l IH]; intros r Hl; simpl.
  - apply same_outside_refl.
  - eapply same_outside_trans; [apply IH; intros; apply Hl; by right|].
    intros k Hk. unfold spec_init. apply lookup_insert_ne.
    intros <-. apply Hk, Hl. by left.
Qed.

Lemma same_outside_labels os (m base : list record) :
  "label" ∉ opt_name <$> os →
  Forall2 (same_outside os) m base →
  (λ r : record, r !! "label") <$> m = (λ r : record, r !! "label") <$> base.
Proof.
  intros Hlab. induction 1 as [|r b m base Hrb _ IH]; [done|].
  rewrite !fmap_cons. by rewrite IH, (Hrb _ Hlab).
Qed.

Lemma spec_merge_one_by_label os m base s :
  "label" ∉ opt_name <$> os →
  Forall2 (same_outside os) m base →
  Forall2 (same_outside os)
    (spec_merge_one (with_source os) m s)
    (if decide (s !! "label" ∈ (λ r : record, r !! "label") <$> base)
     then base else base ++ [s]).
Proof.
  intros Hlab Hm. rewrite <- (same_outside_labels os m base Hlab Hm).
  unfold spec_merge_one.
  destruct (list_find _ _) as [[i r]|] eqn:Hfind.
  - apply list_find_Some in Hfind as (Hi & Hsame & _).
    rewrite decide_True.
    2:{ apply list_elem_of_fmap. exists r. split; [done|].
        by apply list_elem_of_lookup_2 in Hi. }
    destruct (Forall2_lookup_l _ _ _ _ _ Hm Hi) as (b & Hb & Hrb).
    rewrite <- (list_insert_id base i b Hb).
    apply Forall2_insert; [done|].
    eapply same_outside_trans; [|exact Hrb].
    apply same_outside_foldl_append. apply with_source_names.
  - apply list_find_None in Hfind.
    rewrite decide_False.
    2:{ intros (r & Hr & Hin)%list_elem_of_fmap.
        by apply (proj1 (Forall_forall _ _) Hfind r Hin). }
    apply Forall2_app; [done|]. constructor; [|constructor].
    apply same_outside_foldl_init. apply with_source_names.
Qed.

Lemma spec_merge_by_label os single m base :
  "label" ∉ opt_name <$> os →
  Forall2 (same_outside os) m base →
  Forall2 (same_outside os)
    (spec_merge single m (with_source os)) (merge_by_label base single).
Proof.
  intros Hlab. unfold spec_merge, merge_by_label. revert m base.
  induction single as [|s rest IH]; intros m base Hm; simpl; [done|].
  apply IH. by apply spec_merge_one_by_label.
Qed.

(** C5. A merge returns when every record has a label, every source
    record a value and every accumulator record an array under each link
    name that has a source. A merge that returns keeps, outside the link
    arrays, exactly the records of a merge by label: the accumulator
    records stay, at their places and with their fields, an incoming record
    whose label is already there adds no record, and any other incoming
    record is appended with its own fields. So of two records with one
    label the first-seen gives the value and every other field that is no
    link array, and two records with different labels stay two records. *)
Theorem merge_identity_by_label
    (single_list main_list : list record) (options_dicts : list option_dict) :
  "label" ∉ opt_name <$> options_dicts →
  (Forall has_label single_list → Forall has_label main_list →
   Forall (has_arrays options_dicts) main_list → sources_ok options_dicts →
   is_Ok (update_options single_list main_list options_dicts)) ∧
  ∀ main_list',
    update_options single_list main_list options_dicts = Ok main_list' →
    Forall2 (same_outside options_dicts)
            main_list' (merge_by_label main_list single_list) ∧
    ∀ first incoming, main_list = [first] → single_list = [incoming] →
      (first !! "label" = incoming !! "label" →
       ∃ r, main_list' = [r] ∧ same_outside options_dicts r first) ∧
      (first !! "label" ≠ incoming !! "label" →
       ∃ r1 r2, main_list' = [r1; r2] ∧
         same_outside options_dicts r1 first ∧
         same_outside options_dicts r2 incoming).
Proof.
  intros Hlab. split.
  { intros Hs Hm Ha Hsrc. eexists. by apply update_options_total. }
  intros main_list' Hok. apply update_options_Ok in Hok as ->.
  assert (Forall2 (same_outside options_dicts)
            (spec_merge single_list main_list (with_source options_dicts))
            (merge_by_label main_list single_list)) as Hall.
  { apply spec_merge_by_label; [done|].
    apply Forall_Forall2_diag, Forall_forall. intros r _.
    apply same_outside_refl. }
  revert Hall.
  generalize (spec_merge single_list main_list (with_source options_dicts)).
  intros m' Hall. split; [done|].
  intros first incoming -> ->. unfold merge_by_label in Hall. simpl in Hall.
  split; intros Hl.
  - rewrite decide_True in Hall by (rewrite Hl; apply list_elem_of_singleton; done).
    apply Forall2_cons_inv_r in Hall as (r & rest & Hr & Hrest & ->).
    apply Forall2_nil_inv_r in Hrest as ->. by exists r.
  - rewrite decide_False in Hall
      by (intros ?%list_elem_of_singleton; congruence).
    apply Forall2_cons_inv_r in Hall as (r1 & rest & Hr1 & Hrest & ->).
    apply Forall2_cons_inv_r in Hrest as (r2 & rest' & Hr2 & Hrest & ->).
    apply Forall2_nil_inv_r in Hrest as ->. by exists r1, r2.
Qed.

Lemma merge_identity_by_label_witness :
  is_Ok (update_options [rec_heat_other] [rec_heat_linked] links_heat) ∧
  ∃ r, [ <["climate_model_options" := JList [JStr "A"; JStr "B"]]>
           rec_heat_linked ] = [r] ∧
       same_outside links_heat r rec_heat_linked.
Proof.
  assert ("label" ∉ opt_name <$> links_heat) as Hlab.
  { intros H. repeat (apply elem_of_cons in H as [H|H]; [discriminate H|]).
    by apply elem_of_nil in H. }
  destruct (merge_identity_by_label [rec_heat_other] [rec_heat_linked]
              links_heat Hlab) as [Htotal Hmerge].
  split.
  - apply Htotal.
    + repeat constructor. by eexists.
    + repeat constructor. by eexists.
    + repeat constructor; [by eexists|done].
    + repeat constructor; by eexists.
  - refine (proj1 (proj2 (Hmerge _ _) rec_heat_linked rec_heat_other
                     eq_refl eq_refl) _).
    + vm_compute. reflexivity.
    + reflexivity.
Defined.

(** Two records with one label and two values that are not merged: the
    accumulator record has no array of climate models, and the call
    raises. *)
Lemma merge_same_label_raises :
  rec_heat !! "label" = rec_heat_other !! "label" ∧
  rec_heat !! "value" ≠ rec_heat_other !! "value" ∧
  update_options [rec_heat_other] [rec_heat]
    [ {| opt_name := "climate_model_options";
         opt_list := [rec_model "A"] |} ]
  = Err (KeyError "climate_model_options").
Proof. split_and!; [reflexivity|discriminate|vm_compute; reflexivity]. Qed.

(** ** Growth of the link arrays *)

Lemma grows_refl r : grows r r.
Proof. intros k arr Hk. exists []. by rewrite app_nil_r. Qed.

Lemma grows_trans r1 r2 r3 : grows r1 r2 → grows r2 r3 → grows r1 r3.
Proof.
  intros H12 H23 k arr Hk.
  destruct (H12 _ _ Hk) as [e1 H1]. destruct (H23 _ _ H1) as [e2 H2].
  exists (e1 ++ e2). by rewrite app_assoc.
Qed.

Lemma grows_append r o : grows r (spec_append r o).
Proof.
  intros k arr Hk. unfold spec_append.
  destruct (decide (opt_name o = k)) as [<-|Hne].
  - rewrite lookup_insert_eq. unfold array_of. rewrite Hk. by eexists.
  - rewrite lookup_insert_ne by done. by apply grows_refl.
Qed.

Lemma grows_foldl_append r l : grows r (foldl spec_append r l).
Proof.
  revert r. induction l as [|o l IH]; intros r; simpl; [apply grows_refl|].
  eapply grows_trans; [apply grows_append|apply IH].
Qed.

Lemma list_grows_refl m : list_grows m m.
Proof. intros i r Hi. exists r. split; [done|apply grows_refl]. Qed.

Lemma list_grows_trans m1 m2 m3 :
  list_grows m1 m2 → list_grows m2 m3 → list_grows m1 m3.
Proof.
  intros H12 H23 i r Hi.
  destruct (H12 _ _ Hi) as (r2 & Hi2 & Hg2).
  destruct (H23 _ _ Hi2) as (r3 & Hi3 & Hg3).
  exists r3. split; [done|by eapply grows_trans].
Qed.

Lemma list_grows_merge_one os m s : list_grows m (spec_merge_one os m s).
Proof.
  unfold spec_merge_one.
  destruct (list_find _ _) as [[i r]|] eqn:Hfind; intros j rj Hj.
  - apply list_find_Some in Hfind as (Hi & _ & _).
    destruct (decide (i = j)) as [->|Hne].
    + rewrite list_lookup_insert_eq by (by eapply lookup_lt_Some).
      eexists. split; [done|]. rewrite Hi in Hj. injection Hj as <-.
      apply grows_foldl_append.
    + rewrite list_lookup_insert_ne by done.
      exists rj. split; [done|apply grows_refl].
  - exists rj. split; [by apply lookup_app_l_Some|apply grows_refl].
Qed.

Lemma list_grows_merge os single m : list_grows m (spec_merge single m os).
Proof.
  unfold spec_merge. revert m.
  induction single as [|s rest IH]; intros m; simpl; [apply list_grows_refl|].
  eapply list_grows_trans; [apply list_grows_merge_one|apply IH].
Qed.

(** ** Arrays without repeated values *)

Lemma NoDup_append_new (arr vals : list json) :
  NoDup arr → NoDup vals → NoDup (arr ++ filter (λ v, v ∉ arr) vals).
Proof.
  intros Harr Hvals. apply NoDup_app. split_and!; [done| |by apply NoDup_filter].
  intros x Hx [Hnot _]%list_elem_of_filter. done.
Qed.

Lemma links_NoDup_append r o :
  links_NoDup r → NoDup (value_list (opt_list o)) →
  links_NoDup (spec_append r o).
Proof.
  intros Hr Ho k arr Hk. unfold spec_append.
  destruct (decide (opt_name o = k)) as [<-|Hne].
  - rewrite lookup_insert_eq. intros [= <-].
    apply NoDup_append_new; [|done].
    unfold array_of. destruct (r !! opt_name o) as [[| |arr]|] eqn:Hl;
      try apply NoDup_nil_2.
    by apply (Hr (opt_name o)).
  - rewrite lookup_insert_ne by done. by apply Hr.
Qed.

Lemma links_NoDup_init r o :
  links_NoDup r → NoDup (value_list (opt_list o)) →
  links_NoDup (spec_init r o).
Proof.
  intros Hr Ho k arr Hk. unfold spec_init.
  destruct (decide (opt_name o = k)) as [<-|Hne].
  - rewrite lookup_insert_eq. by intros [= <-].
  - rewrite lookup_insert_ne by done. by apply Hr.
Qed.

Lemma links_NoDup_foldl_append r l :
  links_NoDup r → distinct_sources l → links_NoDup (foldl spec_append r l).
Proof.
  intros Hr Hl. revert r Hr.
  induction Hl as [|o l Ho _ IH]; intros r Hr; simpl; [done|].
  by apply IH, links_NoDup_append.
Qed.

Lemma links_NoDup_foldl_init r l :
  links_NoDup r → distinct_sources l → links_NoDup (foldl spec_init r l).
Proof.
  intros Hr Hl. revert r Hr.
  induction Hl as [|o l Ho _ IH]; intros r Hr; simpl; [done|].
  by apply IH, links_NoDup_init.
Qed.

Lemma links_NoDup_merge_one os m s :
  distinct_sources os → Forall links_NoDup m → links_NoDup s →
  Forall links_NoDup (spec_merge_one os m s).
Proof.
  intros Hos Hm Hs. unfold spec_merge_one.
  destruct (list_find _ _) as [[i r]|] eqn:Hfind.
  - apply list_find_Some in Hfind as (Hi & _ & _).
    apply Forall_insert; [done|]. apply links_NoDup_foldl_append; [|done].
    by apply (proj1 (Forall_forall _ _) Hm), list_elem_of_lookup_2 with i.
  - apply Forall_app. split; [done|]. apply Forall_singleton.
    by apply links_NoDup_foldl_init.
Qed.

Lemma links_NoDup_merge os single m :
  distinct_sources os → Forall links_NoDup m → Forall links_NoDup single →
  Forall links_NoDup (spec_merge single m os).
Proof.
  intros Hos Hm Hsingle. unfold spec_merge. revert m Hm.
  induction Hsingle as [|s rest Hs _ IH]; intros m Hm; simpl; [done|].
  by apply IH, links_NoDup_merge_one.
Qed.

Lemma distinct_sources_with_source os :
  distinct_sources os → distinct_sources (with_source os).
Proof.
  unfold distinct_sources, with_source. rewrite !Forall_forall.
  intros H o [_ Ho]%list_elem_of_filter. by apply H.
Qed.

(** ** The records of one document *)

Lemma app_nil_r_str (s : string) : s +:+ "" = s.
Proof. induction s as [|c s IH]; [done|]. by rewrite app_String, IH. Qed.

Lemma app_assoc_str (s t u : string) : (s +:+ t) +:+ u = s +:+ t +:+ u.
Proof. induction s as [|c s IH]; [done|]. by rewrite !app_String, IH. Qed.

Lemma mapM_Ok {A B} (f : A → result B) (l : list A) (k : list B) :
  mapM f l = Ok k ↔ Forall2 (λ x y, f x = Ok y) l k.
Proof.
  revert k. induction l as [|x l IH]; intros k.
  - split; [intros [= <-]; constructor|by inversion 1].
  - rewrite mapM_cons. split.
    + intros H. inv_bind H as y Hy. inv_bind H as k' Hk'. injection H as <-.
      constructor; [done|by apply IH].
    + inversion 1 as [|? y ? k' Hy Hk']; subst.
      rewrite Hy. simpl. apply IH in Hk'. by rewrite Hk'.
Qed.

Lemma foldM_assign_names data param_dict locals0 keys locals :
  foldM (assign_names data param_dict) locals0 keys = Ok locals →
  keys ≠ [] →
  ∃ display_name' path',
    locals = Some (display_name', path') ∧
    format_map param_dict (path data) = Ok path'.
Proof.
  revert locals0. induction keys as [|key rest IH]; intros locals0 H Hne;
    [done|].
  simpl in H. inv_bind H as l1 Hl1.
  unfold assign_names in Hl1.
  inv_bind Hl1 as dn Hdn. inv_bind Hl1 as p Hp. injection Hl1 as <-.
  destruct rest as [|key' rest'].
  - injection H as <-. by exists dn, p.
  - by apply (IH _ H).
Qed.

Lemma indicator_option_Ok data values r :
  indicator_option data values = Ok r →
  ∃ display_name' path' indicator_id0,
    r = {[ "label" := JStr display_name';
           "value" := JStr ((indicator_id0 +:+ model_suffix data)
                              +:+ gcm_suffix data);
           "path" := JStr path' ]} ∧
    format (zip (params data).*1 values)
           (replace_char "/" "_" (indicator_id data)) = Ok indicator_id0 ∧
    (zip (params data).*1 values = [] ∧ path' = path data
                                      ∧ display_name' = display_name data
     ∨ zip (params data).*1 values ≠ []
       ∧ format_map (zip (params data).*1 values) (path data) = Ok path').
Proof.
  unfold indicator_option. intros H.
  inv_bind H as locals Hlocals. inv_bind H as id0 Hid0.
  destruct locals as [[dn p]|]; [|discriminate]. injection H as <-.
  exists dn, p, id0. split_and!; [|done|].
  - unfold model_suffix, gcm_suffix.
    destruct (decide (indicator_model_id data = "")) as [Hm|Hm];
      rewrite ?app_nil_r_str, ?app_assoc_str.
    + destruct (decide (indicator_model_gcm data ≠ "unknown"
                        ∧ indicator_model_gcm data ≠ "{gcm}")) as [Hg|Hg].
      * rewrite decide_False by tauto. done.
      * rewrite decide_True, ?app_nil_r_str; [done|].
        destruct (decide (indicator_model_gcm data = "unknown")); [tauto|].
        destruct (decide (indicator_model_gcm data = "{gcm}")); tauto.
    + destruct (decide (indicator_model_gcm data ≠ "unknown"
                        ∧ indicator_model_gcm data ≠ "{gcm}")) as [Hg|Hg].
      * rewrite decide_False by tauto. by rewrite ?app_assoc_str.
      * rewrite decide_True, ?app_nil_r_str; [done|].
        destruct (decide (indicator_model_gcm data = "unknown")); [tauto|].
        destruct (decide (indicator_model_gcm data = "{gcm}")); tauto.
  - destruct (zip (params data).*1 values) as [|kv pd] eqn:Hpd.
    + left. simpl in Hlocals. by injection Hlocals as <- <-.
    + right. split; [done|].
      apply foldM_assign_names in Hlocals as (dn' & p' & [= <- <-] & Hp);
        done.
Qed.

Lemma no_links_NoDup r : no_links r → links_NoDup r.
Proof. intros Hr k arr Hk. by rewrite (Hr k Hk). Qed.

Lemma elem_of_link_names k :
  k ∈ link_names →
  k = "indicator_options" ∨ k = "climate_model_options"
  ∨ k = "scenario_options".
Proof.
  unfold link_names. rewrite !elem_of_cons, elem_of_nil. tauto.
Qed.

(** Solves [no_links] for a record written out with its keys. *)
Ltac solve_no_links :=
  let k := fresh "k" in
  let Hk := fresh "Hk" in
  intros k Hk; apply elem_of_link_names in Hk as [->|[->| ->]];
  rewrite ?lookup_insert_ne by done; by apply lookup_singleton_ne.

Lemma get_hazard_types_no_links data :
  Forall no_links (get_hazard_types data).
Proof.
  unfold get_hazard_types. apply Forall_forall.
  intros r ->%elem_of_dedupe_dict%list_elem_of_singleton. solve_no_links.
Qed.

Lemma get_climate_model_options_no_links params :
  Forall no_links (get_climate_model_options params).
Proof.
  unfold get_climate_model_options. destruct (params_get _ _); [|done].
  apply Forall_fmap, Forall_forall. intros gcm _. simpl. solve_no_links.
Qed.

Lemma get_scenario_options_no_links scenarios :
  Forall no_links (get_scenario_options scenarios).
Proof.
  unfold get_scenario_options. apply Forall_forall.
  intros r (scene & -> & _)%elem_of_dedupe_dict%list_elem_of_fmap.
  solve_no_links.
Qed.

Lemma get_indicator_options_elem data indicator_options r :
  get_indicator_options data = Ok indicator_options →
  r ∈ indicator_options →
  ∃ values, values ∈ product (params data).*2 ∧
            indicator_option data values = Ok r.
Proof.
  unfold get_indicator_options. intros H Hr.
  inv_bind H as per Hper. injection H as <-.
  apply (proj1 (elem_of_dedupe_dict _ _)) in Hr. apply mapM_Ok in Hper.
  apply list_elem_of_lookup in Hr as [i Hi].
  destruct (Forall2_lookup_r _ _ _ _ _ Hper Hi) as (values & Hv & Hok).
  exists values. split; [by eapply list_elem_of_lookup_2|done].
Qed.

Lemma get_indicator_options_no_links data indicator_options :
  get_indicator_options data = Ok indicator_options →
  Forall no_links indicator_options.
Proof.
  intros H. apply Forall_forall. intros r Hr.
  destruct (get_indicator_options_elem _ _ _ H Hr) as (values & _ & Hok).
  apply indicator_option_Ok in Hok as (dn & p & id0 & -> & _).
  solve_no_links.
Qed.

(** ** The merge of a document *)

Lemma get_menu_items_from_file_Ok data ind clim scen haz :
  get_menu_items_from_file data = Ok (ind, clim, scen, haz) →
  get_indicator_options data = Ok ind ∧
  clim = get_climate_model_options (params data) ∧
  scen = get_scenario_options (scenarios data) ∧
  haz = get_hazard_types data.
Proof.
  unfold get_menu_items_from_file. intros H.
  inv_bind H as ind' Hind. by injection H as <- <- <- <-.
Qed.

Lemma merge_document_Ok acc data acc' :
  merge_document acc data = Ok acc' →
  ∃ ind clim scen haz,
    get_menu_items_from_file data = Ok (ind, clim, scen, haz) ∧
    hazardTypes acc' =
      spec_merge haz (hazardTypes acc)
        (with_source [ {| opt_name := "indicator_options"; opt_list := ind |} ]) ∧
    indicatorOptions acc' =
      spec_merge ind (indicatorOptions acc)
        (with_source
           [ {| opt_name := "climate_model_options"; opt_list := clim |};
             {| opt_name := "scenario_options"; opt_list := scen |} ]) ∧
    climateModelOptions acc' =
      spec_merge clim (climateModelOptions acc)
        (with_source [ {| opt_name := "scenario_options"; opt_list := scen |} ]) ∧
    scenarioOptions acc' =
      spec_merge scen (scenarioOptions acc) (with_source []).
Proof.
  unfold merge_document. intros H.
  inv_bind H as [[[ind clim] scen] haz] Hitems.
  inv_bind H as haz' Hhaz. inv_bind H as ind' Hind.
  inv_bind H as clim' Hclim. inv_bind H as scen' Hscen.
  injection H as <-. simpl.
  apply update_options_Ok in Hhaz, Hind, Hclim, Hscen.
  exists ind, clim, scen, haz. by split_and!.
Qed.

Lemma merge_document_grows acc data acc' :
  merge_document acc data = Ok acc' → menu_grows acc acc'.
Proof.
  intros (ind & clim & scen & haz & _ & Hh & Hi & Hc & Hs)%merge_document_Ok.
  unfold menu_grows. rewrite Hh, Hi, Hc, Hs.
  split_and!; apply list_grows_merge.
Qed.

Lemma merge_document_links_NoDup acc data acc' :
  merge_document acc data = Ok acc' →
  menu_links_NoDup acc → distinct_values data → menu_links_NoDup acc'.
Proof.
  intros (ind & clim & scen & haz & Hitems & Hh & Hi & Hc & Hs)%merge_document_Ok
    (Hc0 & Hs0 & Hi0 & Hh0) Hd.
  unfold distinct_values in Hd. rewrite Hitems in Hd.
  destruct Hd as (Hdi & Hdc & Hds).
  apply get_menu_items_from_file_Ok in Hitems as (Hind & -> & -> & ->).
  unfold menu_links_NoDup. rewrite Hh, Hi, Hc, Hs.
  split_and!; apply links_NoDup_merge; try done;
    try (apply distinct_sources_with_source; repeat constructor; done).
  - eapply Forall_impl; [apply get_climate_model_options_no_links|].
    apply no_links_NoDup.
  - eapply Forall_impl; [apply get_scenario_options_no_links|].
    apply no_links_NoDup.
  - eapply Forall_impl; [exact (get_indicator_options_no_links _ _ Hind)|].
    apply no_links_NoDup.
  - eapply Forall_impl; [apply get_hazard_types_no_links|].
    apply no_links_NoDup.
Qed.

Lemma foldM_merge_links_NoDup documents acc0 acc :
  foldM merge_document acc0 documents = Ok acc →
  menu_links_NoDup acc0 → Forall distinct_values documents →
  menu_links_NoDup acc.
Proof.
  revert acc0. induction documents as [|d rest IH]; intros acc0 H Hacc Hd;
    simpl in H.
  - by injection H as <-.
  - inv_bind H as acc1 Hacc1. apply Forall_cons in Hd as [Hd Hrest].
    apply (IH acc1 H); [|done].
    exact (merge_document_links_NoDup _ _ _ Hacc1 Hacc Hd).
Qed.

(** C4. After a document has been merged into the accumulators reached
    from the empty lists, every record that was in one of the four lists is
    still at its place and each of its arrays has its former content as a
    prefix: no array gets shorter and no value is removed. No link array
    holds a value twice as long as, in each document merged so far, the
    records of each source list have pairwise distinct values. *)
Theorem merge_monotone (documents : list document) (data : document)
    (acc acc' : menu_options) :
  create_menu_options documents = Ok acc →
  merge_document acc data = Ok acc' →
  create_menu_options (documents ++ [data]) = Ok acc' ∧
  menu_grows acc acc' ∧
  (Forall distinct_values (documents ++ [data]) → menu_links_NoDup acc').
Proof.
  intros Hrun Hstep. split_and!.
  - unfold create_menu_options in *. rewrite foldM_app, Hrun. simpl.
    by rewrite Hstep.
  - exact (merge_document_grows _ _ _ Hstep).
  - intros [Hdocs Hdata]%Forall_app.
    rewrite Forall_singleton in Hdata.
    apply (merge_document_links_NoDup _ _ _ Hstep); [|exact Hdata].
    apply (foldM_merge_links_NoDup _ _ _ Hrun); [|exact Hdocs].
    by repeat split.
Qed.

Lemma merge_monotone_witness :
  create_menu_options ([doc_with_gcm] ++ [doc_ssp245])
    = Ok menu_with_gcm_ssp245 ∧
  menu_grows menu_with_gcm menu_with_gcm_ssp245 ∧
  menu_links_NoDup menu_with_gcm_ssp245.
Proof.
  assert (create_menu_options [doc_with_gcm] = Ok menu_with_gcm) as Hrun
    by (vm_compute; reflexivity).
  assert (merge_document menu_with_gcm doc_ssp245 = Ok menu_with_gcm_ssp245)
    as Hstep by (vm_compute; reflexivity).
  destruct (merge_monotone [doc_with_gcm] doc_ssp245 _ _ Hrun Hstep)
    as (Hall & Hgrow & Hnodup).
  split_and!; [done|done|]. apply Hnodup.
  apply Forall_cons_2; [|apply Forall_cons_2; [|apply Forall_nil_2]];
    vm_compute; split_and!; apply (bool_decide_unpack _); vm_compute;
    reflexivity.
Defined.

(** One document with two scenario descriptors of one id: the climate
    model gets the scenario value twice. *)
Lemma merge_repeated_value :
  ∃ acc, create_menu_options [doc_two_years] = Ok acc ∧
    climateModelOptions acc =
      [ <["scenario_options" := JList [JStr "ssp126"; JStr "ssp126"]]>
          (rec_model "A") ] ∧
    ¬ menu_links_NoDup acc.
Proof.
  eexists. split_and!.
  - vm_compute. reflexivity.
  - vm_compute. reflexivity.
  - intros (Hc & _). simpl in Hc. apply Forall_cons in Hc as [Hc _].
    specialize (Hc "scenario_options" [JStr "ssp126"; JStr "ssp126"]).
    assert (NoDup [JStr "ssp126"; JStr "ssp126"]) as Hn.
    { apply Hc; [set_solver|]. vm_compute. reflexivity. }
    apply NoDup_cons in Hn as [Hn _]. apply Hn. by left.
Qed.

(** ** The four lists of a document *)

Lemma get_climate_model_options_gcm params :
  get_climate_model_options params =
  match params_get params "gcm" with
  | Some gcms => rec_model <$> gcms
  | None => []
  end.
Proof. reflexivity. Qed.

(** Three of the four lists hold no record twice. *)
Lemma get_menu_items_from_file_NoDup data ind clim scen haz :
  get_menu_items_from_file data = Ok (ind, clim, scen, haz) →
  NoDup ind ∧ NoDup scen ∧ NoDup haz.
Proof.
  intros (Hind & -> & -> & ->)%get_menu_items_from_file_Ok.
  split_and!; try apply NoDup_dedupe_dict.
  unfold get_indicator_options in Hind.
  inv_bind Hind as per Hper. injection Hind as <-. apply NoDup_dedupe_dict.
Qed.

(** C7. The climate models of a document are one record per value of
    [gcm], as listed: with [gcm] equal to [A, A] the list of climate models
    holds the record of [A] twice, while the other three lists are
    deduplicated. *)
Theorem climate_model_options_repeated :
  ∃ ind scen haz,
    get_menu_items_from_file doc_repeated_gcm =
      Ok (ind, [rec_model "A"; rec_model "A"], scen, haz) ∧
    NoDup ind ∧ NoDup scen ∧ NoDup haz ∧
    ¬ NoDup [rec_model "A"; rec_model "A"].
Proof.
  assert (is_Ok (get_menu_items_from_file doc_repeated_gcm))
    as [[[[ind clim] scen] haz] Hitems].
  { eexists. vm_compute. reflexivity. }
  destruct (get_menu_items_from_file_NoDup _ _ _ _ _ Hitems) as (Hi & Hs & Hh).
  exists ind, scen, haz. split_and!; try done.
  - rewrite Hitems. do 2 f_equal.
    by apply get_menu_items_from_file_Ok in Hitems as (_ & -> & _).
  - intros [Hn _]%NoDup_cons. apply Hn. by left.
Qed.

(** ** Format strings *)

(** Induction that follows the scanner: it steps over one character or
    over two. *)
Lemma string_ind2 (P : string → Prop) :
  P "" →
  (∀ c, P (String c "")) →
  (∀ c c' s, P s → P (String c' s) → P (String c (String c' s))) →
  ∀ s, P s.
Proof.
  intros H0 H1 H2 s.
  assert (P s ∧ ∀ c, P (String c s)) as [? _]; [|done].
  induction s as [|c s [IH1 IH2]]; [by split|].
  split; [apply IH2|]. intros c'. apply H2; [done|apply IH2].
Qed.

Lemma app_nil_l_str (s : string) : "" +:+ s = s.
Proof. reflexivity. Qed.

Lemma fmap_Ok_id (m : result string) : (String.append "") <$> m = m.
Proof. by destruct m. Qed.

Lemma format_go_app field s :
  ∀ fld t s',
    format_go field fld s = Ok s' →
    format_go field fld (s +:+ t) = (String.append s') <$> format_go field None t.
Proof.
  induction s as [|c|c c' s IH IH'] using string_ind2; intros fld t s' H.
  - destruct fld; [done|]. injection H as <-. simpl. by rewrite fmap_Ok_id.
  - destruct fld as [name|]; simpl in H.
    + case_decide; [|case_decide; [done|by destruct (is_field_special c)]].
      inv_bind H as v Hv. injection H as <-.
      rewrite app_String. simpl. rewrite decide_True by done.
      rewrite Hv. simpl. rewrite app_nil_l_str, app_nil_r_str.
      by destruct (format_go field None t).
    + repeat case_decide; try done. injection H as <-.
      rewrite app_String. simpl. rewrite !decide_False by done.
      rewrite app_nil_l_str. by destruct (format_go field None t).
  - rewrite !app_String.
    destruct fld as [name|].
    + change (format_go field (Some name) (String c (String c' s))) with
        (if decide (c = "}"%char) then
           v ← field name; rest ← format_go field None (String c' s);
           mret (v +:+ rest)
         else if decide (c = "{"%char) then Err ValueError
         else if is_field_special c then Err Unmodelled
         else format_go field (Some (name +:+ String c "")) (String c' s)) in H.
      change (format_go field (Some name) (String c (String c' (s +:+ t)))) with
        (if decide (c = "}"%char) then
           v ← field name;
           rest ← format_go field None (String c' (s +:+ t));
           mret (v +:+ rest)
         else if decide (c = "{"%char) then Err ValueError
         else if is_field_special c then Err Unmodelled
         else format_go field (Some (name +:+ String c ""))
                (String c' (s +:+ t))).
      rewrite <- !app_String.
      case_decide.
      * inv_bind H as v Hv. inv_bind H as rest Hrest. injection H as <-.
        rewrite (IH' _ _ _ Hrest), Hv.
        destruct (format_go field None t); simpl; [|done].
        by rewrite app_assoc_str.
      * case_decide; [done|]. destruct (is_field_special c); [done|].
        by apply IH'.
    + change (format_go field None (String c (String c' s))) with
        (if decide (c = "{"%char) then
           if decide (c' = "{"%char)
           then String "{"%char <$> format_go field None s
           else format_go field (Some "") (String c' s)
         else if decide (c = "}"%char) then
           if decide (c' = "}"%char)
           then String "}"%char <$> format_go field None s
           else Err ValueError
         else String c <$> format_go field None (String c' s)) in H.
      change (format_go field None (String c (String c' (s +:+ t)))) with
        (if decide (c = "{"%char) then
           if decide (c' = "{"%char)
           then String "{"%char <$> format_go field None (s +:+ t)
           else format_go field (Some "") (String c' (s +:+ t))
         else if decide (c = "}"%char) then
           if decide (c' = "}"%char)
           then String "}"%char <$> format_go field None (s +:+ t)
           else Err ValueError
         else String c <$> format_go field None (String c' (s +:+ t))).
      rewrite <- !app_String.
      repeat case_decide; try done.
      * apply fmap_Ok in H as (u & Hu & ->). rewrite (IH _ _ _ Hu).
        by destruct (format_go field None t).
      * by apply IH'.
      * apply fmap_Ok in H as (u & Hu & ->). rewrite (IH _ _ _ Hu).
        by destruct (format_go field None t).
      * apply fmap_Ok in H as (u & Hu & ->). rewrite (IH' _ _ _ Hu).
        by destruct (format_go field None t).
Qed.

Lemma format_go_Some_cons field name c s :
  format_go field (Some name) (String c s) =
  if decide (c = "}"%char) then
    v ← field name; rest ← format_go field None s; mret (v +:+ rest)
  else if decide (c = "{"%char) then Err ValueError
  else if is_field_special c then Err Unmodelled
  else format_go field (Some (name +:+ String c "")) s.
Proof. reflexivity. Qed.

Lemma format_go_None_cons field c c' s :
  format_go field None (String c (String c' s)) =
  if decide (c = "{"%char) then
    if decide (c' = "{"%char)
    then String "{"%char <$> format_go field None s
    else format_go field (Some "") (String c' s)
  else if decide (c = "}"%char) then
    if decide (c' = "}"%char)
    then String "}"%char <$> format_go field None s
    else Err ValueError
  else String c <$> format_go field None (String c' s).
Proof. reflexivity. Qed.

Lemma format_go_no_KeyError field s :
  (∀ name k, field name ≠ Err (KeyError k)) →
  ∀ fld k, format_go field fld s ≠ Err (KeyError k).
Proof.
  intros Hfield.
  induction s as [|c|c c' s IH IH'] using string_ind2; intros fld k.
  - by destruct fld.
  - destruct fld as [name|]; simpl.
    + case_decide.
      * specialize (Hfield name k). by destruct (field name).
      * case_decide; [done|]. by destruct (is_field_special c).
    + by repeat case_decide.
  - destruct fld as [name|].
    + rewrite format_go_Some_cons. case_decide.
      * specialize (Hfield name k). destruct (field name); [|done].
        specialize (IH' None k).
        by destruct (format_go field None (String c' s)).
      * case_decide; [done|].
        destruct (is_field_special c); [done|]. apply IH'.
    + rewrite format_go_None_cons. case_decide; [case_decide|case_decide].
      * specialize (IH None k). by destruct (format_go field None s).
      * apply IH'.
      * case_decide; [|done].
        specialize (IH None k). by destruct (format_go field None s).
      * specialize (IH' None k).
        by destruct (format_go field None (String c' s)).
Qed.

Lemma format_go_is_Ok field field' s :
  (∀ name, is_Ok (field name) → is_Ok (field' name)) →
  ∀ fld, is_Ok (format_go field fld s) → is_Ok (format_go field' fld s).
Proof.
  intros Hfield.
  induction s as [|c|c c' s IH IH'] using string_ind2; intros fld [r H].
  - destruct fld; [done|by eexists].
  - destruct fld as [name|]; simpl in *.
    + case_decide; [|case_decide; [done|by destruct (is_field_special c)]].
      inv_bind H as v Hv. destruct (Hfield name) as [v' ->]; by eexists.
    + repeat case_decide; try done. by eexists.
  - destruct fld as [name|].
    + rewrite format_go_Some_cons in *. case_decide.
      * inv_bind H as v Hv. inv_bind H as rest Hrest.
        destruct (Hfield name) as [v' ->]; [by eexists|].
        destruct (IH' None) as [rest' ->]; by eexists.
      * case_decide; [done|]. destruct (is_field_special c); [done|].
        apply IH'. by eexists.
    + rewrite format_go_None_cons in *.
      case_decide; [case_decide|case_decide].
      * apply fmap_Ok in H as (u & Hu & _).
        destruct (IH None) as [u' ->]; by eexists.
      * apply IH'. by eexists.
      * case_decide; [|done]. apply fmap_Ok in H as (u & Hu & _).
        destruct (IH None) as [u' ->]; by eexists.
      * apply fmap_Ok in H as (u & Hu & _).
        destruct (IH' None) as [u' ->]; by eexists.
Qed.

Lemma all_plain_cons c name :
  all_plain (String c name) = true →
  c ≠ "{"%char ∧ c ≠ "}"%char ∧ is_field_special c = false
  ∧ all_plain name = true.
Proof.
  simpl. intros [Hc Hn]%andb_true_iff. unfold is_plain_char in Hc.
  apply negb_true_iff, bool_decide_eq_false in Hc.
  split_and!; [| | |done].
  - intros ->. apply Hc. by left.
  - intros ->. apply Hc. right. by left.
  - apply bool_decide_eq_false. intros Hs. apply Hc. by do 2 right.
Qed.

Lemma format_go_field_name field name :
  all_plain name = true →
  ∀ acc after,
    format_go field (Some acc) (name +:+ "}" +:+ after) =
    v ← field (acc +:+ name); rest ← format_go field None after;
    mret (v +:+ rest).
Proof.
  induction name as [|c name IH]; intros Hplain acc after.
  - rewrite app_nil_l_str, app_nil_r_str. reflexivity.
  - apply all_plain_cons in Hplain as (H1 & H2 & H3 & Hplain).
    rewrite app_String, format_go_Some_cons.
    rewrite !decide_False by done. rewrite H3, (IH Hplain).
    by rewrite app_assoc_str.
Qed.

Lemma format_go_placeholder field name after :
  plain_name name →
  format_go field None ("{" +:+ name +:+ "}" +:+ after) =
  v ← field name; rest ← format_go field None after; mret (v +:+ rest).
Proof.
  intros [Hplain Hdigits].
  destruct name as [|c name]; [done|].
  pose proof (all_plain_cons _ _ Hplain) as (H1 & _).
  change ("{" +:+ String c name +:+ "}" +:+ after)
    with (String "{" (String c (name +:+ "}" +:+ after))).
  rewrite format_go_None_cons. rewrite decide_True by done.
  rewrite decide_False by done.
  change (String c (name +:+ "}" +:+ after))
    with (String c name +:+ "}" +:+ after).
  by rewrite (format_go_field_name field _ Hplain), app_nil_l_str.
Qed.

Lemma dict_get_zip_None (params : list (string * list string)) values name :
  params_get params name = None → dict_get (zip params.*1 values) name = None.
Proof.
  revert values. induction params as [|[k v] params IH]; intros values H;
    [done|].
  simpl in H. case_decide; [done|].
  destruct values as [|x values]; [done|]. simpl.
  rewrite decide_False by done. by apply IH.
Qed.

Lemma format_map_is_Ok param_dict param_dict' template :
  is_Ok (format_map param_dict template) →
  is_Ok (format_map param_dict' template).
Proof.
  apply format_go_is_Ok. intros name. unfold field_value.
  destruct (all_digits name).
  - by destruct (Nat.ltb _ _); intros [? ?].
  - intros _. destruct (dict_get param_dict' name); by eexists.
Qed.

Lemma format_map_no_KeyError param_dict template k :
  format_map param_dict template ≠ Err (KeyError k).
Proof.
  apply format_go_no_KeyError. intros name k'. unfold field_value.
  destruct (all_digits name); [by destruct (Nat.ltb _ _)|].
  by destruct (dict_get param_dict name).
Qed.

(** An unresolved placeholder of a template formatted with [format_map]
    stays as it is. *)
Lemma format_map_placeholder param_dict before name after p :
  plain_name name → dict_get param_dict name = None →
  is_Ok (format_map [] before) →
  format_map param_dict (before +:+ "{" +:+ name +:+ "}" +:+ after) = Ok p →
  ∃ before' after',
    format_map param_dict before = Ok before' ∧
    format_map param_dict after = Ok after' ∧
    p = before' +:+ "{" +:+ name +:+ "}" +:+ after'.
Proof.
  intros Hname Hget Hbefore H.
  destruct (format_map_is_Ok [] param_dict before Hbefore) as [before' Hb].
  unfold format_map in *.
  rewrite (format_go_app _ _ _ _ _ Hb) in H.
  apply fmap_Ok in H as (rest & Hrest & ->).
  rewrite (format_go_placeholder _ _ _ Hname) in Hrest.
  unfold field_value in Hrest. rewrite (proj2 Hname), Hget in Hrest.
  simpl in Hrest. inv_bind Hrest as after' Hafter. injection Hrest as <-.
  exists before', after'. split_and!; [done|done|].
  by rewrite !app_assoc_str.
Qed.

(** A placeholder that [format] cannot resolve raises [KeyError]. *)
Lemma format_placeholder_KeyError param_dict before name after :
  plain_name name → dict_get param_dict name = None →
  is_Ok (format param_dict before) →
  format param_dict (before +:+ "{" +:+ name +:+ "}" +:+ after) =
  Err (KeyError name).
Proof.
  intros Hname Hget [before' Hb]. unfold format in *.
  rewrite (format_go_app _ _ _ _ _ Hb).
  rewrite (format_go_placeholder _ _ _ Hname).
  unfold field_value. by rewrite (proj2 Hname), Hget.
Qed.

(** ** The cross product of the parameter values *)

Lemma product_cons {A} (l : list A) (rest : list (list A)) :
  product (l :: rest) = l ≫= λ x, (x ::.) <$> product rest.
Proof. reflexivity. Qed.

Lemma product_length {A} (lists : list (list A)) :
  length (product lists) = foldr (λ l n, length l * n) 1 lists.
Proof.
  induction lists as [|l rest IH]; [done|].
  rewrite product_cons. simpl. rewrite <- IH. clear IH.
  induction l as [|x l IHl]; [done|].
  rewrite bind_cons, length_app, length_fmap, IHl. simpl. lia.
Qed.

(** Row-major order: the combination of the [i]-th value of the first list
    with the [j]-th combination of the other lists stands at index
    [i * n + j], where [n] counts the combinations of the other lists. *)
Lemma product_lookup {A} (l : list A) (rest : list (list A)) i j x t :
  l !! i = Some x → product rest !! j = Some t →
  product (l :: rest) !! (i * length (product rest) + j) = Some (x :: t).
Proof.
  rewrite product_cons. revert i.
  induction l as [|y l IH]; intros i Hi Hj; [done|].
  rewrite bind_cons. destruct i as [|i]; simpl in Hi.
  - injection Hi as ->.
    change (0 * length (product rest) + j) with j.
    rewrite lookup_app_l.
    + rewrite list_lookup_fmap, Hj. done.
    + rewrite length_fmap. by eapply lookup_lt_Some.
  - rewrite lookup_app_r; rewrite length_fmap; [|simpl; lia].
    replace (S i * length (product rest) + j - length (product rest))
      with (i * length (product rest) + j) by (simpl; lia).
    by apply IH.
Qed.

Lemma product_elem_length {A} (lists : list (list A)) (values : list A) :
  values ∈ product lists → length values = length lists.
Proof.
  revert values. induction lists as [|l rest IH]; intros values H.
  - apply list_elem_of_singleton in H as ->. done.
  - rewrite product_cons in H.
    apply list_elem_of_bind in H as (x & Hv & _).
    apply list_elem_of_fmap in Hv as (t & -> & Ht).
    simpl. by rewrite (IH t Ht).
Qed.

(** C6. The indicator records are the records of the combinations of
    the cross product of the parameter values, one per combination and in
    the order of the cross product (row-major, the last parameter varying
    fastest), deduplicated: as many records as combinations when these
    records are pairwise distinct. Without parameters there is one record,
    with the display name and the path as they are written, provided the
    identifier template formats without substitutions. The parameters
    [gcm] of [A, B] and [rcp] of [45, 85] give four records, one per pair. *)
Theorem get_indicator_options_product (data : document) :
  (∀ indicator_options,
     get_indicator_options data = Ok indicator_options →
     ∃ per_combination,
       Forall2 (λ values r, indicator_option data values = Ok r)
               (product (params data).*2) per_combination ∧
       indicator_options = dedupe_dict per_combination ∧
       (NoDup per_combination →
        indicator_options = per_combination ∧
        length indicator_options = length (product (params data).*2))) ∧
  length (product (params data).*2) =
    foldr (λ l n, length l * n) 1 (params data).*2 ∧
  (∀ (l : list string) rest i j x t,
     l !! i = Some x → product rest !! j = Some t →
     product (l :: rest) !! (i * length (product rest) + j) = Some (x :: t)) ∧
  (params data = [] →
   ∀ formatted,
     format [] (replace_char "/" "_" (indicator_id data)) = Ok formatted →
     get_indicator_options data =
     Ok [ {[ "label" := JStr (display_name data);
             "value" := JStr ((formatted +:+ model_suffix data)
                                +:+ gcm_suffix data);
             "path" := JStr (path data) ]} ]) ∧
  get_indicator_options doc_gcm_rcp =
    Ok [ {[ "label" := JStr "Heat A 45"; "value" := JStr "heat_A_45";
            "path" := JStr "heat/A/45" ]};
         {[ "label" := JStr "Heat A 85"; "value" := JStr "heat_A_85";
            "path" := JStr "heat/A/85" ]};
         {[ "label" := JStr "Heat B 45"; "value" := JStr "heat_B_45";
            "path" := JStr "heat/B/45" ]};
         {[ "label" := JStr "Heat B 85"; "value" := JStr "heat_B_85";
            "path" := JStr "heat/B/85" ]} ].
Proof.
  split_and!.
  - intros indicator_options H. unfold get_indicator_options in H.
    inv_bind H as per Hper. injection H as <-. apply mapM_Ok in Hper.
    exists per. split_and!; [done|done|].
    intros Hnd. rewrite (dedupe_dict_NoDup_id _ Hnd).
    split; [done|]. symmetry. by eapply Forall2_length.
  - apply product_length.
  - intros l rest i j x t. apply product_lookup.
  - intros Hparams formatted Hid.
    assert (is_Ok (indicator_option data [])) as [r Hr].
    { unfold indicator_option. rewrite Hparams. simpl. rewrite Hid. simpl.
      by eexists. }
    unfold get_indicator_options. rewrite Hparams. simpl. rewrite Hr. simpl.
    apply indicator_option_Ok in Hr as (dn & p & id0 & -> & Hid0 & Hcase).
    rewrite Hparams in Hid0, Hcase. simpl in Hid0, Hcase.
    rewrite Hid in Hid0. injection Hid0 as <-.
    destruct Hcase as [(_ & -> & ->)|[? _]]; done.
  - vm_compute. reflexivity.
Qed.

Lemma get_indicator_options_product_witness :
  get_indicator_options doc_no_gcm =
  Ok [ {[ "label" := JStr "Heat";
          "value" := JStr (("heat" +:+ model_suffix doc_no_gcm)
                             +:+ gcm_suffix doc_no_gcm);
          "path" := JStr "heat" ]} ].
Proof.
  apply (proj1 (proj2 (proj2 (proj2
           (get_indicator_options_product doc_no_gcm))))).
  - reflexivity.
  - vm_compute. reflexivity.
Defined.

(** Two combinations with the same record leave one record. *)
Lemma get_indicator_options_deduplicated :
  get_indicator_options doc_same_records =
    Ok [ {[ "label" := JStr "Heat"; "value" := JStr "heat";
            "path" := JStr "heat" ]} ] ∧
  product (params doc_same_records).*2 = [["A"]; ["B"]].
Proof. split; vm_compute; reflexivity. Qed.

(** ** The indicators of a document *)

Lemma indicator_record_lookup (l v p : json) :
  ({[ "label" := l; "value" := v; "path" := p ]} : record) !! "value" = Some v ∧
  ({[ "label" := l; "value" := v; "path" := p ]} : record) !! "path" = Some p ∧
  ({[ "label" := l; "value" := v; "path" := p ]} : record) !! "label" = Some l.
Proof.
  split_and!.
  - rewrite lookup_insert_ne by done. apply lookup_insert_eq.
  - rewrite !lookup_insert_ne by done. apply lookup_singleton_eq.
  - apply lookup_insert_eq.
Qed.

(** ** Replacing a placeholder *)

Lemma replace_char_app (a b : ascii) (s t : string) :
  replace_char a b (s +:+ t) = replace_char a b s +:+ replace_char a b t.
Proof.
  induction s as [|c s IH]; [done|].
  rewrite app_String. simpl. by rewrite IH.
Qed.

Lemma all_plain_replace_char (name : string) :
  all_plain name = true → all_plain (replace_char "/" "_" name) = true.
Proof.
  induction name as [|c name IH]; [done|]. simpl.
  intros [Hc Hn]%andb_true_iff. rewrite (IH Hn), andb_true_r.
  by case_decide.
Qed.

Lemma all_digits_replace_char (name : string) :
  all_digits (replace_char "/" "_" name) = all_digits name.
Proof.
  induction name as [|c name IH]; [done|]. simpl. rewrite IH.
  case_decide as Hc; [|done]. by rewrite Hc.
Qed.

Lemma plain_name_replace_char (name : string) :
  plain_name name → plain_name (replace_char "/" "_" name).
Proof.
  intros [Hp Hd]. split; [by apply all_plain_replace_char|].
  by rewrite all_digits_replace_char.
Qed.

Lemma no_braces_cons c s :
  no_braces (String c s) = true →
  c ≠ "{"%char ∧ c ≠ "}"%char ∧ no_braces s = true.
Proof.
  simpl. intros [[H1 H2]%andb_true_iff H3]%andb_true_iff.
  apply negb_true_iff, bool_decide_eq_false in H1, H2. done.
Qed.

Lemma all_plain_no_braces (name : string) :
  all_plain name = true → no_braces name = true.
Proof.
  induction name as [|c name IH]; [done|].
  intros (H1 & H2 & _ & Hn)%all_plain_cons. simpl.
  rewrite (IH Hn), !bool_decide_eq_false_2 by done. done.
Qed.

Lemma prefix_cons a p c s :
  String.prefix (String a p) (String c s) =
  if decide (a = c) then String.prefix p s else false.
Proof. simpl. destruct (ascii_dec a c); by case_decide. Qed.

Lemma prefix_nil_l s : String.prefix "" s = true.
Proof. by destruct s. Qed.

Lemma prefix_length p s :
  String.prefix p s = true → String.length p ≤ String.length s.
Proof. intros [rest ->]%prefix_app. rewrite length_app_str. lia. Qed.

Lemma prefix_app_l p s t :
  String.prefix p s = true → String.prefix p (s +:+ t) = true.
Proof.
  intros [rest ->]%prefix_app. apply prefix_app. exists (rest +:+ t).
  by rewrite app_assoc_str.
Qed.

(** An occurrence of [k}] that begins in [b] ends in [b] when a [{]
    follows [b] and [k] holds no brace. *)
Lemma prefix_field_within k r :
  no_braces k = true →
  ∀ b, String.prefix (k +:+ "}") (b +:+ String "{" r) = true →
       String.prefix (k +:+ "}") b = true.
Proof.
  induction k as [|a k IH]; intros Hk b H.
  - rewrite app_nil_l_str in *. destruct b as [|c b]; [done|].
    rewrite app_String, prefix_cons in H. rewrite prefix_cons.
    case_decide; [|done]. apply prefix_nil_l.
  - apply no_braces_cons in Hk as (H1 & H2 & Hk). rewrite app_String in *.
    destruct b as [|c b].
    + rewrite app_nil_l_str, prefix_cons in H. by case_decide.
    + rewrite app_String, prefix_cons in H. rewrite prefix_cons.
      case_decide; [|done]. by apply IH.
Qed.

(** A field [{name}] begins with [{k}] only if [name] is [k]. *)
Lemma prefix_field_name k :
  no_braces k = true →
  ∀ name after, no_braces name = true →
    String.prefix (k +:+ "}") (name +:+ "}" +:+ after) = true → k = name.
Proof.
  induction k as [|a k IH]; intros Hk name after Hname H.
  - destruct name as [|c name]; [done|].
    apply no_braces_cons in Hname as (_ & H2 & _).
    rewrite app_nil_l_str, app_String, prefix_cons in H. by case_decide.
  - apply no_braces_cons in Hk as (H1 & H2 & Hk). rewrite app_String in H.
    destruct name as [|c name].
    + rewrite app_nil_l_str in H.
      change ("}" +:+ after) with (String "}" after) in H.
      rewrite prefix_cons in H. by case_decide.
    + apply no_braces_cons in Hname as (_ & _ & Hname).
      rewrite app_String, prefix_cons in H. case_decide as Hc; [|done].
      subst c. f_equal. by eapply IH.
Qed.

Lemma replace_go_cons old new skip c s :
  replace_go old new skip (String c s) =
  match skip with
  | S k => replace_go old new k s
  | 0 => if String.prefix old (String c s)
         then new +:+ replace_go old new (String.length old - 1) s
         else String c (replace_go old new 0 s)
  end.
Proof. reflexivity. Qed.

Lemma replace_go_app k new r :
  no_braces k = true →
  ∀ b skip, skip ≤ String.length b →
    replace_go (String "{" (k +:+ "}")) new skip (b +:+ String "{" r) =
    replace_go (String "{" (k +:+ "}")) new skip b
      +:+ replace_go (String "{" (k +:+ "}")) new 0 (String "{" r).
Proof.
  intros Hk. set (old := String "{" (k +:+ "}")).
  induction b as [|c b IH]; intros skip Hskip.
  - simpl in Hskip. by replace skip with 0 by lia.
  - rewrite app_String, !replace_go_cons. destruct skip as [|n].
    + destruct (String.prefix old (String c b)) eqn:Hp.
      * rewrite <- app_String, (prefix_app_l _ _ _ Hp).
        rewrite IH; [by rewrite app_assoc_str|].
        apply prefix_length in Hp.
        change (String.length (String c b)) with (S (String.length b)) in Hp.
        lia.
      * assert (String.prefix old (String c (b +:+ String "{" r)) = false)
          as ->.
        { apply not_true_is_false. intros H. unfold old in H, Hp.
          rewrite prefix_cons in H, Hp. case_decide; [|done].
          by rewrite (prefix_field_within k r Hk b H) in Hp. }
        by rewrite IH, app_String by lia.
    + apply IH. simpl in Hskip. lia.
Qed.

(** Text without braces is passed over. *)
Lemma replace_go_literal k new t s :
  no_braces t = true →
  replace_go (String "{" (k +:+ "}")) new 0 (t +:+ s) =
  t +:+ replace_go (String "{" (k +:+ "}")) new 0 s.
Proof.
  induction t as [|c t IH]; intros Ht; [done|].
  apply no_braces_cons in Ht as (H1 & _ & Ht).
  rewrite !app_String, replace_go_cons, prefix_cons.
  rewrite decide_False by done. by rewrite IH.
Qed.

(** Removing or replacing the placeholder of a key leaves the placeholder
    of another name where it is. *)
Lemma str_replace_field k new before name after :
  no_braces k = true → no_braces name = true → name ≠ k →
  str_replace ("{" +:+ k +:+ "}") new
    (before +:+ "{" +:+ name +:+ "}" +:+ after) =
  str_replace ("{" +:+ k +:+ "}") new before
    +:+ "{" +:+ name +:+ "}" +:+ str_replace ("{" +:+ k +:+ "}") new after.
Proof.
  intros Hk Hname Hne.
  change ("{" +:+ k +:+ "}") with (String "{" (k +:+ "}")).
  change ("{" +:+ name +:+ "}" +:+ after)
    with (String "{" (name +:+ "}" +:+ after)).
  unfold str_replace.
  rewrite (replace_go_app k new _ Hk) by lia. f_equal.
  rewrite replace_go_cons, prefix_cons, decide_True by done.
  assert (String.prefix (k +:+ "}") (name +:+ "}" +:+ after) = false) as ->.
  { apply not_true_is_false. intros H.
    by apply prefix_field_name in H. }
  rewrite (replace_go_literal k new name _ Hname).
  change ("}" +:+ after) with (String "}" after).
  rewrite replace_go_cons, prefix_cons, decide_False by done.
  reflexivity.
Qed.

(** ** The stages of one combination *)

Lemma zip_params_nil (params : list (string * list string)) values :
  values ∈ product params.*2 →
  zip params.*1 values = [] ↔ params = [].
Proof.
  intros H%product_elem_length. rewrite length_fmap in H.
  destruct params as [|[k v] rest]; [done|].
  destruct values as [|x values]; done.
Qed.

Lemma get_indicator_options_first_error data values more e :
  product (params data).*2 = values :: more →
  indicator_option data values = Err e →
  get_indicator_options data = Err e.
Proof.
  intros Hprod Herr. unfold get_indicator_options.
  by rewrite Hprod, mapM_cons, Herr.
Qed.

Lemma indicator_option_display_and_path data values :
  indicator_option data values =
  locals ← display_and_path data values;
  indicator_id0 ←
    format (zip (params data).*1 values)
           (replace_char "/" "_" (indicator_id data));
  match locals with
  | None => Err UnboundLocalError
  | Some (display_name', path') =>
      Ok ({[ "label" := JStr display_name';
             "value" := JStr
               (let indicator_id1 :=
                  if decide (indicator_model_id data = "") then indicator_id0
                  else indicator_id0 +:+ "_"
                         +:+ replace_char "/" "_" (indicator_model_id data) in
                if decide (indicator_model_gcm data ≠ "unknown"
                           ∧ indicator_model_gcm data ≠ "{gcm}")
                then indicator_id1 +:+ "_" +:+ indicator_model_gcm data
                else indicator_id1);
             "path" := JStr path' ]} : record)
  end.
Proof. reflexivity. Qed.

(** The first key's round of the loop formats the display name. *)
Lemma display_and_path_first data key key_values rest values e :
  params data = (key, key_values) :: rest →
  values ∈ product (params data).*2 →
  (if negb (str_contains key (indicator_id data))
   then format (zip (params data).*1 values)
          (str_replace ("{" +:+ key +:+ "}") "" (display_name data))
   else format (zip (params data).*1 values) (display_name data)) = Err e →
  display_and_path data values = Err e.
Proof.
  intros Hparams Hin Herr. unfold display_and_path.
  pose proof (product_elem_length _ _ Hin) as Hlen.
  destruct values as [|v values]; [by rewrite Hparams in Hlen|].
  assert (zip (params data).*1 (v :: values)
          = (key, v) :: zip rest.*1 values) as Hzip
    by (by rewrite Hparams).
  revert Herr. generalize (zip (params data).*1 (v :: values)) Hzip.
  intros param_dict -> Herr.
  rewrite fmap_cons. change ((key, v).1) with key.
  change (foldM ?f ?b (?x :: ?l)) with (b' ← f b x; foldM f b' l).
  unfold assign_names. by rewrite Herr.
Qed.

(** C2. Formatting the path never raises a missing-key error, and a
    placeholder [{name}] of the path template whose name is no key of
    [params] stands as it is in the path of every emitted record: the path
    is copied as written when [params] is empty, and otherwise the text
    before the placeholder and the text after it are formatted each on its
    own. Without parameters the display name is copied as written too, its
    placeholders included. With parameters the display name of the first
    combination is formatted with [str.format], after the placeholder of
    the first key has been removed if that key does not occur in the
    identifier template: a placeholder whose name is no key then raises
    [KeyError], once the text before it is formatted. The identifier
    template is formatted with [str.format] in every case, its [/] replaced
    by [_] first: once the display name and the path of the first
    combination are there, a placeholder whose name is no key raises
    [KeyError]. *)
Theorem path_placeholder_kept :
  (∀ param_dict template k,
     format_map param_dict template ≠ Err (KeyError k)) ∧
  (∀ data before name after indicator_options r,
     path data = before +:+ "{" +:+ name +:+ "}" +:+ after →
     plain_name name →
     params_get (params data) name = None →
     is_Ok (format_map [] before) →
     get_indicator_options data = Ok indicator_options →
     r ∈ indicator_options →
     (params data = [] ∧
      r !! "path" = Some (JStr (before +:+ "{" +:+ name +:+ "}" +:+ after)))
     ∨ (params data ≠ [] ∧
        ∃ values before' after',
          values ∈ product (params data).*2 ∧
          format_map (zip (params data).*1 values) before = Ok before' ∧
          format_map (zip (params data).*1 values) after = Ok after' ∧
          r !! "path" =
          Some (JStr (before' +:+ "{" +:+ name +:+ "}" +:+ after')))) ∧
  (∀ data indicator_options r,
     params data = [] →
     get_indicator_options data = Ok indicator_options →
     r ∈ indicator_options →
     r !! "label" = Some (JStr (display_name data))) ∧
  (∀ data key key_values rest values more before name after,
     params data = (key, key_values) :: rest →
     product (params data).*2 = values :: more →
     display_name data = before +:+ "{" +:+ name +:+ "}" +:+ after →
     plain_name name →
     params_get (params data) name = None →
     no_braces key = true →
     is_Ok (format (zip (params data).*1 values)
              (if str_contains key (indicator_id data) then before
               else str_replace ("{" +:+ key +:+ "}") "" before)) →
     get_indicator_options data = Err (KeyError name)) ∧
  (∀ data values more before name after,
     product (params data).*2 = values :: more →
     is_Ok (display_and_path data values) →
     indicator_id data = before +:+ "{" +:+ name +:+ "}" +:+ after →
     plain_name name →
     params_get (params data) (replace_char "/" "_" name) = None →
     is_Ok (format (zip (params data).*1 values)
              (replace_char "/" "_" before)) →
     get_indicator_options data =
     Err (KeyError (replace_char "/" "_" name))).
Proof.
  split_and!.
  - apply format_map_no_KeyError.
  - intros data before name after indicator_options r Hpath Hname Hkey Hbefore
      Hok Hr.
    destruct (get_indicator_options_elem _ _ _ Hok Hr) as (values & Hin & Hrec).
    apply indicator_option_Ok in Hrec
      as (dn & p & id0 & -> & _ & [(Hnil & -> & _)|[Hne Hp]]).
    + left. split; [by apply (zip_params_nil _ _ Hin)|].
      rewrite (proj1 (proj2 (indicator_record_lookup _ _ _))).
      by rewrite Hpath.
    + right. split; [by rewrite <- (zip_params_nil _ _ Hin)|].
      rewrite Hpath in Hp.
      apply format_map_placeholder in Hp as (before' & after' & Hb & Ha & ->);
        [|done|by apply dict_get_zip_None|done].
      exists values, before', after'.
      by rewrite (proj1 (proj2 (indicator_record_lookup _ _ _))).
  - intros data indicator_options r Hparams Hok Hr.
    destruct (get_indicator_options_elem _ _ _ Hok Hr) as (values & Hin & Hrec).
    apply indicator_option_Ok in Hrec
      as (dn & p & id0 & -> & _ & [(_ & _ & ->)|[Hne _]]).
    + apply lookup_insert_eq.
    + by rewrite Hparams in Hne.
  - intros data key key_values rest values more before name after Hparams
      Hprod Hdn Hname Hkey Hbraces Hbefore.
    assert (values ∈ product (params data).*2) as Hin
      by (rewrite Hprod; by left).
    assert (name ≠ key) as Hne.
    { intros ->. rewrite Hparams in Hkey. simpl in Hkey.
      by rewrite decide_True in Hkey. }
    apply (get_indicator_options_first_error _ _ _ _ Hprod).
    rewrite indicator_option_display_and_path.
    rewrite (display_and_path_first _ _ _ _ _ (KeyError name) Hparams Hin);
      [done|].
    rewrite Hdn.
    destruct (str_contains key (indicator_id data)); cbn [negb].
    + apply format_placeholder_KeyError;
        [done|by apply dict_get_zip_None|done].
    + rewrite str_replace_field;
        [|done|by apply all_plain_no_braces, Hname|done].
      apply format_placeholder_KeyError;
        [done|by apply dict_get_zip_None|done].
  - intros data values more before name after Hprod [locals Hlocals] Hid
      Hname Hkey Hbefore.
    apply (get_indicator_options_first_error _ _ _ _ Hprod).
    rewrite indicator_option_display_and_path, Hlocals, Hid.
    rewrite !replace_char_app.
    change (replace_char "/" "_" "{") with "{".
    change (replace_char "/" "_" "}") with "}".
    rewrite format_placeholder_KeyError;
      [done|by apply plain_name_replace_char|by apply dict_get_zip_None|done].
Qed.

Lemma path_placeholder_kept_witness :
  ((params doc_unresolved_path = [] ∧
    ({[ "label" := JStr "Heat A"; "value" := JStr "heat_A";
        "path" := JStr "heat/A/{x}" ]} : record) !! "path" =
    Some (JStr ("heat/{gcm}/" +:+ "{" +:+ "x" +:+ "}" +:+ "")))
   ∨ (params doc_unresolved_path ≠ [] ∧
      ∃ values before' after',
        values ∈ product (params doc_unresolved_path).*2 ∧
        format_map (zip (params doc_unresolved_path).*1 values) "heat/{gcm}/"
          = Ok before' ∧
        format_map (zip (params doc_unresolved_path).*1 values) ""
          = Ok after' ∧
        ({[ "label" := JStr "Heat A"; "value" := JStr "heat_A";
            "path" := JStr "heat/A/{x}" ]} : record) !! "path" =
        Some (JStr (before' +:+ "{" +:+ "x" +:+ "}" +:+ after')))) ∧
  ({[ "label" := JStr "Heat {x}"; "value" := JStr "heat";
      "path" := JStr "heat/{x}" ]} : record) !! "label" =
    Some (JStr (display_name doc_display_unformatted)) ∧
  get_indicator_options doc_unresolved = Err (KeyError "x") ∧
  get_indicator_options doc_unresolved_id = Err (KeyError "x_y").
Proof.
  split_and!.
  - apply (proj1 (proj2 path_placeholder_kept) doc_unresolved_path
             "heat/{gcm}/" "x" ""
             [ {[ "label" := JStr "Heat A"; "value" := JStr "heat_A";
                  "path" := JStr "heat/A/{x}" ]} ]).
    + reflexivity.
    + split; reflexivity.
    + reflexivity.
    + eexists. vm_compute. reflexivity.
    + vm_compute. reflexivity.
    + by left.
  - apply (proj1 (proj2 (proj2 path_placeholder_kept))
             doc_display_unformatted
             [ {[ "label" := JStr "Heat {x}"; "value" := JStr "heat";
                  "path" := JStr "heat/{x}" ]} ]).
    + reflexivity.
    + vm_compute. reflexivity.
    + by left.
  - apply (proj1 (proj2 (proj2 (proj2 path_placeholder_kept)))
             doc_unresolved "gcm" ["A"] [] ["A"] [] "Heat " "x" "").
    + reflexivity.
    + reflexivity.
    + reflexivity.
    + split; reflexivity.
    + reflexivity.
    + reflexivity.
    + eexists. vm_compute. reflexivity.
  - apply (proj2 (proj2 (proj2 (proj2 path_placeholder_kept)))
             doc_unresolved_id ["A"] [] "heat/{gcm}/" "x/y" "").
    + reflexivity.
    + eexists. vm_compute. reflexivity.
    + reflexivity.
    + split; reflexivity.
    + reflexivity.
    + eexists. vm_compute. reflexivity.
Defined.

(** An unresolved placeholder in the display name makes the expansion
    fail. *)
Lemma display_name_placeholder_fails :
  get_indicator_options doc_unresolved = Err (KeyError "x") ∧
  ¬ is_Ok (get_indicator_options doc_unresolved).
Proof.
  assert (get_indicator_options doc_unresolved = Err (KeyError "x")) as H
    by (vm_compute; reflexivity).
  split; [done|]. rewrite H. by intros [? ?].
Qed.

(** C3. For every combination of the cross product, in its order, the
    value of the record emitted for it is the identifier template, in
    which every [/] has been replaced by [_], formatted with the
    combination (a substituted value keeps its own [/]); then [_] and the
    model id with its [/] replaced, when the model id is not empty; then
    [_] and the model [gcm], unless that is [unknown] or [{gcm}]. The
    records returned are these records, deduplicated: every combination
    has its record among them, and each of them is the record of a
    combination. *)
Theorem indicator_value_assembled
    (data : document) (indicator_options : list record) :
  let value_of (values : list string) (r : record) : Prop :=
    ∃ formatted,
      format (zip (params data).*1 values)
             (replace_char "/" "_" (indicator_id data)) = Ok formatted ∧
      r !! "value" =
      Some (JStr ((formatted
                   +:+ (if decide (indicator_model_id data = "") then ""
                        else "_" +:+ replace_char "/" "_"
                                       (indicator_model_id data)))
                  +:+ (if decide (indicator_model_gcm data = "unknown"
                                  ∨ indicator_model_gcm data = "{gcm}")
                       then "" else "_" +:+ indicator_model_gcm data))) in
  get_indicator_options data = Ok indicator_options →
  (∃ per_combination,
     Forall2 value_of (product (params data).*2) per_combination ∧
     indicator_options = dedupe_dict per_combination) ∧
  (∀ values, values ∈ product (params data).*2 →
     ∃ r, r ∈ indicator_options ∧ value_of values r) ∧
  (∀ r, r ∈ indicator_options →
     ∃ values, values ∈ product (params data).*2 ∧ value_of values r).
Proof.
  intros value_of Hok.
  assert (∀ values r, indicator_option data values = Ok r → value_of values r)
    as Hvalue.
  { intros values r Hrec.
    apply indicator_option_Ok in Hrec as (dn & p & id0 & -> & Hid & _).
    exists id0. split; [done|].
    by rewrite (proj1 (indicator_record_lookup _ _ _)). }
  unfold get_indicator_options in Hok.
  inv_bind Hok as per Hper. injection Hok as <-. apply mapM_Ok in Hper.
  split_and!.
  - exists per. split; [|done].
    eapply Forall2_impl; [exact Hper|]. exact Hvalue.
  - intros values [i Hi]%list_elem_of_lookup.
    destruct (Forall2_lookup_l _ _ _ _ _ Hper Hi) as (r & Hr & Hrec).
    exists r. split; [|by apply Hvalue].
    apply elem_of_dedupe_dict. by eapply list_elem_of_lookup_2.
  - intros r Hr. apply (proj1 (elem_of_dedupe_dict _ _)) in Hr.
    apply list_elem_of_lookup in Hr as [i Hi].
    destruct (Forall2_lookup_r _ _ _ _ _ Hper Hi) as (values & Hv & Hrec).
    exists values. split; [by eapply list_elem_of_lookup_2|by apply Hvalue].
Qed.

Lemma indicator_value_assembled_witness :
  let value_of (values : list string) (r : record) : Prop :=
    ∃ formatted,
      format (zip (params doc_models).*1 values) "heat_{gcm}" = Ok formatted ∧
      r !! "value" = Some (JStr ((formatted +:+ "_m_x") +:+ "_CanESM5")) in
  (∃ per_combination,
     Forall2 value_of [["A"]; ["B"]] per_combination ∧
     indicators_models = dedupe_dict per_combination) ∧
  (∀ values, values ∈ [["A"]; ["B"]] →
     ∃ r, r ∈ indicators_models ∧ value_of values r) ∧
  (∀ r, r ∈ indicators_models →
     ∃ values, values ∈ [["A"]; ["B"]] ∧ value_of values r).
Proof.
  apply (indicator_value_assembled doc_models indicators_models).
  vm_compute. reflexivity.
Defined.

(** A [/] that comes with a substituted value stays in the identifier,
    where formatting first and replacing afterwards would remove it. *)
Lemma indicator_value_keeps_slash :
  get_indicator_options doc_slash =
    Ok [ {[ "label" := JStr "Heat a/b"; "value" := JStr "x_a/b";
            "path" := JStr "heat/a/b" ]} ] ∧
  spec_indicator_value doc_slash [("gcm", "a/b")] = Ok "x_a_b".
Proof. split; vm_compute; reflexivity. Qed.

(** * Further properties *)

(** ** Merging without links *)

Lemma elem_of_labels_find (m : list record) (s : record) :
  s !! "label" ∈ labels m ↔ is_Some (list_find (same_label s) m).
Proof.
  unfold labels. rewrite list_elem_of_fmap. split.
  - intros (r & Hr & Hin).
    destruct (list_find (same_label s) m) as [[i y]|] eqn:Hfind; [by eexists|].
    apply list_find_None in Hfind.
    by destruct (proj1 (Forall_forall _ _) Hfind r Hin).
  - intros [[i r] (Hi & Hsame & _)%list_find_Some].
    exists r. split; [done|]. by eapply list_elem_of_lookup_2.
Qed.

Lemma merge_by_label_snoc (main single : list record) (s : record) :
  merge_by_label main (single ++ [s]) =
  if decide (s !! "label" ∈ labels (merge_by_label main single))
  then merge_by_label main single
  else merge_by_label main single ++ [s].
Proof. unfold merge_by_label. by rewrite foldl_app. Qed.

Lemma spec_merge_one_nil (m : list record) (s : record) :
  spec_merge_one [] m s =
  if decide (s !! "label" ∈ labels m) then m else m ++ [s].
Proof.
  unfold spec_merge_one.
  destruct (list_find _ _) as [[i r]|] eqn:Hfind.
  - rewrite decide_True by (apply elem_of_labels_find; by rewrite Hfind).
    apply list_find_Some in Hfind as (Hi & _). by apply list_insert_id.
  - rewrite decide_False; [done|].
    rewrite elem_of_labels_find, Hfind. by intros [? ?].
Qed.

Lemma spec_merge_nil (single main : list record) :
  spec_merge single main [] = merge_by_label main single.
Proof.
  unfold spec_merge, merge_by_label. revert main.
  induction single as [|s rest IH]; intros main; [done|].
  simpl. rewrite spec_merge_one_nil. apply IH.
Qed.

(** X1. Without link specifications [update_options] is the merge by
    label and nothing else: the records of the accumulator stay as they
    are, an incoming record whose label is there is dropped, any other is
    appended unchanged. It returns whenever every record has a label. *)
Theorem update_options_no_links (single_list main_list : list record) :
  (∀ main_list',
     update_options single_list main_list [] = Ok main_list' →
     main_list' = merge_by_label main_list single_list) ∧
  (Forall has_label single_list → Forall has_label main_list →
   update_options single_list main_list [] =
   Ok (merge_by_label main_list single_list)).
Proof.
  split.
  - intros m' ->%update_options_Ok. apply spec_merge_nil.
  - intros Hs Hm. rewrite <- spec_merge_nil.
    apply (update_options_total single_list main_list []); try done.
    + apply Forall_forall. intros r _. constructor.
    + constructor.
Qed.

Lemma update_options_no_links_witness :
  update_options [rec_heat_other; rec_model "A"] [rec_heat] [] =
  Ok [rec_heat; rec_model "A"].
Proof.
  refine (proj2 (update_options_no_links
            [rec_heat_other; rec_model "A"] [rec_heat]) _ _).
  - repeat constructor; by eexists.
  - repeat constructor; by eexists.
Defined.

(** ** The labels of an accumulator *)

Lemma labels_app (m1 m2 : list record) :
  labels (m1 ++ m2) = labels m1 ++ labels m2.
Proof. apply fmap_app. Qed.

Lemma merge_by_label_labels (main single : list record) :
  (NoDup (labels main) → NoDup (labels (merge_by_label main single))) ∧
  (∀ l, l ∈ labels (merge_by_label main single)
        ↔ l ∈ labels main ∨ l ∈ labels single) ∧
  length main ≤ length (merge_by_label main single)
              ≤ length main + length single.
Proof.
  induction single as [|s single (IHn & IHe & IHl)] using rev_ind.
  - split; [done|split; [|simpl; lia]].
    intros l. unfold labels at 3. simpl. rewrite elem_of_nil. tauto.
  - rewrite merge_by_label_snoc. case_decide as Hin.
    + split; [done|split; [|rewrite length_app; simpl; lia]].
      intros l. rewrite labels_app, elem_of_app, IHe.
      unfold labels at 4. simpl. rewrite list_elem_of_singleton.
      split; [tauto|]. intros [?|[?| ->]]; [tauto|tauto|].
      by apply IHe.
    + split; [|split].
      * intros Hn. rewrite labels_app. apply NoDup_app.
        split_and!; [by apply IHn| |apply NoDup_singleton].
        intros l Hl ->%list_elem_of_singleton. done.
      * intros l. rewrite !labels_app, !elem_of_app, IHe. tauto.
      * rewrite !length_app. simpl. lia.
Qed.

(** X2. A merge that returns leaves in the accumulator the labels it had
    and the incoming labels, and no others; labels that were pairwise
    distinct stay so; the accumulator gains at most one record per incoming
    record and loses none. *)
Theorem update_options_labels
    (single_list main_list : list record) (options_dicts : list option_dict)
    (main_list' : list record) :
  update_options single_list main_list options_dicts = Ok main_list' →
  "label" ∉ opt_name <$> options_dicts →
  (NoDup (labels main_list) → NoDup (labels main_list')) ∧
  (∀ l, l ∈ labels main_list'
        ↔ l ∈ labels main_list ∨ l ∈ labels single_list) ∧
  length main_list ≤ length main_list'
                   ≤ length main_list + length single_list.
Proof.
  intros ->%update_options_Ok Hlab.
  assert (Forall2 (same_outside options_dicts)
            (spec_merge single_list main_list (with_source options_dicts))
            (merge_by_label main_list single_list)) as Hall.
  { apply spec_merge_by_label; [done|].
    apply Forall_Forall2_diag, Forall_forall. intros r _.
    apply same_outside_refl. }
  pose proof (same_outside_labels _ _ _ Hlab Hall) as Hl.
  fold (labels (spec_merge single_list main_list (with_source options_dicts)))
    in Hl.
  fold (labels (merge_by_label main_list single_list)) in Hl.
  rewrite Hl, (Forall2_length _ _ _ Hall).
  apply merge_by_label_labels.
Qed.

Lemma update_options_labels_witness :
  NoDup (labels [ <["climate_model_options" := JList [JStr "A"; JStr "B"]]>
                    rec_heat_linked ]).
Proof.
  refine (proj1 (update_options_labels [rec_heat_other] [rec_heat_linked]
            [ {| opt_name := "climate_model_options";
                 opt_list := [rec_model "A"; rec_model "B"] |};
              {| opt_name := "scenario_options"; opt_list := [] |} ]
            _ _ _) _).
  - vm_compute. reflexivity.
  - intros H. repeat (apply elem_of_cons in H as [H|H]; [discriminate H|]).
    by apply elem_of_nil in H.
  - apply NoDup_singleton.
Defined.

(** ** The records that come out of a document *)

Lemma fresh_record_label r : fresh_record r → has_label r.
Proof. intros ([l Hl] & _). by eexists. Qed.

Lemma fresh_record_value r : fresh_record r → has_value r.
Proof. intros (_ & [v Hv] & _). by eexists. Qed.

Lemma get_hazard_types_singleton data :
  get_hazard_types data =
  [ {[ "label" := JStr (hazard_type_label (hazard_type data));
       "value" := JStr (hazard_type data) ]} ].
Proof. reflexivity. Qed.

Lemma get_menu_items_from_file_fresh_records data ind clim scen haz :
  get_menu_items_from_file data = Ok (ind, clim, scen, haz) →
  Forall fresh_record ind ∧ Forall fresh_record clim ∧
  Forall fresh_record scen ∧ Forall fresh_record haz.
Proof.
  intros (Hind & -> & -> & ->)%get_menu_items_from_file_Ok.
  split_and!.
  - apply Forall_forall. intros r Hr.
    destruct (get_indicator_options_elem _ _ _ Hind Hr) as (values & _ & Hok).
    apply indicator_option_Ok in Hok as (dn & p & id0 & -> & _).
    split_and!; [eexists|eexists|solve_no_links].
    + apply lookup_insert_eq.
    + rewrite lookup_insert_ne by done. apply lookup_insert_eq.
  - unfold get_climate_model_options. destruct (params_get _ _); [|done].
    apply Forall_fmap, Forall_forall. intros gcm _. simpl.
    split_and!; [eexists|eexists|solve_no_links].
    + rewrite lookup_insert_ne by done. apply lookup_singleton_eq.
    + apply lookup_insert_eq.
  - unfold get_scenario_options. apply Forall_forall.
    intros r Hr. apply (proj1 (elem_of_dedupe_dict _ _)) in Hr.
    apply list_elem_of_fmap in Hr as (scene & -> & _).
    split_and!; [eexists|eexists|solve_no_links].
    + apply lookup_insert_eq.
    + rewrite lookup_insert_ne by done. apply lookup_insert_eq.
  - rewrite get_hazard_types_singleton. apply Forall_singleton.
    split_and!; [eexists|eexists|solve_no_links].
    + apply lookup_insert_eq.
    + rewrite lookup_insert_ne by done. apply lookup_singleton_eq.
Qed.

(** X3. Every record that comes out of a document has a string label and a
    string value and no link array; an indicator record has the three
    fields [label], [value], [path] and no other; the hazard types are one
    record, whose value is the hazard type of the document. *)
Theorem get_menu_items_from_file_fresh (data : document)
    (indicator_options climate_model_options scenario_options hazard_types
       : list record) :
  get_menu_items_from_file data =
    Ok (indicator_options, climate_model_options, scenario_options,
        hazard_types) →
  Forall fresh_record indicator_options ∧
  Forall fresh_record climate_model_options ∧
  Forall fresh_record scenario_options ∧
  Forall fresh_record hazard_types ∧
  Forall (λ r : record, dom r = {["label"; "value"; "path"]})
         indicator_options ∧
  hazard_types =
    [ {[ "label" := JStr (hazard_type_label (hazard_type data));
         "value" := JStr (hazard_type data) ]} ].
Proof.
  intros Hitems.
  destruct (get_menu_items_from_file_fresh_records _ _ _ _ _ Hitems)
    as (Hi & Hc & Hs & Hh).
  apply get_menu_items_from_file_Ok in Hitems as (Hind & -> & -> & ->).
  split_and!; try done.
  apply Forall_forall. intros r Hr.
  destruct (get_indicator_options_elem _ _ _ Hind Hr) as (values & _ & Hok).
  apply indicator_option_Ok in Hok as (dn & p & id0 & -> & _).
  rewrite !dom_insert_L, dom_singleton_L. set_solver.
Qed.

Lemma get_menu_items_from_file_fresh_witness :
  Forall fresh_record
    [ ({[ "label" := JStr "Heat"; "value" := JStr "heat";
          "path" := JStr "heat" ]} : record) ].
Proof.
  refine (proj1 (get_menu_items_from_file_fresh doc_no_gcm _ _ _ _ _)).
  vm_compute. reflexivity.
Defined.

(** ** Invariants of the accumulators *)

Lemma Forall_spec_merge (P : record → Prop) os (single m : list record) :
  (∀ r k v, P r → P (<[k := v]> r)) →
  Forall P m → Forall P single → Forall P (spec_merge single m os).
Proof.
  intros Hins Hm Hsingle. unfold spec_merge. revert m Hm.
  assert (∀ f r l, (∀ r o, P r → P (f r o)) → P r →
                   P (foldl f r (l : list option_dict))) as Hfold.
  { intros f r l Hf. revert r. induction l; simpl; auto. }
  induction Hsingle as [|s rest Hs _ IH]; intros m Hm; simpl; [done|].
  apply IH. unfold spec_merge_one.
  destruct (list_find _ _) as [[i r]|] eqn:Hfind.
  - apply list_find_Some in Hfind as (Hi & _).
    apply Forall_insert; [done|]. apply Hfold.
    + intros r0 o. apply Hins.
    + by apply (proj1 (Forall_forall _ _) Hm), list_elem_of_lookup_2 with i.
  - apply Forall_app. split; [done|]. apply Forall_singleton, Hfold; [|done].
    intros r0 o. apply Hins.
Qed.

Lemma has_value_insert r k v : has_value r → has_value (<[k := v]> r).
Proof.
  unfold has_value. rewrite lookup_insert_is_Some.
  destruct (decide (k = "value")); auto.
Qed.

Lemma list_wf_spec_merge os (single m : list record) :
  "label" ∉ opt_name <$> os →
  list_wf m → Forall fresh_record single →
  list_wf (spec_merge single m (with_source os)).
Proof.
  intros Hlab (Hn & Hl & Hv) Hs. split_and!.
  - assert (Forall2 (same_outside os) (spec_merge single m (with_source os))
              (merge_by_label m single)) as Hall.
    { apply spec_merge_by_label; [done|].
      apply Forall_Forall2_diag, Forall_forall. intros r _.
      apply same_outside_refl. }
    pose proof (same_outside_labels _ _ _ Hlab Hall) as Heq.
    fold (labels (spec_merge single m (with_source os))) in Heq.
    fold (labels (merge_by_label m single)) in Heq.
    rewrite Heq. by apply merge_by_label_labels.
  - apply Forall_spec_merge; [apply has_label_insert|done|].
    eapply Forall_impl; [exact Hs|]. apply fresh_record_label.
  - apply Forall_spec_merge; [apply has_value_insert|done|].
    eapply Forall_impl; [exact Hs|]. apply fresh_record_value.
Qed.

Lemma not_elem_of_names (k : string) (os : list option_dict) :
  Forall (λ o, opt_name o ≠ k) os → k ∉ opt_name <$> os.
Proof.
  intros H (o & -> & Ho)%list_elem_of_fmap.
  by apply (proj1 (Forall_forall _ _) H o Ho).
Qed.

Lemma merge_document_wf acc data acc' :
  merge_document acc data = Ok acc' → menu_wf acc → menu_wf acc'.
Proof.
  intros (ind & clim & scen & haz & Hitems & Hh & Hi & Hc & Hs)%merge_document_Ok
    (Hc0 & Hs0 & Hi0 & Hh0).
  apply get_menu_items_from_file_fresh_records in Hitems
    as (Hfi & Hfc & Hfs & Hfh).
  unfold menu_wf. rewrite Hh, Hi, Hc, Hs.
  split_and!; apply list_wf_spec_merge; try done;
    apply not_elem_of_names; repeat constructor; done.
Qed.

(** X4. In the accumulators of a run that returns, every record has a
    label and a value and no two records of a list have the same label. *)
Theorem create_menu_options_wf (documents : list document)
    (acc : menu_options) :
  create_menu_options documents = Ok acc → menu_wf acc.
Proof.
  unfold create_menu_options.
  assert (menu_wf no_options) as H0.
  { repeat split; simpl; constructor. }
  revert H0. generalize no_options. 
  induction documents as [|d rest IH]; intros acc0 H0 H; simpl in H.
  - by injection H as <-.
  - inv_bind H as acc1 Hacc1. apply (IH acc1); [|done].
    by eapply merge_document_wf.
Qed.

Lemma create_menu_options_wf_witness :
  ∃ acc, create_menu_options [doc_no_gcm; doc_ssp245] = Ok acc ∧ menu_wf acc.
Proof.
  assert (is_Ok (create_menu_options [doc_no_gcm; doc_ssp245])) as [acc Hacc].
  { eexists. vm_compute. reflexivity. }
  exists acc. split; [done|].
  exact (create_menu_options_wf _ _ Hacc).
Defined.

(** ** The scenarios of a run *)

Lemma elem_of_merge_by_label (main single : list record) r :
  r ∈ merge_by_label main single → r ∈ main ∨ r ∈ single.
Proof.
  induction single as [|s l IHl] using rev_ind; [by left|].
  rewrite merge_by_label_snoc. case_decide.
  - intros [?|?]%IHl; [by left|right]. apply elem_of_app. by left.
  - intros [Hr| ->%list_elem_of_singleton]%elem_of_app.
    + destruct (IHl Hr); [by left|right]. apply elem_of_app. by left.
    + right. apply elem_of_app. right. by left.
Qed.

Lemma foldM_merge_scenarios (documents : list document)
    (acc0 acc : menu_options) :
  foldM merge_document acc0 documents = Ok acc →
  scenarioOptions acc =
    foldl (λ m data, merge_by_label m (get_scenario_options (scenarios data)))
          (scenarioOptions acc0) documents ∧
  ∀ r, r ∈ scenarioOptions acc →
       r ∈ scenarioOptions acc0 ∨
       ∃ data, data ∈ documents ∧ r ∈ get_scenario_options (scenarios data).
Proof.
  revert acc0. induction documents as [|d rest IH]; intros acc0 H; simpl in H.
  - injection H as <-. split; [done|]. intros r Hr. by left.
  - inv_bind H as acc1 Hacc1.
    apply merge_document_Ok in Hacc1
      as (ind & clim & scen & haz & Hitems & _ & _ & _ & Hs).
    apply get_menu_items_from_file_Ok in Hitems as (_ & _ & -> & _).
    change (with_source []) with (@nil option_dict) in Hs.
    rewrite spec_merge_nil in Hs. simpl. rewrite <- Hs.
    destruct (IH acc1 H) as [Heq Hin]. split; [done|].
    intros r Hr. destruct (Hin r Hr) as [Hr1|(data & Hd & Hrd)].
    + rewrite Hs in Hr1.
      apply elem_of_merge_by_label in Hr1 as [?|?]; [by left|right].
      exists d. split; [by left|done].
    + right. exists data. split; [by right|done].
Qed.

(** X5. The scenario list of a run that returns is the merge by label of
    the scenario lists of the documents, in their order: every record is a
    scenario record of some document, as that document gave it, so a label
    keeps the year options of the document that had it first. *)
Theorem create_menu_options_scenarios (documents : list document)
    (acc : menu_options) :
  create_menu_options documents = Ok acc →
  scenarioOptions acc =
    foldl (λ m data, merge_by_label m (get_scenario_options (scenarios data)))
          [] documents ∧
  ∀ r, r ∈ scenarioOptions acc →
       ∃ data, data ∈ documents ∧ r ∈ get_scenario_options (scenarios data).
Proof.
  intros [Heq Hin]%foldM_merge_scenarios. split; [done|].
  intros r Hr. destruct (Hin r Hr) as [Hr0|?]; [|done].
  by apply elem_of_nil in Hr0.
Qed.

Lemma create_menu_options_scenarios_witness :
  ∃ acc, create_menu_options [doc_with_gcm; doc_ssp245] = Ok acc
         ∧ scenarioOptions acc =
           [ {[ "label" := JStr "SSP1-2.6"; "value" := JStr "ssp126";
                "year_options" := JList [JNum 2050] ]};
             {[ "label" := JStr "SSP2-4.5"; "value" := JStr "ssp245";
                "year_options" := JList [JNum 2050] ]} ].
Proof.
  assert (is_Ok (create_menu_options [doc_with_gcm; doc_ssp245]))
    as [acc Hacc].
  { eexists. vm_compute. reflexivity. }
  exists acc. split; [done|].
  rewrite (proj1 (create_menu_options_scenarios _ _ Hacc)).
  vm_compute. reflexivity.
Defined.

(** ** Runs that return *)

Lemma spec_merge_wf os (single m : list record) :
  Forall has_label single → Forall has_label m →
  Forall (has_arrays os) m →
  Forall has_label (spec_merge single m (with_source os)) ∧
  Forall (has_arrays os) (spec_merge single m (with_source os)).
Proof.
  intros Hsingle. unfold spec_merge. revert m.
  induction Hsingle as [|s rest Hs _ IH]; intros m Hl Ha; simpl; [done|].
  destruct (spec_merge_one_wf os m s Hs Hl Ha) as [? ?]. by apply IH.
Qed.

Lemma Forall_fresh_label (l : list record) :
  Forall fresh_record l → Forall has_label l.
Proof. intros H. eapply Forall_impl; [exact H|]. apply fresh_record_label. Qed.

Lemma Forall_fresh_value (l : list record) :
  Forall fresh_record l → Forall has_value l.
Proof. intros H. eapply Forall_impl; [exact H|]. apply fresh_record_value. Qed.

Lemma merge_document_total acc data :
  menu_wf acc → menu_linked acc → full_document data →
  ∃ acc', merge_document acc data = Ok acc' ∧ menu_linked acc'.
Proof.
  intros (Hwc & Hws & Hwi & Hwh) (Hlh & Hli & Hlc)
    (ind & clim & scen & haz & Hitems & Hni & Hnc & Hns).
  pose proof (get_menu_items_from_file_fresh_records _ _ _ _ _ Hitems)
    as (Hfi & Hfc & Hfs & Hfh).
  set (os_h := [ {| opt_name := "indicator_options"; opt_list := ind |} ]).
  set (os_i := [ {| opt_name := "climate_model_options"; opt_list := clim |};
                 {| opt_name := "scenario_options"; opt_list := scen |} ]).
  set (os_c := [ {| opt_name := "scenario_options"; opt_list := scen |} ]).
  assert (Forall (has_arrays os_h) (hazardTypes acc)) as Hah.
  { eapply Forall_impl; [exact Hlh|]. intros r Hr.
    repeat constructor. by intros _. }
  assert (Forall (has_arrays os_i) (indicatorOptions acc)) as Hai.
  { eapply Forall_impl; [exact Hli|]. intros r [Hr1 Hr2].
    repeat constructor; by intros _. }
  assert (Forall (has_arrays os_c) (climateModelOptions acc)) as Hac.
  { eapply Forall_impl; [exact Hlc|]. intros r Hr.
    repeat constructor. by intros _. }
  destruct Hwc as (_ & Hlabc & _). destruct Hws as (_ & Hlabs & _).
  destruct Hwi as (_ & Hlabi & _). destruct Hwh as (_ & Hlabh & _).
  assert (update_options haz (hazardTypes acc) os_h =
          Ok (spec_merge haz (hazardTypes acc) (with_source os_h))) as Eh.
  { apply update_options_total; try done; [by apply Forall_fresh_label|].
    repeat constructor. by apply Forall_fresh_value. }
  assert (update_options ind (indicatorOptions acc) os_i =
          Ok (spec_merge ind (indicatorOptions acc) (with_source os_i))) as Ei.
  { apply update_options_total; try done; [by apply Forall_fresh_label|].
    repeat constructor; by apply Forall_fresh_value. }
  assert (update_options clim (climateModelOptions acc) os_c =
          Ok (spec_merge clim (climateModelOptions acc) (with_source os_c)))
    as Ec.
  { apply update_options_total; try done; [by apply Forall_fresh_label|].
    repeat constructor. by apply Forall_fresh_value. }
  assert (update_options scen (scenarioOptions acc) [] =
          Ok (spec_merge scen (scenarioOptions acc) (with_source []))) as Es.
  { apply update_options_total; try done; [by apply Forall_fresh_label| |].
    - apply Forall_forall. intros r _. constructor.
    - constructor. }
  eexists. split.
  - unfold merge_document. rewrite Hitems. simpl.
    fold os_h os_i os_c. rewrite Eh, Ei, Ec, Es. reflexivity.
  - unfold menu_linked. simpl. split_and!.
    + destruct (spec_merge_wf os_h haz (hazardTypes acc)) as [_ H];
        [by apply Forall_fresh_label|done|done|].
      eapply Forall_impl; [exact H|]. intros r Hr.
      apply Forall_cons in Hr as [Hr _]. by apply Hr.
    + destruct (spec_merge_wf os_i ind (indicatorOptions acc)) as [_ H];
        [by apply Forall_fresh_label|done|done|].
      eapply Forall_impl; [exact H|]. intros r Hr.
      apply Forall_cons in Hr as [Hr1 Hr].
      apply Forall_cons in Hr as [Hr2 _].
      split; [by apply Hr1|by apply Hr2].
    + destruct (spec_merge_wf os_c clim (climateModelOptions acc)) as [_ H];
        [by apply Forall_fresh_label|done|done|].
      eapply Forall_impl; [exact H|]. intros r Hr.
      apply Forall_cons in Hr as [Hr _]. by apply Hr.
Qed.

Lemma is_full_document_true (data : document) :
  is_full_document data = true → full_document data.
Proof.
  unfold is_full_document, full_document.
  destruct (get_menu_items_from_file data) as [[[[i c] s] h]|e]; [|done].
  destruct i as [|? ?]; [done|].
  destruct c as [|? ?]; [done|].
  destruct s as [|? ?]; [done|].
  intros _. by eexists _, _, _, _.
Qed.

(** X6. A run returns when every document expands without error and has
    at least one indicator, one climate model and one scenario; every record
    of its accumulators then holds the arrays that a later document would
    extend. *)
Theorem create_menu_options_total (documents : list document) :
  Forall full_document documents →
  ∃ acc, create_menu_options documents = Ok acc ∧ menu_linked acc.
Proof.
  unfold create_menu_options.
  assert (menu_wf no_options ∧ menu_linked no_options) as H0.
  { repeat split; simpl; constructor. }
  revert H0. generalize no_options.
  induction documents as [|d rest IH]; intros acc0 [Hwf Hlinked] Hdocs.
  - by exists acc0.
  - apply Forall_cons in Hdocs as [Hd Hrest].
    destruct (merge_document_total acc0 d Hwf Hlinked Hd) as (acc1 & H1 & Hl1).
    destruct (IH acc1) as (acc & Hacc & Hl); [|done|].
    + split; [by eapply merge_document_wf|done].
    + exists acc. split; [|done]. simpl. by rewrite H1.
Qed.

Lemma create_menu_options_total_witness :
  ∃ acc, create_menu_options [doc_with_gcm; doc_ssp245] = Ok acc
         ∧ menu_linked acc.
Proof.
  apply create_menu_options_total.
  repeat constructor; apply is_full_document_true; vm_compute; reflexivity.
Defined.

(** ** Merging the same records again *)

Lemma extend_links_sources r os r' :
  extend_links r os = Ok r' → sources_ok os.
Proof.
  unfold extend_links. revert r.
  induction os as [|o os IH]; intros r H; simpl in H; [constructor|].
  inv_bind H as r1 Hr1. constructor; [|by eapply IH].
  case_decide as Hne.
  - by apply extend_field_Ok in Hr1 as (? & _).
  - rewrite Hne. constructor.
Qed.

Lemma init_links_sources s os s' :
  init_links s os = Ok s' → sources_ok os.
Proof.
  unfold init_links. revert s.
  induction os as [|o os IH]; intros s H; simpl in H; [constructor|].
  inv_bind H as s1 Hs1. constructor; [|by eapply IH].
  case_decide as Hne.
  - inv_bind Hs1 as vs Hvs. by apply all_values_Ok in Hvs as [? _].
  - rewrite Hne. constructor.
Qed.

Lemma links_complete_grows os r r' :
  grows r r' → links_complete os r → links_complete os r'.
Proof.
  intros Hg H. eapply Forall_impl; [exact H|]. simpl.
  intros o [?|(arr & Harr & Hin)]; [by left|right].
  destruct (Hg _ _ Harr) as [ext Hext]. eexists. split; [done|].
  intros v Hv. apply elem_of_app. left. by apply Hin.
Qed.

Lemma links_complete_append os r :
  links_complete os (foldl spec_append r (with_source os)).
Proof.
  apply Forall_forall. intros o Ho.
  destruct (decide (opt_list o = [])) as [?|Hne]; [by left|right].
  assert (o ∈ with_source os) as Hin by (by apply list_elem_of_filter).
  clear Ho Hne. revert r.
  induction (with_source os) as [|o' l IH]; intros r; [by inversion Hin|].
  apply elem_of_cons in Hin as [->|Hin]; simpl; [|by apply IH].
  destruct (grows_foldl_append (spec_append r o') l (opt_name o')
              (array_of r (opt_name o')
               ++ filter (λ v, v ∉ array_of r (opt_name o'))
                         (value_list (opt_list o')))) as [ext Hext].
  { unfold spec_append. apply lookup_insert_eq. }
  eexists. split; [exact Hext|].
  intros v Hv. apply elem_of_app. left.
  destruct (decide (v ∈ array_of r (opt_name o'))).
  - apply elem_of_app. by left.
  - apply elem_of_app. right. by apply list_elem_of_filter.
Qed.

Lemma lookup_foldl_init r l k :
  k ∉ opt_name <$> l → foldl spec_init r l !! k = r !! k.
Proof.
  revert r. induction l as [|o l IH]; intros r Hk; [done|].
  rewrite fmap_cons in Hk. apply not_elem_of_cons in Hk as [Hne Hk].
  simpl. rewrite IH by done. unfold spec_init. by apply lookup_insert_ne.
Qed.

Lemma NoDup_names_with_source os :
  NoDup (opt_name <$> os) → NoDup (opt_name <$> with_source os).
Proof.
  unfold with_source. induction os as [|o os IH]; [done|].
  rewrite fmap_cons. intros [Hn Hos]%NoDup_cons.
  rewrite filter_cons. case_decide; [|by apply IH].
  rewrite fmap_cons. apply NoDup_cons. split; [|by apply IH].
  intros (o' & Heq & [_ Hin]%list_elem_of_filter)%list_elem_of_fmap.
  apply Hn. apply list_elem_of_fmap. by exists o'.
Qed.

Lemma links_complete_init os s :
  NoDup (opt_name <$> os) →
  links_complete os (foldl spec_init s (with_source os)).
Proof.
  intros Hnd%NoDup_names_with_source.
  apply Forall_forall. intros o Ho.
  destruct (decide (opt_list o = [])) as [?|Hne]; [by left|right].
  assert (o ∈ with_source os) as Hin by (by apply list_elem_of_filter).
  clear Ho Hne. revert s.
  induction (with_source os) as [|o' l IH]; intros s; [by inversion Hin|].
  rewrite fmap_cons in Hnd. apply NoDup_cons in Hnd as [Hn Hnd].
  apply elem_of_cons in Hin as [->|Hin]; simpl; [|by apply IH].
  exists (value_list (opt_list o')). split; [|done].
  rewrite lookup_foldl_init by done. unfold spec_init. apply lookup_insert_eq.
Qed.

Lemma filter_none {A} (P : A → Prop) `{∀ x, Decision (P x)} (l : list A) :
  (∀ x, x ∈ l → ¬ P x) → filter P l = [].
Proof.
  induction l as [|x l IH]; intros Hl; [done|].
  rewrite filter_cons_False by (apply Hl; by left).
  apply IH. intros y Hy. apply Hl. by right.
Qed.

Lemma extend_links_complete r os :
  sources_ok os → links_complete os r → extend_links r os = Ok r.
Proof.
  unfold extend_links. intros Hsrc Hc.
  induction Hsrc as [|o os Ho Hos IH]; [done|].
  apply Forall_cons in Hc as [Hc Hcs]. simpl.
  case_decide as Hne; [|by apply IH].
  destruct Hc as [?|(arr & Harr & Hin)]; [done|].
  assert (extend_field r (opt_name o) (opt_list o) = Ok r) as ->;
    [|by apply IH].
  destruct (extend_field_total r _ _ arr Ho Harr) as [r1 Hr1].
  rewrite Hr1. f_equal.
  apply extend_field_Ok in Hr1 as (_ & _ & ->).
  unfold spec_append, array_of. simpl. rewrite Harr.
  assert (filter (λ v, v ∉ arr) (value_list (opt_list o)) = []) as ->.
  { apply filter_none. intros v Hv Hnot. by apply Hnot, Hin. }
  rewrite app_nil_r. by apply insert_id.
Qed.

Lemma merge_into_Some s m os m' :
  merge_into s m os = Ok (Some m') →
  has_label s ∧
  ∃ i r r', list_find (same_label s) m = Some (i, r) ∧
            Forall has_label (take i m) ∧
            extend_links r os = Ok r' ∧ m' = <[i := r']> m.
Proof.
  revert m'. induction m as [|y rest IH]; intros m' H; simpl in H; [done|].
  inv_bind H as lm Hlm. inv_bind H as ls Hls.
  apply getitem_Ok in Hlm, Hls.
  assert (same_label s y ↔ lm = ls) as Hsame.
  { unfold same_label. rewrite Hlm, Hls.
    split; [by intros [= ->]|by intros ->]. }
  split; [by eexists|]. rewrite list_find_cons_same.
  case_decide as Heq.
  - inv_bind H as r1 Hr1. injection H as <-.
    rewrite decide_True by (by apply Hsame).
    exists 0, y, r1. by split_and!.
  - inv_bind H as found Hf. destruct found as [rest'|]; [|done].
    injection H as <-. rewrite decide_False by (by rewrite Hsame).
    destruct (IH _ Hf) as (_ & i & r & r' & -> & Htake & Hext & ->).
    exists (S i), r, r'. split_and!; try done.
    simpl. constructor; [by eexists|done].
Qed.

Lemma merge_into_None s m os :
  merge_into s m os = Ok None →
  list_find (same_label s) m = None ∧ Forall has_label m.
Proof.
  induction m as [|y rest IH]; intros H; simpl in H; [done|].
  inv_bind H as lm Hlm. inv_bind H as ls Hls.
  apply getitem_Ok in Hlm, Hls.
  assert (same_label s y ↔ lm = ls) as Hsame.
  { unfold same_label. rewrite Hlm, Hls.
    split; [by intros [= ->]|by intros ->]. }
  rewrite list_find_cons_same. case_decide as Heq.
  - inv_bind H as r1 Hr1. done.
  - inv_bind H as found Hf. destruct found as [rest'|]; [done|].
    rewrite decide_False by (by rewrite Hsame).
    destruct (IH Hf) as [-> Hl]. split; [done|].
    constructor; [by eexists|done].
Qed.

Lemma merge_into_found s m os i r r' :
  has_label s → list_find (same_label s) m = Some (i, r) →
  Forall has_label (take i m) → extend_links r os = Ok r' →
  merge_into s m os = Ok (Some (<[i := r']> m)).
Proof.
  intros [ls Hls] Hfind Htake Hext. revert i Hfind Htake.
  induction m as [|y rest IH]; intros i Hfind Htake; [done|].
  rewrite list_find_cons_same in Hfind. simpl.
  case_decide as Hsame.
  - injection Hfind as <- <-. unfold same_label in Hsame.
    unfold getitem. rewrite Hsame, Hls. simpl.
    rewrite decide_True by done. by rewrite Hext.
  - destruct (list_find (same_label s) rest) as [[j r0]|] eqn:Hrest;
      [|done].
    injection Hfind as <- <-. simpl in Htake.
    apply Forall_cons in Htake as [[ly Hly] Htake].
    unfold getitem. rewrite Hly, Hls. simpl.
    rewrite decide_False.
    2:{ intros ->. apply Hsame. unfold same_label. by rewrite Hly, Hls. }
    by rewrite (IH j eq_refl Htake).
Qed.

Lemma absorbed_update_one os m s :
  has_label s → sources_ok os → absorbed os m s →
  update_one os m s = Ok m.
Proof.
  intros Hs Hsrc (i & r & Hfind & Htake & Hc). unfold update_one.
  rewrite (merge_into_found s m os i r r Hs Hfind Htake
             (extend_links_complete r os Hsrc Hc)).
  simpl. f_equal. apply list_insert_id.
  by apply list_find_Some in Hfind as (? & _).
Qed.

Lemma same_label_append s r os :
  "label" ∉ opt_name <$> os →
  same_label s (foldl spec_append r (with_source os)) ↔ same_label s r.
Proof.
  intros Hlab. unfold same_label.
  by rewrite (same_outside_foldl_append os (with_source os) r
                (with_source_names os) "label" Hlab).
Qed.

Lemma update_one_absorbs os m s m1 :
  update_one os m s = Ok m1 → has_label s →
  "label" ∉ opt_name <$> os → NoDup (opt_name <$> os) →
  absorbed os m1 s ∧ sources_ok os.
Proof.
  intros H Hs Hlab Hnd. unfold update_one in H. inv_bind H as found Hf.
  destruct found as [m'|].
  - injection H as <-.
    apply merge_into_Some in Hf
      as (_ & i & r & r' & Hfind & Htake & Hext & ->).
    split; [|by eapply extend_links_sources].
    apply extend_links_Ok in Hext as ->.
    apply list_find_Some in Hfind as (Hi & Hsame & Hbefore).
    exists i, (foldl spec_append r (with_source os)). split_and!.
    + apply list_find_Some. split_and!.
      * apply list_lookup_insert_eq. by eapply lookup_lt_Some.
      * by apply same_label_append.
      * intros j y Hj Hlt. rewrite list_lookup_insert_ne in Hj by lia.
        by eapply Hbefore.
    + by rewrite take_insert_ge by lia.
    + apply links_complete_append.
  - apply merge_into_None in Hf as [Hfind Hl].
    inv_bind H as s' Hs'. injection H as <-.
    assert (s' = foldl spec_init s (with_source os) ∧ sources_ok os)
      as [-> Hsrc].
    { case_decide as Hne.
      - split; [by apply init_links_Ok|by eapply init_links_sources].
      - injection Hs' as <-. subst os. split; [done|constructor]. }
    split; [|done].
    apply list_find_None in Hfind.
    exists (length m), (foldl spec_init s (with_source os)). split_and!.
    + apply list_find_Some. split_and!.
      * by rewrite lookup_app_r, Nat.sub_diag by lia.
      * unfold same_label.
        by rewrite (same_outside_foldl_init os (with_source os) s
                      (with_source_names os) "label" Hlab).
      * intros j y Hj Hlt. rewrite lookup_app_l in Hj by done.
        apply (proj1 (Forall_forall _ _) Hfind).
        by eapply list_elem_of_lookup_2.
    + by rewrite take_app_length.
    + by apply links_complete_init.
Qed.

Lemma absorbed_update_one_other os m s t m1 :
  absorbed os m s → update_one os m t = Ok m1 →
  "label" ∉ opt_name <$> os → absorbed os m1 s.
Proof.
  intros (i & r & Hfind & Htake & Hc) H Hlab.
  apply update_one_Ok in H as ->. unfold spec_merge_one.
  apply list_find_Some in Hfind as (Hi & Hsame & Hbefore).
  pose proof (lookup_lt_Some _ _ _ Hi) as Hlen.
  destruct (list_find (same_label t) m) as [[j rt]|] eqn:Hfindt.
  - apply list_find_Some in Hfindt as (Hj & _ & _).
    pose proof (lookup_lt_Some _ _ _ Hj) as Hlenj.
    set (rt' := foldl spec_append rt (with_source os)).
    exists i, (if decide (i = j) then rt' else r). subst rt'. split_and!.
    + apply list_find_Some. split_and!.
      * case_decide as Hij.
        -- subst j. by apply list_lookup_insert_eq.
        -- by rewrite list_lookup_insert_ne.
      * case_decide as Hij; [|done]. subst j.
        rewrite Hi in Hj. injection Hj as <-. by apply same_label_append.
      * intros k y Hk Hlt. destruct (decide (j = k)) as [->|Hjk].
        -- rewrite list_lookup_insert_eq in Hk by done. injection Hk as <-.
           rewrite same_label_append by done. by eapply Hbefore.
        -- rewrite list_lookup_insert_ne in Hk by done. by eapply Hbefore.
    + apply Forall_forall. intros y Hy.
      apply list_elem_of_lookup in Hy as [k Hk].
      pose proof (lookup_lt_Some _ _ _ Hk) as Hklen.
      rewrite length_take, length_insert in Hklen.
      rewrite lookup_take_lt in Hk by lia.
      destruct (decide (j = k)) as [->|Hjk].
      * rewrite list_lookup_insert_eq in Hk by done. injection Hk as <-.
        apply has_label_foldl_append.
        apply (proj1 (Forall_forall _ _) Htake).
        apply list_elem_of_lookup. exists k.
        by rewrite lookup_take_lt by lia.
      * rewrite list_lookup_insert_ne in Hk by done.
        apply (proj1 (Forall_forall _ _) Htake).
        apply list_elem_of_lookup. exists k.
        by rewrite lookup_take_lt by lia.
    + case_decide as Hij; [|done]. subst j.
      rewrite Hi in Hj. injection Hj as <-.
      eapply links_complete_grows; [apply grows_foldl_append|done].
  - exists i, r. split_and!; [|by rewrite take_app_le by lia|done].
    apply list_find_Some. split_and!; [by apply lookup_app_l_Some|done|].
    intros k y Hk Hlt. rewrite lookup_app_l in Hk by lia. by eapply Hbefore.
Qed.

Lemma update_options_absorbs os single m m' :
  update_options single m os = Ok m' → Forall has_label single →
  "label" ∉ opt_name <$> os → NoDup (opt_name <$> os) →
  Forall (absorbed os m') single ∧ (single ≠ [] → sources_ok os).
Proof.
  intros H Hsingle Hlab Hnd. unfold update_options in H. revert m H.
  induction Hsingle as [|s rest Hs _ IH]; intros m H; simpl in H; [done|].
  inv_bind H as m1 Hm1.
  destruct (update_one_absorbs _ _ _ _ Hm1 Hs Hlab Hnd) as [Habs Hsrc].
  destruct (IH _ H) as [Hrest _]. split; [|done].
  constructor; [|done].
  clear IH Hrest Hm1. revert m1 H Habs.
  induction rest as [|t rest IHr]; intros m1 H Habs; simpl in H.
  - by injection H as <-.
  - inv_bind H as m2 Hm2. apply (IHr m2 H).
    by eapply absorbed_update_one_other.
Qed.

Lemma update_options_fixed os single m m' :
  update_options single m os = Ok m' → Forall has_label single →
  "label" ∉ opt_name <$> os → NoDup (opt_name <$> os) →
  update_options single m' os = Ok m'.
Proof.
  intros H Hsingle Hlab Hnd.
  destruct (update_options_absorbs _ _ _ _ H Hsingle Hlab Hnd) as [Habs Hsrc].
  clear H. unfold update_options.
  induction Habs as [|s rest Hs Hrest IH]; [done|].
  apply Forall_cons in Hsingle as [Hls Hsingle]. simpl.
  rewrite absorbed_update_one; [|done|by apply Hsrc|done].
  simpl. apply IH; [done|]. intros _. by apply Hsrc.
Qed.

Lemma update_options_complete_record os single m m' :
  update_options single m os = Ok m' → Forall has_label single →
  "label" ∉ opt_name <$> os → NoDup (opt_name <$> os) →
  ∀ s, s ∈ single →
    ∃ r, r ∈ m' ∧ r !! "label" = s !! "label" ∧ links_complete os r.
Proof.
  intros H Hsingle Hlab Hnd s Hs.
  destruct (update_options_absorbs _ _ _ _ H Hsingle Hlab Hnd) as [Habs _].
  destruct (proj1 (Forall_forall _ _) Habs s Hs) as (i & r & Hfind & _ & Hc).
  apply list_find_Some in Hfind as (Hi & Hsame & _).
  exists r. split_and!; [by eapply list_elem_of_lookup_2|done|done].
Qed.

(** X7. Merging the same records a second time changes nothing: when a
    call returns and every incoming record has a label (the link names
    being pairwise distinct and none of them [label]), the same call on the
    result returns the result. *)
Theorem update_options_again
    (single_list main_list : list record) (options_dicts : list option_dict)
    (main_list' : list record) :
  update_options single_list main_list options_dicts = Ok main_list' →
  Forall has_label single_list →
  "label" ∉ opt_name <$> options_dicts →
  NoDup (opt_name <$> options_dicts) →
  update_options single_list main_list' options_dicts = Ok main_list'.
Proof.
  intros H Hsingle Hlab Hnd.
  pose proof (update_options_fixed _ _ _ _ H Hsingle Hlab Hnd) as Hfixed.
  exact Hfixed.
Qed.

Lemma update_options_again_witness :
  update_options [rec_heat_other]
    [ <["climate_model_options" := JList [JStr "A"; JStr "B"]]>
        rec_heat_linked ]
    [ {| opt_name := "climate_model_options";
         opt_list := [rec_model "A"; rec_model "B"] |};
      {| opt_name := "scenario_options"; opt_list := [] |} ] =
  Ok [ <["climate_model_options" := JList [JStr "A"; JStr "B"]]>
         rec_heat_linked ].
Proof.
  apply (update_options_again [rec_heat_other] [rec_heat_linked]).
  - vm_compute. reflexivity.
  - repeat constructor. by eexists.
  - intros H. repeat (apply elem_of_cons in H as [H|H]; [discriminate H|]).
    by apply elem_of_nil in H.
  - repeat constructor; intros H;
      repeat (apply elem_of_cons in H as [H|H]; [discriminate H|]);
      by apply elem_of_nil in H.
Defined.

(** X8. After a call that returns, every incoming record finds in the
    accumulator a record with its label that holds, under the name of every
    link specification with a source, an array with all values of that
    source. *)
Theorem update_options_links_complete
    (single_list main_list : list record) (options_dicts : list option_dict)
    (main_list' : list record) :
  update_options single_list main_list options_dicts = Ok main_list' →
  Forall has_label single_list →
  "label" ∉ opt_name <$> options_dicts →
  NoDup (opt_name <$> options_dicts) →
  ∀ s, s ∈ single_list →
    ∃ r, r ∈ main_list' ∧ r !! "label" = s !! "label" ∧
         links_complete options_dicts r.
Proof.
  intros H Hsingle Hlab Hnd s Hs.
  destruct (update_options_complete_record _ _ _ _ H Hsingle Hlab Hnd s Hs)
    as (r & Hr & Hl & Hc).
  by exists r.
Qed.

Lemma update_options_links_complete_witness :
  ∃ r, r ∈ [ <["climate_model_options" := JList [JStr "A"; JStr "B"]]>
               rec_heat_linked ] ∧
       r !! "label" = rec_heat_other !! "label" ∧
       links_complete
         [ {| opt_name := "climate_model_options";
              opt_list := [rec_model "A"; rec_model "B"] |};
           {| opt_name := "scenario_options"; opt_list := [] |} ] r.
Proof.
  apply (update_options_links_complete [rec_heat_other] [rec_heat_linked]).
  - vm_compute. reflexivity.
  - repeat constructor. by eexists.
  - intros H. repeat (apply elem_of_cons in H as [H|H]; [discriminate H|]).
    by apply elem_of_nil in H.
  - repeat constructor; intros H;
      repeat (apply elem_of_cons in H as [H|H]; [discriminate H|]);
      by apply elem_of_nil in H.
  - by left.
Defined.

(** ** Merging the same document again *)

Lemma NoDup_names_1 n l :
  NoDup (opt_name <$> [ {| opt_name := n; opt_list := l |} ]).
Proof. apply NoDup_singleton. Qed.

Lemma NoDup_names_2 n1 l1 n2 l2 :
  n1 ≠ n2 →
  NoDup (opt_name <$> [ {| opt_name := n1; opt_list := l1 |};
                        {| opt_name := n2; opt_list := l2 |} ]).
Proof.
  intros Hne. rewrite !fmap_cons, fmap_nil. simpl.
  apply NoDup_cons. split; [|apply NoDup_singleton].
  by intros ->%list_elem_of_singleton.
Qed.

(** X9. Merging a document that has just been merged changes nothing: the
    second merge returns the accumulators of the first. *)
Theorem merge_document_again (acc acc' : menu_options) (data : document) :
  merge_document acc data = Ok acc' →
  merge_document acc' data = Ok acc'.
Proof.
  unfold merge_document. intros H.
  inv_bind H as [[[ind clim] scen] haz] Hitems.
  inv_bind H as haz' Hhaz. inv_bind H as ind' Hind.
  inv_bind H as clim' Hclim. inv_bind H as scen' Hscen.
  injection H as <-. rewrite Hitems. simpl.
  apply get_menu_items_from_file_fresh_records in Hitems
    as (Hfi & Hfc & Hfs & Hfh).
  rewrite (update_options_fixed _ _ _ _ Hhaz);
    [|by apply Forall_fresh_label
     |apply not_elem_of_names; by repeat constructor
     |apply NoDup_names_1].
  rewrite (update_options_fixed _ _ _ _ Hind);
    [|by apply Forall_fresh_label
     |apply not_elem_of_names; by repeat constructor
     |by apply NoDup_names_2].
  rewrite (update_options_fixed _ _ _ _ Hclim);
    [|by apply Forall_fresh_label
     |apply not_elem_of_names; by repeat constructor
     |apply NoDup_names_1].
  rewrite (update_options_fixed _ _ _ _ Hscen);
    [|by apply Forall_fresh_label
     |apply not_elem_of_names; by repeat constructor
     |constructor].
  reflexivity.
Qed.

Lemma merge_document_again_witness :
  ∃ acc', merge_document no_options doc_ssp245 = Ok acc' ∧
          merge_document acc' doc_ssp245 = Ok acc'.
Proof.
  assert (is_Ok (merge_document no_options doc_ssp245)) as [acc' Hacc'].
  { eexists. vm_compute. reflexivity. }
  exists acc'. split; [done|].
  exact (merge_document_again _ _ _ Hacc').
Defined.

(** X10. After a document has been merged, each of its records has in the
    accumulator a record with its label that links to everything the
    document has: the hazard type to every indicator value, every indicator
    to every climate model value and every scenario value, every climate
    model to every scenario value. *)
Theorem merge_document_links (acc acc' : menu_options) (data : document)
    (indicator_options climate_model_options scenario_options hazard_types
       : list record) :
  merge_document acc data = Ok acc' →
  get_menu_items_from_file data =
    Ok (indicator_options, climate_model_options, scenario_options,
        hazard_types) →
  (∀ s, s ∈ hazard_types →
     ∃ r, r ∈ hazardTypes acc' ∧ r !! "label" = s !! "label" ∧
       ∀ v, v ∈ value_list indicator_options →
         ∃ arr, r !! "indicator_options" = Some (JList arr) ∧ v ∈ arr) ∧
  (∀ s, s ∈ indicator_options →
     ∃ r, r ∈ indicatorOptions acc' ∧ r !! "label" = s !! "label" ∧
       (∀ v, v ∈ value_list climate_model_options →
          ∃ arr, r !! "climate_model_options" = Some (JList arr) ∧ v ∈ arr) ∧
       (∀ v, v ∈ value_list scenario_options →
          ∃ arr, r !! "scenario_options" = Some (JList arr) ∧ v ∈ arr)) ∧
  (∀ s, s ∈ climate_model_options →
     ∃ r, r ∈ climateModelOptions acc' ∧ r !! "label" = s !! "label" ∧
       ∀ v, v ∈ value_list scenario_options →
         ∃ arr, r !! "scenario_options" = Some (JList arr) ∧ v ∈ arr).
Proof.
  unfold merge_document. intros H Hitems. rewrite Hitems in H. simpl in H.
  inv_bind H as haz' Hhaz. inv_bind H as ind' Hind.
  inv_bind H as clim' Hclim. inv_bind H as scen' Hscen.
  injection H as <-. simpl.
  apply get_menu_items_from_file_fresh_records in Hitems
    as (Hfi & Hfc & Hfs & Hfh).
  assert (∀ (o : option_dict) (r : record) v,
            (opt_list o = [] ∨
             ∃ arr, r !! opt_name o = Some (JList arr) ∧
                    ∀ v, v ∈ value_list (opt_list o) → v ∈ arr) →
            v ∈ value_list (opt_list o) →
            ∃ arr, r !! opt_name o = Some (JList arr) ∧ v ∈ arr) as Hget.
  { intros o r v [Hnil|(arr & Harr & Hin)] Hv.
    - rewrite Hnil in Hv. by apply elem_of_nil in Hv.
    - exists arr. split; [done|by apply Hin]. }
  split_and!.
  - intros s Hs.
    destruct (update_options_complete_record _ _ _ _ Hhaz) with s
      as (r & Hr & Hl & Hc);
      [by apply Forall_fresh_label
      |apply not_elem_of_names; by repeat constructor
      |apply NoDup_names_1|done|].
    exists r. split_and!; [done|done|]. intros v Hv.
    apply Forall_cons in Hc as [Hc _]. by apply (Hget _ _ _ Hc).
  - intros s Hs.
    destruct (update_options_complete_record _ _ _ _ Hind) with s
      as (r & Hr & Hl & Hc);
      [by apply Forall_fresh_label
      |apply not_elem_of_names; by repeat constructor
      |by apply NoDup_names_2|done|].
    exists r. apply Forall_cons in Hc as [Hc1 Hc].
    apply Forall_cons in Hc as [Hc2 _].
    split_and!; [done|done| |]; intros v Hv.
    + by apply (Hget _ _ _ Hc1).
    + by apply (Hget _ _ _ Hc2).
  - intros s Hs.
    destruct (update_options_complete_record _ _ _ _ Hclim) with s
      as (r & Hr & Hl & Hc);
      [by apply Forall_fresh_label
      |apply not_elem_of_names; by repeat constructor
      |apply NoDup_names_1|done|].
    exists r. split_and!; [done|done|]. intros v Hv.
    apply Forall_cons in Hc as [Hc _]. by apply (Hget _ _ _ Hc).
Qed.

Lemma merge_document_links_witness :
  ∃ acc' ind clim scen haz,
    get_menu_items_from_file doc_ssp245 = Ok (ind, clim, scen, haz) ∧
    ∀ s, s ∈ haz →
      ∃ r, r ∈ hazardTypes acc' ∧ r !! "label" = s !! "label" ∧
        ∀ v, v ∈ value_list ind →
          ∃ arr, r !! "indicator_options" = Some (JList arr) ∧ v ∈ arr.
Proof.
  assert (is_Ok (get_menu_items_from_file doc_ssp245))
    as [[[[ind clim] scen] haz] Hitems].
  { eexists. vm_compute. reflexivity. }
  assert (is_Ok (merge_document no_options doc_ssp245)) as [acc' Hacc'].
  { eexists. vm_compute. reflexivity. }
  exists acc', ind, clim, scen, haz. split; [done|].
  exact (proj1 (merge_document_links _ _ _ _ _ _ _ Hacc' Hitems)).
Defined.

(** ** The expansion of the indicators, further *)

Lemma product_with_nil {A} (lists : list (list A)) :
  [] ∈ lists → product lists = [].
Proof.
  induction lists as [|l rest IH]; intros H; [by apply elem_of_nil in H|].
  rewrite product_cons. apply elem_of_cons in H as [<-|H]; [done|].
  rewrite (IH H). induction l as [|x l IHl]; [done|].
  by rewrite bind_cons, fmap_nil, IHl.
Qed.

(** X11. A parameter with an empty list of values leaves no combination:
    the expansion returns no indicator and formats nothing, whatever the
    templates hold. *)
Theorem get_indicator_options_no_values (data : document) (key : string) :
  (key, []) ∈ params data → get_indicator_options data = Ok [].
Proof.
  intros H. unfold get_indicator_options.
  rewrite product_with_nil; [done|].
  apply list_elem_of_fmap. by exists (key, []).
Qed.

Lemma get_indicator_options_no_values_witness :
  get_indicator_options doc_no_values = Ok [].
Proof.
  apply (get_indicator_options_no_values doc_no_values "rcp").
  right. by left.
Defined.

Lemma fst_zip_product (params : list (string * list string)) values :
  values ∈ product params.*2 → (zip params.*1 values).*1 = params.*1.
Proof.
  intros H%product_elem_length. apply fst_zip.
  rewrite !length_fmap in *. lia.
Qed.

Lemma foldM_assign_names_last data param_dict locals0 all_keys keys key
    locals :
  all_keys = keys ++ [key] →
  foldM (assign_names data param_dict) locals0 all_keys = Ok locals →
  ∃ display_name' path',
    locals = Some (display_name', path') ∧
    format param_dict
      (if str_contains key (indicator_id data) then display_name data
       else str_replace ("{" +:+ key +:+ "}") "" (display_name data))
    = Ok display_name'.
Proof.
  intros ->. rewrite foldM_app. intros H. inv_bind H as l1 Hl1. simpl in H.
  inv_bind H as l2 Hl2. injection H as <-.
  unfold assign_names in Hl2.
  inv_bind Hl2 as dn Hdn. inv_bind Hl2 as p Hp. injection Hl2 as <-.
  exists dn, p. split; [done|].
  by destruct (str_contains key (indicator_id data)).
Qed.

(** X12. With parameters, the label of an indicator record is decided by
    the last parameter key alone: it is the display name formatted with the
    combination when that key occurs in the text of the identifier
    template, and otherwise the display name formatted after the
    placeholder of that key has been taken out of it. *)
Theorem indicator_label_last_key (data : document)
    (before : list (string * list string)) (key : string)
    (vals : list string) (indicator_options : list record) (r : record) :
  params data = before ++ [(key, vals)] →
  get_indicator_options data = Ok indicator_options →
  r ∈ indicator_options →
  ∃ values display_name',
    values ∈ product (params data).*2 ∧
    format (zip (params data).*1 values)
      (if str_contains key (indicator_id data) then display_name data
       else str_replace ("{" +:+ key +:+ "}") "" (display_name data))
    = Ok display_name' ∧
    r !! "label" = Some (JStr display_name').
Proof.
  intros Hparams Hok Hr.
  destruct (get_indicator_options_elem _ _ _ Hok Hr) as (values & Hin & Hrec).
  exists values. unfold indicator_option in Hrec.
  rewrite (fst_zip_product _ _ Hin) in Hrec.
  inv_bind Hrec as locals Hlocals. inv_bind Hrec as id0 Hid0.
  assert ((params data).*1 = before.*1 ++ [key]) as Hkeys.
  { rewrite Hparams, fmap_app. reflexivity. }
  apply (foldM_assign_names_last _ _ _ _ _ _ _ Hkeys) in Hlocals
    as (dn & p & -> & Hdn).
  injection Hrec as <-. exists dn. split_and!; [done|done|].
  apply lookup_insert_eq.
Qed.

Lemma indicator_label_last_key_witness :
  ∃ values display_name',
    values ∈ product (params doc_gcm_rcp).*2 ∧
    format (zip (params doc_gcm_rcp).*1 values)
      (if str_contains "rcp" (indicator_id doc_gcm_rcp)
       then display_name doc_gcm_rcp
       else str_replace ("{" +:+ "rcp" +:+ "}") "" (display_name doc_gcm_rcp))
    = Ok display_name' ∧
    ({[ "label" := JStr "Heat A 45"; "value" := JStr "heat_A_45";
        "path" := JStr "heat/A/45" ]} : record) !! "label"
    = Some (JStr display_name').
Proof.
  apply (indicator_label_last_key doc_gcm_rcp [("gcm", ["A"; "B"])] "rcp"
           ["45"; "85"]
           [ {[ "label" := JStr "Heat A 45"; "value" := JStr "heat_A_45";
                "path" := JStr "heat/A/45" ]};
             {[ "label" := JStr "Heat A 85"; "value" := JStr "heat_A_85";
                "path" := JStr "heat/A/85" ]};
             {[ "label" := JStr "Heat B 45"; "value" := JStr "heat_B_45";
                "path" := JStr "heat/B/45" ]};
             {[ "label" := JStr "Heat B 85"; "value" := JStr "heat_B_85";
                "path" := JStr "heat/B/85" ]} ]).
  - reflexivity.
  - vm_compute. reflexivity.
  - by left.
Defined.

(** X13. Without parameters the display name and the path are taken as
    they are, but the identifier template is still formatted: a
    placeholder in it raises [KeyError], whatever the rest of the document
    holds. *)
Theorem get_indicator_options_id_placeholder (data : document)
    (before name after : string) :
  params data = [] →
  replace_char "/" "_" (indicator_id data)
    = before +:+ "{" +:+ name +:+ "}" +:+ after →
  plain_name name → is_Ok (format [] before) →
  get_indicator_options data = Err (KeyError name).
Proof.
  intros Hparams Hid Hname Hbefore.
  unfold get_indicator_options. rewrite Hparams. simpl.
  unfold indicator_option. rewrite Hparams. simpl. rewrite Hid.
  by rewrite format_placeholder_KeyError.
Qed.

Lemma get_indicator_options_id_placeholder_witness :
  get_indicator_options doc_id_placeholder = Err (KeyError "gcm").
Proof.
  apply (get_indicator_options_id_placeholder doc_id_placeholder
           "heat_" "gcm" "").
  - reflexivity.
  - reflexivity.
  - split; reflexivity.
  - eexists. vm_compute. reflexivity.
Defined.

(** ** Laws of formatting *)

Lemma is_Ok_bind {A B} (m : result A) (f : A → result B) :
  is_Ok (m ≫= f) → ∃ a, m = Ok a ∧ is_Ok (f a).
Proof.
  intros [b Hb]. apply bind_Ok in Hb as (a & Ha & Hb).
  exists a. split; [done|by exists b].
Qed.

Lemma is_Ok_fmap {A B} (f : A → B) (m : result A) :
  is_Ok (f <$> m) → is_Ok m.
Proof. intros [b Hb]. apply fmap_Ok in Hb as (a & Ha & _). by exists a. Qed.

Lemma Ok_bind {A B} (a : A) (f : A → result B) : Ok a ≫= f = f a.
Proof. reflexivity. Qed.

Lemma Err_bind {A B} (e : error) (f : A → result B) : Err e ≫= f = Err e.
Proof. reflexivity. Qed.

Lemma not_is_Ok_Err {A} (e : error) : ¬ is_Ok (@Err A e).
Proof. by intros [? ?]. Qed.

Lemma format_go_app_Err field field' s :
  ∀ fld t e,
    format_go field fld s = Err e →
    is_Ok (format_go field' fld s) →
    format_go field fld (s +:+ t) = Err e.
Proof.
  induction s as [|c|c c' s IH IH'] using string_ind2; intros fld t e H Hok.
  - destruct fld; [|done]. by apply not_is_Ok_Err in Hok.
  - rewrite app_String, app_nil_l_str.
    destruct fld as [name|].
    + rewrite format_go_Some_cons in *. case_decide as Hc.
      * destruct (field name); [|done]. simpl in H. done.
      * case_decide; [by apply not_is_Ok_Err in Hok|].
        destruct (is_field_special c); by apply not_is_Ok_Err in Hok.
    + simpl in H, Hok. destruct (decide (c = "{"%char)).
      * by apply not_is_Ok_Err in Hok.
      * destruct (decide (c = "}"%char)); [|done].
        by apply not_is_Ok_Err in Hok.
  - rewrite !app_String. destruct fld as [name|].
    + rewrite format_go_Some_cons in *. rewrite <- app_String.
      case_decide as Hc.
      * apply is_Ok_bind in Hok as (v' & _ & Hok).
        apply is_Ok_bind in Hok as (rest' & Hrest' & _).
        destruct (field name) as [v|e']; [|by rewrite Err_bind in *].
        rewrite Ok_bind in *.
        destruct (format_go field None (String c' s)) as [rest|e'] eqn:Hr;
          [done|].
        rewrite Err_bind in H. injection H as ->.
        rewrite (IH' None t e Hr); [done|].
        by rewrite Hrest'; eexists.
      * case_decide; [done|]. destruct (is_field_special c); [done|].
        by apply IH'.
    + rewrite format_go_None_cons in *. rewrite <- app_String.
      case_decide; [case_decide|case_decide].
      * apply is_Ok_fmap in Hok.
        destruct (format_go field None s) as [u|e'] eqn:Hu; [done|].
        injection H as ->. by rewrite (IH None t e Hu Hok).
      * by apply IH'.
      * case_decide; [|done]. apply is_Ok_fmap in Hok.
        destruct (format_go field None s) as [u|e'] eqn:Hu; [done|].
        injection H as ->. by rewrite (IH None t e Hu Hok).
      * apply is_Ok_fmap in Hok.
        destruct (format_go field None (String c' s)) as [u|e'] eqn:Hu;
          [done|].
        injection H as ->. by rewrite (IH' None t e Hu Hok).
Qed.

Lemma format_go_compose field field' a b :
  is_Ok (format_go field' None a) →
  format_go field None (a +:+ b) =
  a' ← format_go field None a; b' ← format_go field None b; mret (a' +:+ b').
Proof.
  intros Hok. destruct (format_go field None a) as [a'|e] eqn:Ha.
  - rewrite (format_go_app _ _ _ _ _ Ha). simpl.
    by destruct (format_go field None b).
  - by rewrite (format_go_app_Err _ _ _ _ _ _ Ha Hok).
Qed.

(** X14. Formatting a template made of two parts formats the first part,
    then the second, and joins the results, the first error being the
    error of the whole; this holds for [format] and for [format_map] when
    the first part is a template of its own (its braces are closed). *)
Theorem format_app (param_dict : list (string * string)) (a b : string) :
  is_Ok (format_map [] a) →
  format param_dict (a +:+ b) =
    (a' ← format param_dict a; b' ← format param_dict b; mret (a' +:+ b')) ∧
  format_map param_dict (a +:+ b) =
    (a' ← format_map param_dict a; b' ← format_map param_dict b;
     mret (a' +:+ b')).
Proof.
  intros Hok. split; unfold format, format_map in *;
    by eapply format_go_compose.
Qed.

Lemma format_app_witness :
  format [("gcm", "A")] ("heat_{gcm}" +:+ "_{rcp}") =
  (a' ← format [("gcm", "A")] "heat_{gcm}";
   b' ← format [("gcm", "A")] "_{rcp}"; mret (a' +:+ b')).
Proof.
  apply (format_app [("gcm", "A")] "heat_{gcm}" "_{rcp}").
  eexists. vm_compute. reflexivity.
Defined.

(** X15. A placeholder whose name is a key of the combination is replaced
    by the value of that key, and the text before and after it is formatted
    on its own. *)
Theorem format_substitutes (param_dict : list (string * string))
    (before name after v : string) :
  plain_name name → dict_get param_dict name = Some v →
  is_Ok (format_map [] before) →
  format param_dict (before +:+ "{" +:+ name +:+ "}" +:+ after) =
    (b' ← format param_dict before; a' ← format param_dict after;
     mret (b' +:+ v +:+ a')) ∧
  format_map param_dict (before +:+ "{" +:+ name +:+ "}" +:+ after) =
    (b' ← format_map param_dict before; a' ← format_map param_dict after;
     mret (b' +:+ v +:+ a')).
Proof.
  intros Hname Hget Hok.
  unfold format, format_map.
  rewrite !(format_go_compose _ _ before _ Hok).
  rewrite !(format_go_placeholder _ _ _ Hname).
  unfold field_value. rewrite (proj2 Hname), Hget.
  split.
  - destruct (format_go _ None before); [|done]. simpl.
    by destruct (format_go _ None after).
  - destruct (format_go _ None before); [|done]. simpl.
    by destruct (format_go _ None after).
Qed.

Lemma format_substitutes_witness :
  format [("gcm", "A")] ("heat_" +:+ "{" +:+ "gcm" +:+ "}" +:+ "_v1") =
  (b' ← format [("gcm", "A")] "heat_"; a' ← format [("gcm", "A")] "_v1";
   mret (b' +:+ "A" +:+ a')).
Proof.
  apply (format_substitutes [("gcm", "A")] "heat_" "gcm" "_v1" "A").
  - split; reflexivity.
  - reflexivity.
  - eexists. vm_compute. reflexivity.
Defined.

Lemma format_go_no_braces field s :
  no_braces s = true → format_go field None s = Ok s.
Proof.
  induction s as [|c s IH]; [done|]. simpl.
  intros [[H1 H2]%andb_true_iff Hs]%andb_true_iff.
  apply negb_true_iff, bool_decide_eq_false in H1, H2.
  rewrite !decide_False by done. by rewrite (IH Hs).
Qed.

(** X16. A template without braces is its own result, for [format] and
    for [format_map] and for every combination. *)
Theorem format_no_braces (param_dict : list (string * string))
    (template : string) :
  no_braces template = true →
  format param_dict template = Ok template ∧
  format_map param_dict template = Ok template.
Proof. intros H. split; by apply format_go_no_braces. Qed.

Lemma format_no_braces_witness :
  format [("gcm", "A")] "heat/mean" = Ok "heat/mean".
Proof. apply (format_no_braces [("gcm", "A")] "heat/mean"). reflexivity. Defined.

Lemma format_go_mono field field' s :
  (∀ name v, field name = Ok v → field' name = Ok v) →
  ∀ fld r, format_go field fld s = Ok r → format_go field' fld s = Ok r.
Proof.
  intros Hfield.
  induction s as [|c|c c' s IH IH'] using string_ind2; intros fld r H.
  - done.
  - destruct fld as [name|]; simpl in *; [|done].
    case_decide; [|done]. inv_bind H as v Hv. by rewrite (Hfield _ _ Hv).
  - destruct fld as [name|].
    + rewrite format_go_Some_cons in *. case_decide.
      * inv_bind H as v Hv. inv_bind H as rest Hrest.
        by rewrite (Hfield _ _ Hv), (IH' _ _ Hrest).
      * case_decide; [done|]. destruct (is_field_special c); [done|].
        by apply IH'.
    + rewrite format_go_None_cons in *.
      case_decide; [case_decide|case_decide].
      * apply fmap_Ok in H as (u & Hu & ->). by rewrite (IH _ _ Hu).
      * by apply IH'.
      * case_decide; [|done].
        apply fmap_Ok in H as (u & Hu & ->). by rewrite (IH _ _ Hu).
      * apply fmap_Ok in H as (u & Hu & ->). by rewrite (IH' _ _ Hu).
Qed.

(** X17. Where [format] returns, [format_map] with the same combination
    returns the same string: the default of the missing keys changes
    nothing when no key is missing. *)
Theorem format_map_extends_format (param_dict : list (string * string))
    (template result : string) :
  format param_dict template = Ok result →
  format_map param_dict template = Ok result.
Proof.
  apply format_go_mono. intros name v. unfold field_value.
  destruct (all_digits name); [by destruct (Nat.ltb _ _)|].
  by destruct (dict_get param_dict name).
Qed.

Lemma format_map_extends_format_witness :
  format_map [("gcm", "A")] "heat/{gcm}" = Ok "heat/A".
Proof.
  apply format_map_extends_format. vm_compute. reflexivity.
Defined.

(** ** [str.replace] *)

(** X18. Replacing a string that does not occur changes nothing. *)
Theorem str_replace_absent (old new s : string) :
  old ≠ "" → str_contains old s = false → str_replace old new s = s.
Proof.
  intros Hold. destruct old as [|a old]; [done|]. unfold str_replace.
  induction s as [|c s IH]; [done|].
  simpl. intros [Hp Hs]%orb_false_iff.
  change (match s with
          | "" => match old with "" => true | String _ _ => false end
          | String b s2' => _
          end) with (String.prefix old s) in *.
  simpl in Hp. rewrite Hp. by rewrite (IH Hs).
Qed.

Lemma str_replace_absent_witness :
  str_replace "{rcp}" "" "Heat {gcm}" = "Heat {gcm}".
Proof.
  apply (str_replace_absent "{rcp}" "" "Heat {gcm}").
  - discriminate.
  - reflexivity.
Defined.

(** ** Labels *)

Lemma is_upper_space : is_upper " " = false.
Proof. reflexivity. Qed.

Lemma remove_char_split_camel_tail (s : string) :
  remove_char " " (split_camel_tail s) = remove_char " " s.
Proof.
  induction s as [|c s IH]; [done|]. simpl.
  destruct (is_upper c) eqn:Hc; simpl.
  - destruct (decide (c = " "%char)) as [->|Hne]; [done|].
    by rewrite IH.
  - destruct (decide (c = " "%char)); by rewrite IH.
Qed.

Lemma split_camel_tail_upper (s pre post : string) (c : ascii) :
  split_camel_tail s = pre +:+ String c post → is_upper c = true →
  ∃ pre', pre = pre' +:+ " ".
Proof.
  revert pre. induction s as [|a s IH]; intros pre H Hc.
  - destruct pre; discriminate.
  - simpl in H. destruct (is_upper a) eqn:Ha.
    + destruct pre as [|x pre].
      { rewrite app_nil_l_str in H. injection H as <- _. done. }
      rewrite app_String in H. injection H as <- H.
      destruct pre as [|y pre].
      { by exists "". }
      rewrite app_String in H. injection H as <- H.
      destruct (IH _ H Hc) as [pre' ->]. by exists (String " " (String a pre')).
    + destruct pre as [|x pre].
      { rewrite app_nil_l_str in H. injection H as <- _. congruence. }
      rewrite app_String in H. injection H as <- H.
      destruct (IH _ H Hc) as [pre' ->]. by exists (String a pre').
Qed.

(** X19. The label of a hazard type differs from the hazard type by
    spaces only, begins with the same character, and has a space before
    every capital letter but a first one. *)
Theorem hazard_type_label_spaces (hazard_type : string) :
  remove_char " " (hazard_type_label hazard_type)
    = remove_char " " hazard_type ∧
  (∀ c s, hazard_type = String c s →
          ∃ t, hazard_type_label hazard_type = String c t) ∧
  (∀ pre c post,
     hazard_type_label hazard_type = pre +:+ String c post →
     is_upper c = true →
     pre = "" ∨ ∃ pre', pre = pre' +:+ " ").
Proof.
  destruct hazard_type as [|c0 s]; simpl.
  - split_and!; [done|done|]. intros pre c post H. by destruct pre.
  - split_and!.
    + by rewrite remove_char_split_camel_tail.
    + intros c s' [= -> ->]. by eexists.
    + intros pre c post H Hc. destruct pre as [|x pre]; [by left|right].
      rewrite app_String in H. injection H as <- H.
      destruct (split_camel_tail_upper _ _ _ _ H Hc) as [pre' ->].
      by exists (String c0 pre').
Qed.

Lemma hazard_type_label_spaces_witness :
  "Chronic " = "" ∨ ∃ pre', "Chronic " = pre' +:+ " ".
Proof.
  apply (proj2 (proj2 (hazard_type_label_spaces "ChronicHeat"))
           "Chronic " "H"%char "eat").
  - reflexivity.
  - reflexivity.
Defined.

Lemma scenario_label_S (x : string) :
  scenario_label (String "S" x) = String "S" x.
Proof. reflexivity. Qed.

Lemma scenario_label_R (x : string) :
  scenario_label (String "R" x) = String "R" x.
Proof. reflexivity. Qed.

(** X20. The label of a label is that label: a scenario id that is
    already written as a label is left as it is, so it meets the id it was
    made from under one label. *)
Theorem scenario_label_idempotent (id : string) :
  scenario_label (scenario_label id) = scenario_label id.
Proof.
  unfold scenario_label at 2 3.
  destruct (String.prefix "ssp" id && Nat.eqb (String.length id) 6) eqn:Hssp.
  - apply scenario_label_S.
  - destruct (String.prefix "rcp" id) eqn:Hrcp; [apply scenario_label_R|].
    unfold scenario_label. by rewrite Hssp, Hrcp.
Qed.

Lemma rec_model_inj : Inj (=) (=) rec_model.
Proof.
  intros g1 g2 H.
  assert (rec_model g1 !! "value" = rec_model g2 !! "value") as Hv
    by (by rewrite H).
  unfold rec_model in Hv. rewrite !lookup_insert_eq in Hv. by injection Hv.
Qed.

Lemma value_list_rec_model (gcms : list string) :
  value_list (rec_model <$> gcms) = JStr <$> gcms.
Proof.
  unfold value_list. induction gcms as [|g gcms IH]; [done|].
  csimpl. unfold rec_model at 1. rewrite lookup_insert_eq. csimpl.
  by rewrite IH.
Qed.

(** X21. Without a [gcm] parameter there is no climate model; with one,
    the climate models are its values, one record per value and in their
    order, each labelled [CMIP6: ] and the value. The list holds a record
    twice exactly when the values hold a value twice. *)
Theorem get_climate_model_options_values
    (params : list (string * list string)) :
  (params_get params "gcm" = None → get_climate_model_options params = []) ∧
  (∀ gcms, params_get params "gcm" = Some gcms →
     length (get_climate_model_options params) = length gcms ∧
     value_list (get_climate_model_options params) = JStr <$> gcms ∧
     labels (get_climate_model_options params)
       = (λ gcm, Some (JStr ("CMIP6: " +:+ gcm))) <$> gcms ∧
     (NoDup (get_climate_model_options params) ↔ NoDup gcms)).
Proof.
  rewrite get_climate_model_options_gcm. split.
  - by intros ->.
  - intros gcms ->. split_and!.
    + by rewrite length_fmap.
    + apply value_list_rec_model.
    + unfold labels. rewrite <- list_fmap_compose.
      apply list_fmap_ext. intros i g _. simpl. unfold rec_model.
      rewrite lookup_insert_ne by done. apply lookup_singleton_eq.
    + apply NoDup_fmap, rec_model_inj.
Qed.

Lemma get_climate_model_options_values_witness :
  value_list (get_climate_model_options [("gcm", ["A"; "B"])])
  = JStr <$> ["A"; "B"].
Proof.
  apply (proj2 (get_climate_model_options_values [("gcm", ["A"; "B"])])).
  reflexivity.
Defined.

(** X22. The scenario options are the records of the scenario
    descriptors, each once: a record is in the list exactly when it is the
    record of a descriptor; its value is the id of the descriptor, its
    label the label of that id, its year options the years of the
    descriptor. *)
Theorem get_scenario_options_records (scenarios : list scenario) :
  (∀ r, r ∈ get_scenario_options scenarios ↔
        ∃ scene, scene ∈ scenarios ∧
          r = {[ "label" := JStr (scenario_label (scenario_id scene));
                 "value" := JStr (scenario_id scene);
                 "year_options" := years scene ]}) ∧
  NoDup (get_scenario_options scenarios) ∧
  length (get_scenario_options scenarios) ≤ length scenarios ∧
  (∀ r, r ∈ get_scenario_options scenarios →
        ∃ id, r !! "value" = Some (JStr id) ∧
              r !! "label" = Some (JStr (scenario_label id))).
Proof.
  unfold get_scenario_options. split_and!.
  - intros r. rewrite elem_of_dedupe_dict, list_elem_of_fmap.
    split; intros (scene & H1 & H2); by exists scene.
  - apply NoDup_dedupe_dict.
  - erewrite <- (length_fmap _ scenarios). apply sublist_length.
    apply dedupe_dict_sublist.
  - intros r (scene & -> & _)%elem_of_dedupe_dict%list_elem_of_fmap.
    exists (scenario_id scene). split.
    + rewrite lookup_insert_ne by done. apply lookup_insert_eq.
    + apply lookup_insert_eq.
Qed.

Lemma get_scenario_options_records_witness :
  ∃ id, ({[ "label" := JStr "SSP1-2.6"; "value" := JStr "ssp126";
            "year_options" := JList [JNum 2030] ]} : record) !! "value"
          = Some (JStr id) ∧
        ({[ "label" := JStr "SSP1-2.6"; "value" := JStr "ssp126";
            "year_options" := JList [JNum 2030] ]} : record) !! "label"
          = Some (JStr (scenario_label id)).
Proof.
  apply (proj2 (proj2 (proj2 (get_scenario_options_records [ssp126_2030])))).
  vm_compute. by left.
Defined.

(** ** Records that a merge cannot take *)

(** X23. A record without a label enters an empty accumulator unseen,
    but a merge into an accumulator that is not empty reads the label of
    its first record and of the incoming record: if either is missing the
    call raises [KeyError] for [label]. *)
Theorem update_options_missing_label
    (s r : record) (rest main_list : list record)
    (options_dicts : list option_dict) :
  (s !! "label" = None →
   update_options [s] [] [] = Ok [s]) ∧
  (r !! "label" = None ∨ s !! "label" = None →
   update_options (s :: rest) (r :: main_list) options_dicts
   = Err (KeyError "label")).
Proof.
  split; [done|].
  intros H. unfold update_options, update_one. simpl. unfold getitem.
  destruct (r !! "label") as [lr|] eqn:Hr; [|done].
  destruct H as [?|Hs]; [done|]. by rewrite Hs.
Qed.

Lemma update_options_missing_label_witness :
  update_options [rec_heat] [ {[ "value" := JStr "heat" ]} ] []
  = Err (KeyError "label").
Proof.
  apply (proj2 (update_options_missing_label rec_heat
                  {[ "value" := JStr "heat" ]} [] [] [])).
  left. reflexivity.
Defined.


